(** * gitalyze: a shallow embedding of [main.js] and its specification

    The program is one script: it asks the git binary for the remote
    branches and their histories, folds the hashes into a map of commit
    records, enriches every record with metadata parsed from git's text
    output, and upserts one document per commit.

    Modelling choices.
    - A JavaScript string is the list of its UTF-16 code units, each an [N].
    - [null] and [undefined] are [None].
    - A JavaScript number holding a line count is a double: a non-negative
      integer of 53 significant bits or [+Infinity], with [parseInt] and [+]
      rounding to the nearest double.
    - The [Map] of commits keeps insertion order: it is an association list
      whose entries are updated in place.
    - The git binary, the clock and the database are the environment: their
      replies are given by an oracle that sees the trace of earlier events,
      and every reply may be an exception. *)

From Stdlib Require Import List NArith Bool Arith Lia.
From Stdlib Require Import Permutation Sorted.
From Stdlib Require String Ascii DecimalString.
Import ListNotations String.StringSyntax.

Delimit Scope string_scope with string.

Set Implicit Arguments.
Local Open Scope N_scope.

(** ** Strings *)

Module JsString.

Definition jstring := list N.

(** A literal: the code units of an ASCII string. *)
Fixpoint lit (s : String.string) : jstring :=
  match s with
  | String.EmptyString => []
  | String.String c s' => Ascii.N_of_ascii c :: lit s'
  end.

Arguments lit s%_string.

Definition TAB : N := 9.
Definition LF : N := 10.
Definition CR : N := 13.

(** ECMAScript LineTerminator: LF, CR, U+2028, U+2029. *)
Definition is_line_terminator (c : N) : bool :=
  (c =? 10) || (c =? 13) || (c =? 8232) || (c =? 8233).

(** ECMAScript WhiteSpace and LineTerminator, the characters that [trim]
    strips and that [\s] matches. *)
Definition is_space (c : N) : bool :=
  (c =? 9) || (c =? 11) || (c =? 12) || (c =? 32) || (c =? 160)
  || (c =? 5760) || ((8192 <=? c) && (c <=? 8202))
  || (c =? 8239) || (c =? 8287) || (c =? 12288) || (c =? 65279)
  || is_line_terminator c.

(** [\d] *)
Definition is_digit (c : N) : bool := (48 <=? c) && (c <=? 57).

Fixpoint eqb (a b : jstring) : bool :=
  match a, b with
  | [], [] => true
  | x :: a', y :: b' => (x =? y) && eqb a' b'
  | _, _ => false
  end.

Fixpoint drop_while (p : N -> bool) (s : jstring) : jstring :=
  match s with
  | [] => []
  | c :: s' => if p c then drop_while p s' else s
  end.

(** [String.prototype.trim] *)
Definition trim (s : jstring) : jstring :=
  rev (drop_while is_space (rev (drop_while is_space s))).

(** [s.split(sep)] for a one-character separator: never empty. *)
Fixpoint split (sep : N) (s : jstring) : list jstring :=
  match s with
  | [] => [[]]
  | c :: s' =>
      if c =? sep then [] :: split sep s'
      else match split sep s' with
           | [] => [[c]]
           | seg :: segs => (c :: seg) :: segs
           end
  end.

(** [a.join(sep)] *)
Fixpoint join (sep : jstring) (l : list jstring) : jstring :=
  match l with
  | [] => []
  | [x] => x
  | x :: l' => x ++ sep ++ join sep l'
  end.

(** [a.slice(n)] *)
Definition slice_from {A} (n : nat) (l : list A) : list A := skipn n l.

(** The order of the default [sort]: code units compared from the left,
    a proper prefix first. *)
Fixpoint leb (a b : jstring) : bool :=
  match a, b with
  | [], _ => true
  | _ :: _, [] => false
  | x :: a', y :: b' => (x <? y) || ((x =? y) && leb a' b')
  end.

Fixpoint insert (x : jstring) (l : list jstring) : list jstring :=
  match l with
  | [] => [x]
  | y :: l' => if leb x y then x :: l else y :: insert x l'
  end.

(** [a.sort()] on an array of strings.  The order is total and two strings
    that compare equal are the same string, so every sorting algorithm
    returns this list. *)
Fixpoint sort (l : list jstring) : list jstring :=
  match l with
  | [] => []
  | x :: l' => insert x (sort l')
  end.

(** Decimal rendering of a number, as in a template literal. *)
Definition of_nat (n : nat) : jstring :=
  lit (DecimalString.NilEmpty.string_of_uint (Nat.to_uint n)).

End JsString.

Import JsString.

(** ** Regular expressions

    The three patterns of the script use character classes, sequence,
    option, repetition and the anchors [^] and [$].  A pattern body is a
    [regex]; the anchors and the flags choose one of the [test] functions
    below.  [RegExp.prototype.test] answers whether a match exists, so the
    order in which a backtracking engine tries alternatives does not show,
    and matching by derivatives gives its answer. *)

Module Regex.

Inductive regex : Type :=
| Void
| Eps
| Class (p : N -> bool)
| Cat (r1 r2 : regex)
| Alt (r1 r2 : regex)
| Star (r : regex).

Definition Opt (r : regex) : regex := Alt r Eps.
Definition Plus (r : regex) : regex := Cat r (Star r).

Fixpoint nullable (r : regex) : bool :=
  match r with
  | Void => false
  | Eps => true
  | Class _ => false
  | Cat r1 r2 => nullable r1 && nullable r2
  | Alt r1 r2 => nullable r1 || nullable r2
  | Star _ => true
  end.

Fixpoint deriv (c : N) (r : regex) : regex :=
  match r with
  | Void => Void
  | Eps => Void
  | Class p => if p c then Eps else Void
  | Cat r1 r2 =>
      if nullable r1 then Alt (Cat (deriv c r1) r2) (deriv c r2)
      else Cat (deriv c r1) r2
  | Alt r1 r2 => Alt (deriv c r1) (deriv c r2)
  | Star r1 => Cat (deriv c r1) (Star r1)
  end.

(** The whole string matches. *)
Fixpoint match_whole (r : regex) (s : jstring) : bool :=
  match s with
  | [] => nullable r
  | c :: s' => match_whole (deriv c r) s'
  end.

(** Some prefix of the string matches. *)
Fixpoint match_here (r : regex) (s : jstring) : bool :=
  nullable r ||
  match s with
  | [] => false
  | c :: s' => match_here (deriv c r) s'
  end.

(** [/r/.test(s)]: a match may start at any index. *)
Fixpoint test_anywhere (r : regex) (s : jstring) : bool :=
  match_here r s ||
  match s with
  | [] => false
  | _ :: s' => test_anywhere r s'
  end.

(** [/^r/m.test(s)]: with flag [m] the anchor [^] holds at index 0 and
    after every line terminator.  [bol] tells whether it holds here. *)
Fixpoint search_bol (r : regex) (bol : bool) (s : jstring) : bool :=
  (bol && match_here r s) ||
  match s with
  | [] => false
  | c :: s' => search_bol r (is_line_terminator c) s'
  end.

Definition test_bol_multiline (r : regex) (s : jstring) : bool :=
  search_bol r true s.

(** [/^r$/.test(s)] without flag [m]. *)
Definition test_anchored (r : regex) (s : jstring) : bool := match_whole r s.

(** The argument of [test] is converted to a string first. *)
Definition to_string (v : option jstring) : jstring :=
  match v with
  | Some s => s
  | None => lit "undefined"
  end.

(** Character classes. *)
Definition chr (c : N) : regex := Class (N.eqb c).
Definition space : regex := Class is_space.
Definition digit : regex := Class is_digit.

Definition ascii_upper (c : N) : N :=
  if (97 <=? c) && (c <=? 122) then c - 32 else c.

(** A pattern character under flag [i] (without flag [u]): it matches the
    code units with the same Canonicalize value.  For an ASCII pattern
    character these are ASCII themselves, since a code unit from 128 up is
    never canonicalized into ASCII. *)
Definition same_ci (c x : N) : bool :=
  (x <? 128) && (ascii_upper x =? ascii_upper c).

Definition ci_chr (c : N) : regex := Class (same_ci c).

Fixpoint ci_word (w : jstring) : regex :=
  match w with
  | [] => Eps
  | c :: w' => Cat (ci_chr c) (ci_word w')
  end.

(** The language of a pattern body. *)
Inductive Lang : regex -> jstring -> Prop :=
| LEps : Lang Eps []
| LClass p c : p c = true -> Lang (Class p) [c]
| LCat r1 r2 s1 s2 : Lang r1 s1 -> Lang r2 s2 -> Lang (Cat r1 r2) (s1 ++ s2)
| LAltL r1 r2 s : Lang r1 s -> Lang (Alt r1 r2) s
| LAltR r1 r2 s : Lang r2 s -> Lang (Alt r1 r2) s
| LStar0 r : Lang (Star r) []
| LStarS r s1 s2 : Lang r s1 -> Lang (Star r) s2 -> Lang (Star r) (s1 ++ s2).

End Regex.

Import Regex.

(** ** Branch Lister (main.js, lines 43-50) *)

Definition SLASH : N := 47.

(** [a[i] == s] for an array of strings: [undefined] equals no string. *)
Definition index_is (a : list jstring) (i : nat) (s : jstring) : bool :=
  match nth_error a i with
  | Some x => JsString.eqb x s
  | None => false
  end.

Definition branch_name (l : jstring) : jstring :=
  join (lit "/") (slice_from 3 (split SLASH l)).

(** [out] is what [git("branch -r --format='%(refname)'")] returned. *)
Definition list_branches (remoteName out : jstring) : list jstring :=
  sort
    (filter (fun l => negb (JsString.eqb l (lit "HEAD")))
       (map branch_name
          (filter (fun l => index_is (split SLASH l) 2 remoteName)
             (filter (fun l => (4 <=? length (split SLASH l))%nat)
                (map trim (split LF out)))))).

(** ** History Walker (main.js, lines 55-75) *)

Record commit_record : Type := {
  repo : jstring;
  remote : jstring;
  hash : jstring;
  branches : list jstring
}.

(** The [Map] from commit hash to record, in insertion order. *)
Definition commit_map := list (jstring * commit_record).

Fixpoint map_has (k : jstring) (m : commit_map) : bool :=
  match m with
  | [] => false
  | (k', _) :: m' => JsString.eqb k k' || map_has k m'
  end.

Fixpoint map_get (k : jstring) (m : commit_map) : option commit_record :=
  match m with
  | [] => None
  | (k', v) :: m' => if JsString.eqb k k' then Some v else map_get k m'
  end.

(** [m.set(k, v)]: an existing key keeps its place, a new one goes last. *)
Fixpoint map_set (k : jstring) (v : commit_record) (m : commit_map)
  : commit_map :=
  match m with
  | [] => [(k, v)]
  | (k', v') :: m' =>
      if JsString.eqb k k' then (k', v) :: m' else (k', v') :: map_set k v m'
  end.

(** [m.get(k).branches.push(b)]: the record is mutated where it is. *)
Fixpoint map_push_branch (k b : jstring) (m : commit_map) : commit_map :=
  match m with
  | [] => []
  | (k', v) :: m' =>
      if JsString.eqb k k'
      then (k', {| repo := repo v; remote := remote v; hash := hash v;
                   branches := branches v ++ [b] |}) :: m'
      else (k', v) :: map_push_branch k b m'
  end.

(** The hashes read from one [rev-list] output. *)
Definition rev_hashes (out : jstring) : list jstring :=
  filter (fun l => (0 <? length l)%nat) (map trim (split LF out)).

(** The body of the [forEach]. *)
Definition visit (repoName remoteName branch : jstring)
  (commits : commit_map) (commitHash : jstring) : commit_map :=
  if map_has commitHash commits
  then map_push_branch commitHash branch commits
  else map_set commitHash
         {| repo := repoName; remote := remoteName; hash := commitHash;
            branches := [branch] |} commits.

(** One turn of the [for] loop, given the output of [rev-list]. *)
Definition walk_branch (repoName remoteName : jstring) (commits : commit_map)
  (branch out : jstring) : commit_map :=
  fold_left (visit repoName remoteName branch) (rev_hashes out) commits.

(** The whole loop: [runs] pairs each branch, in the order processed, with
    the output [rev-list] gave for it. *)
Definition walk (repoName remoteName : jstring)
  (runs : list (jstring * jstring)) : commit_map :=
  fold_left (fun m run => walk_branch repoName remoteName m (fst run) (snd run))
    runs [].

(** ** Classifier (main.js, lines 98-99) *)

(** The body of [/^\s*(Merged\s+)?PR\s+\d+:/mi]. *)
Definition re_PR : regex :=
  Cat (Star space)
    (Cat (Opt (Cat (ci_word (lit "Merged")) (Plus space)))
       (Cat (ci_word (lit "PR"))
          (Cat (Plus space) (Cat (Plus digit) (chr 58))))).

(** The body of [/Merge/mi]. *)
Definition re_Merge : regex := ci_word (lit "Merge").

Definition isPR (subject : jstring) : bool := test_bol_multiline re_PR subject.

Definition isMerge (subject : jstring) : bool :=
  negb (isPR subject) && test_anywhere re_Merge subject.

(** ** Identifier (main.js, line 102) *)

Definition make_id (r : commit_record) : jstring :=
  repo r ++ lit "-" ++ remote r ++ lit "-" ++ hash r.

(** ** Diff statistics (main.js, lines 105-120) *)

(** The numbers of this code are the values of [parseInt] on strings of
    decimal digits, [0], and sums of these: IEEE 754 doubles that are
    non-negative integers, or [+Infinity]. *)
Inductive js_number : Type :=
  | Finite (n : N)
  | Infinity.

(** The Number value of a non-negative integer: the nearest double, ties to
    the even significand of 53 bits, [+Infinity] from [2^1024 - 2^970] on.
    Below [2^53] the shift [e] is 0 and the integer is kept. *)
Definition number_of (n : N) : js_number :=
  let e := N.log2 n - 52 in
  let q := N.shiftr n e in
  let r := n - N.shiftl q e in
  let half := N.shiftl 1 (e - 1) in
  let up := (0 <? e) && ((half <? r) || ((r =? half) && N.odd q)) in
  let v := N.shiftl (if up then q + 1 else q) e in
  if 2 ^ 1024 <=? v then Infinity else Finite v.

(** [a + b] on these numbers: the exact sum, rounded. *)
Definition js_add (a b : js_number) : js_number :=
  match a, b with
  | Finite x, Finite y => number_of (x + y)
  | _, _ => Infinity
  end.

Record file_stat : Type := {
  path : option jstring;
  insertions : option js_number;
  deletions : option js_number
}.

Record totals : Type := {
  total_insertions : js_number;
  total_deletions : js_number
}.

(** [parseInt] on a string of decimal digits: the integer the digits denote,
    as a Number.  Every call is guarded by [/^\d+$/], so no other string
    reaches it.  The digits are all taken into account, as V8 does. *)
Definition parseInt (s : jstring) : js_number :=
  number_of (fold_left (fun n c => 10 * n + (c - 48)) s 0).

(** [/^\d+$/.test(f) ? parseInt(f) : null] *)
Definition count_field (f : option jstring) : option js_number :=
  if test_anchored (Plus digit) (to_string f) then option_map parseInt f
  else None.

Definition stat_lines (out : jstring) : list jstring :=
  filter (fun l => (0 <? length l)%nat) (map trim (split LF out)).

Definition stat_fields (l : jstring) : list jstring := map trim (split TAB l).

Definition file_stat_of (l : list jstring) : file_stat :=
  {| path := nth_error l 2;
     insertions := count_field (nth_error l 0);
     deletions := count_field (nth_error l 1) |}.

(** [out] is what [git("show --format='' --numstat <hash>")] returned. *)
Definition parse_numstat (out : jstring) : list file_stat :=
  map file_stat_of (map stat_fields (stat_lines out)).

(** [v || 0]: [null] and [0] are the falsy values a count can take. *)
Definition or_zero (v : option js_number) : js_number :=
  match v with
  | Some n => n
  | None => Finite 0
  end.

(** [file.reduce((i, e) => i + (e.insertions || 0), 0)], and the same for
    the deletions. *)
Definition sum_totals (file : list file_stat) : totals :=
  {| total_insertions :=
       fold_left (fun i e => js_add i (or_zero (insertions e))) file (Finite 0);
     total_deletions :=
       fold_left (fun i e => js_add i (or_zero (deletions e))) file (Finite 0) |}.

(** ** The persisted document (main.js, lines 84-120) *)

(** [new Date(text)]: the instant is kept as the text it was built from. *)
Inductive js_date : Type := NewDate (text : jstring).

Module Doc.

Record identity : Type := {
  email : jstring;
  name : jstring;
  date : js_date
}.

Record stats_t : Type := {
  file : list file_stat;
  total : totals
}.

(** [commitDetails] once every field is set; [seed] holds the four fields
    the history walk gave it. *)
Record t : Type := {
  seed : commit_record;
  author : identity;
  committer : identity;
  subject : jstring;
  body : jstring;
  isPR : bool;
  isMerge : bool;
  _id : jstring;
  stats : stats_t
}.

End Doc.

(** The text git printed for one commit, one field per [show] query. *)
Record show_output : Type := {
  show_ae : jstring; show_an : jstring; show_ai : jstring;
  show_ce : jstring; show_cn : jstring; show_ci : jstring;
  show_s : jstring; show_b : jstring;
  show_numstat : jstring
}.

Definition details_of (commitDetails : commit_record) (o : show_output)
  : Doc.t :=
  let file := parse_numstat (show_numstat o) in
  {| Doc.seed := commitDetails;
     Doc.author := {| Doc.email := show_ae o; Doc.name := show_an o;
                      Doc.date := NewDate (show_ai o) |};
     Doc.committer := {| Doc.email := show_ce o; Doc.name := show_cn o;
                         Doc.date := NewDate (show_ci o) |};
     Doc.subject := show_s o;
     Doc.body := show_b o;
     Doc.isPR := isPR (show_s o);
     Doc.isMerge := isMerge (show_s o);
     Doc._id := make_id commitDetails;
     Doc.stats := {| Doc.file := file; Doc.total := sum_totals file |} |}.

(** [updateOne({_id}, {$set: doc}, {upsert: true})] on a collection: the
    document with that [_id] takes the new value of every field, and a
    document is inserted when there is none. *)
Fixpoint upsert (doc : Doc.t) (coll : list Doc.t) : list Doc.t :=
  match coll with
  | [] => [doc]
  | d :: coll' =>
      if JsString.eqb (Doc._id d) (Doc._id doc) then doc :: coll'
      else d :: upsert doc coll'
  end.

(** ** Effects: the environment, the trace and exceptions *)

Module Effects.

(** What [console.log(error)] prints of a thrown value. *)
Definition error := jstring.

Inductive result (A : Type) : Type :=
| Ok (a : A)
| Throw (e : error).

Arguments Ok {A} a.
Arguments Throw {A} e.

Inductive event : Type :=
| EvConnect (uri : jstring)
| EvGit (args cwd : jstring)
| EvLog (line : jstring)
| EvLogError (e : error)
| EvProgressBar (total : nat)
| EvUpdateOne (db : jstring) (doc : Doc.t)
| EvTick
| EvClose
| EvExit (code : N).

(** The replies of the world; each sees the events so far. *)
Record environment : Type := {
  clock : list event -> jstring;
  connect_reply : list event -> jstring -> result unit;
  git_reply : list event -> jstring -> jstring -> result jstring;
  update_reply : list event -> jstring -> Doc.t -> result unit
}.

(** A computation extends the trace and returns or throws. *)
Definition M (A : Type) : Type := list event -> result A * list event.

Definition ret {A} (a : A) : M A := fun tr => (Ok a, tr).

Definition bind {A B} (m : M A) (k : A -> M B) : M B :=
  fun tr =>
    match m tr with
    | (Ok a, tr') => k a tr'
    | (Throw e, tr') => (Throw e, tr')
    end.

Definition emit (ev : event) : M unit := fun tr => (Ok tt, tr ++ [ev]).

(** A call out of the process: the event is recorded and the world
    replies from what happened before it. *)
Definition call {A} (ev : event) (reply : list event -> result A) : M A :=
  fun tr => (reply tr, tr ++ [ev]).

Fixpoint for_each {A} (l : list A) (body : A -> M unit) : M unit :=
  match l with
  | [] => ret tt
  | x :: l' => bind (body x) (fun _ => for_each l' body)
  end.

Fixpoint fold_M {A S} (body : S -> A -> M S) (l : list A) (s : S) : M S :=
  match l with
  | [] => ret s
  | x :: l' => bind (body s x) (fun s' => fold_M body l' s')
  end.

End Effects.

Import Effects.

Declare Scope js_scope.
Delimit Scope js_scope with js.
Notation "x <- m ;; k" := (bind m (fun x => k))
  (at level 61, m at next level, right associativity) : js_scope.
Notation "m ;; k" := (bind m (fun _ => k))
  (at level 61, right associativity) : js_scope.

(** ** The script (main.js, lines 7-139 and 172-179) *)

Section Script.

Variable env : environment.

Local Open Scope js_scope.

(** [git(args, cwd)]: the standard output of the command, trimmed; a
    failure of [execSync] is thrown on. *)
Definition git (args cwd : jstring) : M jstring :=
  out <- call (EvGit args cwd) (fun tr => git_reply env tr args cwd) ;;
  ret (trim out).

Definition console_log (line : jstring) : M unit := emit (EvLog line).

(** [!v] for a parameter that is a string or [null]. *)
Definition falsy (v : option jstring) : bool :=
  match v with
  | None => true
  | Some [] => true
  | Some (_ :: _) => false
  end.

(** [if (!v) { v = d; }] *)
Definition or_default (v : option jstring) (d : jstring) : jstring :=
  if falsy v then d
  else match v with
       | Some s => s
       | None => d
       end.

(** [iso.replace(/[\-:\.]/g, '')] *)
Definition strip_punctuation (iso : jstring) : jstring :=
  filter (fun c => negb ((c =? 45) || (c =? 58) || (c =? 46))) iso.

Record config : Type := {
  repoPath : jstring;
  remoteName : jstring;
  mongoUri : jstring;
  mongoDb : jstring
}.

(** Lines 13-27; [now] is [new Date().toISOString()]. *)
Definition defaults (now : jstring)
  (repoPath remoteName mongoUri mongoDb : option jstring) : config :=
  {| repoPath := or_default repoPath (lit ".");
     remoteName := or_default remoteName (lit "origin");
     mongoUri := or_default mongoUri (lit "mongodb://localhost:27017");
     mongoDb := or_default mongoDb (lit "gitalyze-" ++ strip_punctuation now) |}.

Definition show (fmt commitHash cwd : jstring) : M jstring :=
  git (lit "show -s --format='" ++ fmt ++ lit "' " ++ commitHash) cwd.

(** Lines 84-95 and 106: the nine queries for one commit. *)
Definition fetch_show (commitHash cwd : jstring) : M show_output :=
  ae <- show (lit "%ae") commitHash cwd ;;
  an <- show (lit "%an") commitHash cwd ;;
  ai <- show (lit "%ai") commitHash cwd ;;
  ce <- show (lit "%ce") commitHash cwd ;;
  cn <- show (lit "%cn") commitHash cwd ;;
  ci <- show (lit "%ci") commitHash cwd ;;
  s <- show (lit "%s") commitHash cwd ;;
  b <- show (lit "%b") commitHash cwd ;;
  numstat <- git (lit "show --format='' --numstat " ++ commitHash) cwd ;;
  ret {| show_ae := ae; show_an := an; show_ai := ai;
         show_ce := ce; show_cn := cn; show_ci := ci;
         show_s := s; show_b := b; show_numstat := numstat |}.

(** Lines 82-134: the body of the second loop. *)
Definition store_commit (cfg : config) (entry : jstring * commit_record)
  : M unit :=
  o <- fetch_show (fst entry) (repoPath cfg) ;;
  let doc := details_of (snd entry) o in
  call (EvUpdateOne (mongoDb cfg) doc)
       (fun tr => update_reply env tr (mongoDb cfg) doc) ;;
  emit EvTick.

(** Line 30: [MongoClient.connect]. *)
Definition connect (cfg : config) : M unit :=
  call (EvConnect (mongoUri cfg))
       (fun tr => connect_reply env tr (mongoUri cfg)).

(** Line 34: the arguments of the remote URL query. *)
Definition url_args (cfg : config) : jstring :=
  lit "config --get remote." ++ remoteName cfg ++ lit ".url".

(** Line 35: [_.last(repoUrl.split('/'))]. *)
Definition repo_name (repoUrl : jstring) : jstring :=
  last (split SLASH repoUrl) [].

(** Line 43: the arguments of the branch listing. *)
Definition branch_args : jstring := lit "branch -r --format='%(refname)'".

(** The separator of the two listings printed. *)
Definition bullet : jstring := LF :: lit "- ".

(** Line 58: the arguments of the history query for one branch. *)
Definition revlist_args (cfg : config) (branch : jstring) : jstring :=
  lit "rev-list --full-history " ++ remoteName cfg ++ lit "/" ++ branch.

(** Lines 57-75: one turn of the first loop, asking git. *)
Definition walk_step (cfg : config) (repoName : jstring)
  (commits : commit_map) (branch : jstring) : M commit_map :=
  out <- git (revlist_args cfg branch) (repoPath cfg) ;;
  ret (walk_branch repoName (remoteName cfg) commits branch out).

(** Lines 57-75: the first loop. *)
Definition walk_loop (cfg : config) (repoName : jstring)
  (branches : list jstring) : M commit_map :=
  fold_M (walk_step cfg repoName) branches [].

(** Lines 33-138: everything after the connection. *)
Definition analyze (cfg : config) : M unit :=
  repoUrl <- git (url_args cfg) (repoPath cfg) ;;
  let repoName := repo_name repoUrl in
  console_log (lit "Repo: " ++ repoName) ;;
  git (lit "fetch --all --prune") (repoPath cfg) ;;
  out <- git branch_args (repoPath cfg) ;;
  let branches := list_branches (remoteName cfg) out in
  console_log (of_nat (length branches) ++ lit " branches:" ++ bullet
                 ++ join bullet branches) ;;
  commits <- walk_loop cfg repoName branches ;;
  console_log (of_nat (length commits) ++ lit " commits:" ++ bullet
                 ++ join bullet (sort (map fst commits))) ;;
  emit (EvProgressBar (length commits)) ;;
  for_each commits (store_commit cfg) ;;
  emit EvClose ;;
  console_log (lit "Done!").

(** Lines 29-138, after the defaults. *)
Definition pipeline (cfg : config) : M unit :=
  connect cfg ;;
  analyze cfg.

(** Lines 11-27. *)
Definition main (repoPath remoteName mongoUri mongoDb : option jstring)
  : M unit :=
  fun tr =>
    pipeline (defaults (clock env tr) repoPath remoteName mongoUri mongoDb) tr.

(** Lines 174-179: the events of one run of the process. *)
Definition run_process (repo remote mongo db : option jstring) : list event :=
  match main repo remote mongo db [] with
  | (Ok _, tr) => tr ++ [EvExit 0]
  | (Throw e, tr) => tr ++ [EvLogError e; EvExit 1]
  end.

(** The exception the world raised at a call, if it did. *)
Definition failure_of (tr : list event) (ev : event) : option error :=
  match ev with
  | EvConnect uri =>
      match connect_reply env tr uri with Throw e => Some e | Ok _ => None end
  | EvGit args cwd =>
      match git_reply env tr args cwd with Throw e => Some e | Ok _ => None end
  | EvUpdateOne db doc =>
      match update_reply env tr db doc with Throw e => Some e | Ok _ => None end
  | _ => None
  end.

End Script.

(** ** Vocabulary of the specification *)


(** Lexicographic order on code units. *)
Inductive lex_le : jstring -> jstring -> Prop :=
| lex_le_nil b : lex_le [] b
| lex_le_lt x y a b : x < y -> lex_le (x :: a) (y :: b)
| lex_le_eq x a b : lex_le a b -> lex_le (x :: a) (x :: b).

(** The same word up to the case of its ASCII letters. *)
Fixpoint ci_eqb (w s : jstring) : bool :=
  match w, s with
  | [], [] => true
  | c :: w', x :: s' => same_ci c x && ci_eqb w' s'
  | _, _ => false
  end.

Definition all_space (s : jstring) : Prop := forallb is_space s = true.
Definition all_digits (s : jstring) : Prop := forallb is_digit s = true.

(** "[Merged ]": the word, its letters in either case, and at least one
    white space. *)
Definition merged_token (s : jstring) : Prop :=
  exists m sp, s = m ++ sp /\ ci_eqb (lit "Merged") m = true /\
               sp <> [] /\ all_space sp.

(** "[PR <number>:]": the letters in either case, at least one white space,
    at least one decimal digit, a colon. *)
Definition pr_number_colon (s : jstring) : Prop :=
  exists pr sp ds,
    s = pr ++ sp ++ ds ++ lit ":" /\ ci_eqb (lit "PR") pr = true /\
    sp <> [] /\ all_space sp /\ ds <> [] /\ all_digits ds.

(** The head of a pull-request subject: optional white space, an optional
    "[Merged ]" token, then "[PR <number>:]". *)
Definition pr_head (p : jstring) : Prop :=
  exists ws merged tail, p = ws ++ merged ++ tail /\ all_space ws /\
    (merged = [] \/ merged_token merged) /\ pr_number_colon tail.

(** The string begins with a pull-request head. *)
Definition begins_with_pr (s : jstring) : Prop :=
  exists p q, s = p ++ q /\ pr_head p.

(** [pre] ends where a line starts: nothing before, or a line terminator. *)
Definition line_start (pre : jstring) : Prop :=
  pre = [] \/ exists pre' c, pre = pre' ++ [c] /\ is_line_terminator c = true.

(** Some line of the string begins with a pull-request head. *)
Definition some_line_begins_with_pr (s : jstring) : Prop :=
  exists pre rest, s = pre ++ rest /\ line_start pre /\ begins_with_pr rest.

(** The string contains "merge" in any case. *)
Definition contains_merge (s : jstring) : Prop :=
  exists a m b, s = a ++ m ++ b /\ ci_eqb (lit "merge") m = true.


(** The record the walk holds for [h] when [bs] are its branches. *)
Definition record_for (repoName remoteName h : jstring) (bs : list jstring)
  : option commit_record :=
  match bs with
  | [] => None
  | _ :: _ => Some {| repo := repoName; remote := remoteName; hash := h;
                      branches := bs |}
  end.

(** [m] holds, for every hash, the record of the branches [B] tells. *)
Definition represents (repoName remoteName : jstring)
  (B : jstring -> list jstring) (m : commit_map) : Prop :=
  forall h, map_get h m = record_for repoName remoteName h (B h).




(** The sum of the counts [f] of the records as integers, [null] counted as
    zero; there is none when a count is infinite. *)
Fixpoint exact_total (f : file_stat -> option js_number)
  (file : list file_stat) : option N :=
  match file with
  | [] => Some 0
  | e :: file' =>
      match or_zero (f e), exact_total f file' with
      | Finite n, Some a => Some (n + a)
      | _, _ => None
      end
  end.



(** How many times the list holds [h]. *)
Definition occurrences (h : jstring) (l : list jstring) : nat :=
  length (filter (JsString.eqb h) l).

(** The runs of the walk whose output lists [h]. *)
Definition runs_listing (h : jstring) (runs : list (jstring * jstring))
  : list (jstring * jstring) :=
  filter (fun run => (0 <? occurrences h (rev_hashes (snd run)))%nat) runs.

(** A branch listing that names the ref of branch b twice, and the walk of
    the two branches it gives; a walk of one branch whose output lists a
    hash twice. *)
Definition refs_twice : jstring :=
  lit "refs/remotes/origin/b" ++ LF :: lit "refs/remotes/origin/b".

Definition runs_same_name : list (jstring * jstring) :=
  [(lit "b", lit "c0ffee"); (lit "b", lit "c0ffee")].

Definition runs_hash_twice : list (jstring * jstring) :=
  [(lit "dev", lit "c0ffee" ++ LF :: lit "c0ffee")].

(** The branches appended to the record of [h], in the order appended:
    each run gives its branch once for every time its output lists [h]. *)
Definition branches_of (h : jstring) (runs : list (jstring * jstring))
  : list jstring :=
  flat_map (fun run => repeat (fst run) (occurrences h (rev_hashes (snd run))))
    runs.

(** ** Further vocabulary: strings, refs and the order of the map *)

(** No white space at either end: what [trim] leaves unchanged. *)
Definition clean_ends (s : jstring) : Prop :=
  (forall c s', s = c :: s' -> is_space c = false) /\
  (forall s' c, s = s' ++ [c] -> is_space c = false).

(** The remote-tracking ref of branch [b] of [remote], as git prints it. *)
Definition ref_of (remote b : jstring) : jstring :=
  lit "refs/remotes/" ++ remote ++ lit "/" ++ b.

(** A branch name that a listing can carry: one line, no white space at
    its ends, and not the symbolic HEAD. *)
Definition listable (b : jstring) : Prop :=
  ~ In LF b /\ clean_ends b /\ b <> lit "HEAD".

(** The listing git prints for the branches [bs] of [remote], one ref on
    each line. *)
Definition listing_of (remote : jstring) (bs : list jstring) : jstring :=
  join [LF] (map (ref_of remote) bs).

(** The elements of a list in the order of their first occurrence. *)
Fixpoint first_occurrences (l : list jstring) : list jstring :=
  match l with
  | [] => []
  | h :: l' =>
      h :: filter (fun x => negb (JsString.eqb x h)) (first_occurrences l')
  end.

(** Every hash read during the walk, in the order read. *)
Definition all_hashes (runs : list (jstring * jstring)) : list jstring :=
  flat_map (fun run => rev_hashes (snd run)) runs.

(** The walk as one pass over the (branch, hash) pairs read. *)
Definition hash_stream (runs : list (jstring * jstring))
  : list (jstring * jstring) :=
  flat_map (fun run => map (pair (fst run)) (rev_hashes (snd run))) runs.

(** The documents of a run, in the order of the map, when [o] tells what
    git prints about each commit. *)
Definition documents_of (commits : commit_map)
  (o : jstring -> show_output) : list Doc.t :=
  map (fun entry => details_of (snd entry) (o (fst entry))) commits.

(** ** No exception is handled *)

Section Propagation.

Variable env : environment.

(** A computation that ran from [tr0], added [ext] and ended in [r] has
    let every exception through: a call the world failed is the last event
    and its exception is the outcome, and an exception has no other origin. *)
Definition aborts_at {A} (tr0 ext : list event) (r : result A) : Prop :=
  (forall pre ev post e,
      ext = pre ++ ev :: post -> failure_of env (tr0 ++ pre) ev = Some e ->
      post = [] /\ r = Throw e) /\
  (forall e, r = Throw e ->
      exists pre ev, ext = pre ++ [ev] /\
                     failure_of env (tr0 ++ pre) ev = Some e).

Definition propagates {A} (m : M A) : Prop :=
  forall tr0 r tr, m tr0 = (r, tr) ->
    exists ext, tr = tr0 ++ ext /\ aborts_at tr0 ext r.

End Propagation.

(** ** What the trace tells of a run *)

Section Reading.

Variable env : environment.

(** In the trace [tr], git was run with [args] in [cwd], succeeded, and
    [out] is what it printed, trimmed. *)
Definition git_said (tr : list event) (args cwd out : jstring) : Prop :=
  exists pre post raw,
    tr = pre ++ EvGit args cwd :: post /\
    git_reply env pre args cwd = Ok raw /\ out = trim raw.

(** The upserts requested in a trace, as (database, document) pairs. *)
Definition updates (tr : list event) : list (jstring * Doc.t) :=
  flat_map (fun ev => match ev with
                      | EvUpdateOne db doc => [(db, doc)]
                      | _ => []
                      end) tr.

(** The document [doc] sent to database [db] is the document of a record of
    the history walk of this run: the walk over the listed branches of the
    remote, each with the history git printed for it, under the repository
    name read from the remote URL. *)
Definition persisted_from_walk (tr : list event) (cfg : config)
  (db : jstring) (doc : Doc.t) : Prop :=
  db = mongoDb cfg /\
  exists url refs runs o,
    git_said tr (url_args cfg) (repoPath cfg) url /\
    git_said tr branch_args (repoPath cfg) refs /\
    map fst runs = list_branches (remoteName cfg) refs /\
    Forall (fun run => git_said tr (revlist_args cfg (fst run)) (repoPath cfg)
                         (snd run)) runs /\
    In (hash (Doc.seed doc), Doc.seed doc)
       (walk (repo_name url) (remoteName cfg) runs) /\
    doc = details_of (Doc.seed doc) o.

(** The computation requests no upsert. *)
Definition quiet {A} (m : M A) : Prop :=
  forall tr0 r tr, m tr0 = (r, tr) ->
    exists ext, tr = tr0 ++ ext /\ updates ext = [].

End Reading.

(** ** A sample world

    The remote origin of a repository with one branch and one commit; the
    clock is fixed; [fail_at] tells which event count, if any, the world
    answers with an exception. *)

Fixpoint starts_with (p s : jstring) : bool :=
  match p, s with
  | [], _ => true
  | x :: p', y :: s' => (x =? y) && starts_with p' s'
  | _ :: _, [] => false
  end.

Definition sample_git (args : jstring) : jstring :=
  if starts_with (lit "config --get") args
  then lit "https://example.org/team/repo.git" ++ [LF]
  else if starts_with (lit "branch -r") args
  then lit "  refs/remotes/origin/HEAD" ++ LF :: lit "  refs/remotes/origin/main"
         ++ [LF]
  else if starts_with (lit "rev-list") args then lit "c0ffee" ++ [LF]
  else if starts_with (lit "show --format=''") args
  then lit "3" ++ TAB :: lit "0" ++ TAB :: lit "foo.txt" ++ [LF]
  else if starts_with (lit "show -s --format='%s'") args
  then lit "Merged PR 7: cleanup" ++ [LF]
  else if starts_with (lit "show -s") args then lit "x" ++ [LF]
  else [].

Definition boom : error := lit "Error: boom".

Definition fails_here (fail_at : option nat) (tr : list event) : bool :=
  match fail_at with
  | Some n => Nat.eqb (length tr) n
  | None => false
  end.

Definition sample_env (fail_at : option nat) : environment :=
  {| clock := fun _ => lit "2026-11-02T10:20:30.123Z";
     connect_reply := fun tr _ =>
       if fails_here fail_at tr then Throw boom else Ok tt;
     git_reply := fun tr args _ =>
       if fails_here fail_at tr then Throw boom else Ok (sample_git args);
     update_reply := fun tr _ _ =>
       if fails_here fail_at tr then Throw boom else Ok tt |}.

Definition sample_doc : Doc.t :=
  details_of
    {| repo := lit "repo.git"; remote := lit "origin"; hash := lit "c0ffee";
       branches := [lit "main"] |}
    {| show_ae := lit "x"; show_an := lit "x"; show_ai := lit "x";
       show_ce := lit "x"; show_cn := lit "x"; show_ci := lit "x";
       show_s := lit "Merged PR 7: cleanup"; show_b := lit "x";
       show_numstat := lit "3" ++ TAB :: lit "0" ++ TAB :: lit "foo.txt" |}.

(** ** The shape of a run *)

Definition is_git (ev : event) : bool :=
  match ev with EvGit _ _ => true | _ => false end.

Definition is_tick (ev : event) : bool :=
  match ev with EvTick => true | _ => false end.

Definition count_events (p : event -> bool) (tr : list event) : nat :=
  length (filter p tr).

(** A [show] query run in the repository. *)
Definition show_git (cfg : config) (ev : event) : bool :=
  match ev with
  | EvGit args cwd =>
      JsString.eqb cwd (repoPath cfg) && starts_with (lit "show") args
  | _ => false
  end.

(** What may happen while the history is read: a query other than [show]
    run in the repository, or a line printed. *)
Definition walk_event (cfg : config) (ev : event) : bool :=
  match ev with
  | EvGit args cwd =>
      JsString.eqb cwd (repoPath cfg) && negb (starts_with (lit "show") args)
  | EvLog _ => true
  | _ => false
  end.

(** What may happen while the commits are stored: a [show] query run in the
    repository, an upsert into the database of the run, a tick of the
    progress bar. *)
Definition store_event (cfg : config) (ev : event) : bool :=
  match ev with
  | EvGit _ _ => show_git cfg ev
  | EvUpdateOne db _ => JsString.eqb db (mongoDb cfg)
  | EvTick => true
  | _ => false
  end.

(** The history query of a branch, as an event. *)
Definition revlist_event (cfg : config) (branch : jstring) : event :=
  EvGit (revlist_args cfg branch) (repoPath cfg).

Section Acknowledged.

Variable env : environment.

(** The documents whose upsert the store acknowledged, in order: the
    upserts of [tr] that the world answered without exception.  [pre] is
    what happened before [tr]. *)
Fixpoint acknowledged (pre tr : list event) : list Doc.t :=
  match tr with
  | [] => []
  | ev :: tr' =>
      match ev with
      | EvUpdateOne db doc =>
          match update_reply env pre db doc with
          | Ok _ => [doc]
          | Throw _ => []
          end
      | _ => []
      end ++ acknowledged (pre ++ [ev]) tr'
  end.

(** The computation runs [n] [show] queries and nothing else, fewer when
    one of them fails. *)
Definition shows (cfg : config) (n : nat) {A} (m : M A) : Prop :=
  forall tr0 r tr, m tr0 = (r, tr) ->
    exists gits, tr = tr0 ++ gits /\ forallb (show_git cfg) gits = true /\
                 (length gits <= n)%nat /\
                 (forall a, r = Ok a -> length gits = n).

End Acknowledged.

(** The document of a map entry, given what git printed about it. *)
Definition document_of (eo : (jstring * commit_record) * show_output) : Doc.t :=
  details_of (snd (fst eo)) (snd eo).

(** How a run ends: the connection is closed, "Done!" is printed and the
    process exits with 0; or the error is printed and it exits with 1. *)
Definition ends_well : list event :=
  [EvClose; EvLog (lit "Done!"); EvExit 0].

Definition ends_badly (e : error) : list event :=
  [EvLogError e; EvExit 1].

(** In the trace [run], the history was read from what git printed: [url]
    for the remote, [refs] for its branches, and for each of these the
    output paired with it in [runs]. *)
Definition history_read (env : environment) (cfg : config)
  (run : list event) (url refs : jstring) (runs : list (jstring * jstring))
  : Prop :=
  git_said env run (url_args cfg) (repoPath cfg) url /\
  git_said env run branch_args (repoPath cfg) refs /\
  map fst runs = list_branches (remoteName cfg) refs /\
  Forall (fun run' => git_said env run (revlist_args cfg (fst run'))
                        (repoPath cfg) (snd run')) runs.

(** * Properties *)

(** ** Strings and sorting *)

Lemma eqb_eq (a b : jstring) : JsString.eqb a b = true <-> a = b.
Proof.
  revert b; induction a as [|x a IH]; intros [|y b]; simpl;
    try (split; [discriminate | congruence]); try tauto.
  rewrite andb_true_iff, N.eqb_eq, IH.
  split; [intros [-> ->]; reflexivity | intros E; inversion E; auto].
Qed.

Lemma eqb_refl (a : jstring) : JsString.eqb a a = true.
Proof. apply eqb_eq; reflexivity. Qed.

Lemma eqb_neq (a b : jstring) : JsString.eqb a b = false <-> a <> b.
Proof.
  rewrite <- eqb_eq. destruct (JsString.eqb a b); split; congruence.
Qed.

Lemma eqb_sym (a b : jstring) : JsString.eqb a b = JsString.eqb b a.
Proof.
  destruct (JsString.eqb a b) eqn:E.
  - apply eqb_eq in E; subst; symmetry; apply eqb_refl.
  - symmetry; apply eqb_neq; apply eqb_neq in E; congruence.
Qed.

Lemma leb_lex_le (a b : jstring) : leb a b = true <-> lex_le a b.
Proof.
  revert b; induction a as [|x a IH]; intros b.
  - simpl; split; [constructor | reflexivity].
  - destruct b as [|y b]; simpl.
    + split; [discriminate | intros H; inversion H].
    + rewrite orb_true_iff, andb_true_iff, N.ltb_lt, N.eqb_eq, IH.
      split.
      * intros [L | [-> L]]; [apply lex_le_lt | apply lex_le_eq]; assumption.
      * intros H; inversion H; subst; auto.
Qed.

Lemma lex_le_refl (a : jstring) : lex_le a a.
Proof. induction a; constructor; assumption. Qed.

Lemma lex_le_total (a b : jstring) : lex_le a b \/ lex_le b a.
Proof.
  revert b; induction a as [|x a IH]; intros [|y b];
    try (left; constructor; fail); try (right; constructor; fail).
  destruct (N.lt_trichotomy x y) as [L | [-> | L]].
  - left; apply lex_le_lt; assumption.
  - destruct (IH b); [left | right]; apply lex_le_eq; assumption.
  - right; apply lex_le_lt; assumption.
Qed.

Lemma lex_le_trans (a b c : jstring) : lex_le a b -> lex_le b c -> lex_le a c.
Proof.
  intros H; revert c; induction H; intros c Hc.
  - constructor.
  - inversion Hc; subst; apply lex_le_lt; lia.
  - inversion Hc; subst; [apply lex_le_lt | apply lex_le_eq]; auto.
Qed.

Lemma lex_le_antisym (a b : jstring) : lex_le a b -> lex_le b a -> a = b.
Proof.
  intros H; induction H; intros H'; inversion H'; subst;
    try reflexivity; try lia.
  f_equal; auto.
Qed.

Lemma insert_perm (x : jstring) (l : list jstring) :
  Permutation (x :: l) (insert x l).
Proof.
  induction l as [|y l IH]; simpl; [reflexivity|].
  destruct (leb x y); [reflexivity|].
  rewrite perm_swap; constructor; assumption.
Qed.

Lemma sort_perm (l : list jstring) : Permutation l (sort l).
Proof.
  induction l as [|x l IH]; simpl; [constructor|].
  rewrite <- insert_perm; constructor; assumption.
Qed.

Lemma insert_sorted (x : jstring) (l : list jstring) :
  StronglySorted lex_le l -> StronglySorted lex_le (insert x l).
Proof.
  induction 1 as [|y l Hl IH Hy]; simpl.
  - repeat constructor.
  - destruct (leb x y) eqn:E.
    + apply leb_lex_le in E. constructor; [constructor; assumption|].
      constructor; [assumption|].
      eapply Forall_impl; [|exact Hy]. intros z Hz; eapply lex_le_trans; eauto.
    + assert (Hyx : lex_le y x).
      { destruct (lex_le_total x y) as [L|L]; [|assumption].
        apply leb_lex_le in L; congruence. }
      constructor; [assumption|].
      eapply Permutation_Forall; [apply insert_perm|].
      constructor; assumption.
Qed.

Lemma sort_sorted (l : list jstring) : StronglySorted lex_le (sort l).
Proof.
  induction l; simpl; [constructor | apply insert_sorted; assumption].
Qed.


(** A sorted list is determined by its elements: any sorting algorithm
    returns what [sort] returns. *)
Lemma sorted_perm_unique (l1 l2 : list jstring) :
  StronglySorted lex_le l1 -> StronglySorted lex_le l2 ->
  Permutation l1 l2 -> l1 = l2.
Proof.
  intros H1; revert l2; induction H1 as [|x l1 H1 IH Hx]; intros l2 H2 P.
  - apply Permutation_nil in P; subst; reflexivity.
  - destruct H2 as [|y l2 H2 Hy].
    + symmetry in P; apply Permutation_nil in P; discriminate.
    + assert (x = y).
      { assert (Ix : In x (y :: l2)) by (eapply Permutation_in; [exact P | left; reflexivity]).
        assert (Iy : In y (x :: l1)) by (eapply Permutation_in; [symmetry; exact P | left; reflexivity]).
        destruct Ix as [->|Ix]; [reflexivity|].
        destruct Iy as [->|Iy]; [reflexivity|].
        rewrite Forall_forall in Hx, Hy.
        apply lex_le_antisym; auto. }
      subst y. f_equal. apply IH; [assumption|].
      eapply Permutation_cons_inv; exact P.
Qed.

(** ** Branch Lister *)



Lemma map_trim_stable (l : list jstring) :
  Forall (fun x => trim x = x) l -> map trim l = l.
Proof.
  induction 1 as [|x l Hx _ IH]; simpl; [reflexivity|]. rewrite Hx, IH.
  reflexivity.
Qed.


(** ** Regular expressions: the matcher decides the language *)

Lemma Lang_Cat_inv (r1 r2 : regex) (s : jstring) :
  Lang (Cat r1 r2) s <-> exists s1 s2, s = s1 ++ s2 /\ Lang r1 s1 /\ Lang r2 s2.
Proof.
  split.
  - intros H; inversion H; subst; eauto.
  - intros (s1 & s2 & -> & H1 & H2); constructor; assumption.
Qed.

Lemma Lang_Alt_inv (r1 r2 : regex) (s : jstring) :
  Lang (Alt r1 r2) s <-> Lang r1 s \/ Lang r2 s.
Proof.
  split.
  - intros H; inversion H; subst; auto.
  - intros [H|H]; [apply LAltL | apply LAltR]; assumption.
Qed.

Lemma Lang_Eps_inv (s : jstring) : Lang Eps s <-> s = [].
Proof.
  split; [intros H; inversion H; reflexivity | intros ->; constructor].
Qed.

Lemma Lang_Void_inv (s : jstring) : Lang Void s <-> False.
Proof. split; [intros H; inversion H | tauto]. Qed.

Lemma Lang_Class_inv (p : N -> bool) (s : jstring) :
  Lang (Class p) s <-> exists c, s = [c] /\ p c = true.
Proof.
  split.
  - intros H; inversion H; subst; eauto.
  - intros (c & -> & H); constructor; assumption.
Qed.

(** A non-empty word of a repetition starts with a non-empty word of the
    repeated pattern. *)
Lemma Lang_Star_cons (r : regex) (c : N) (s : jstring) :
  Lang (Star r) (c :: s) ->
  exists s1 s2, s = s1 ++ s2 /\ Lang r (c :: s1) /\ Lang (Star r) s2.
Proof.
  intros H. remember (Star r) as r' eqn:Er. remember (c :: s) as w eqn:Ew.
  induction H as [| | | | | |r0 s1 s2 H1 _ H2 IH2]; try discriminate.
  inversion Er; subst r0. destruct s1 as [|x s1].
  - simpl in Ew. apply IH2; auto.
  - simpl in Ew. inversion Ew; subst. eauto.
Qed.

Lemma nullable_Lang (r : regex) : nullable r = true <-> Lang r [].
Proof.
  induction r as [| |p|r1 IH1 r2 IH2|r1 IH1 r2 IH2|r IH]; simpl.
  - rewrite Lang_Void_inv; split; [discriminate | tauto].
  - split; [constructor | reflexivity].
  - rewrite Lang_Class_inv; split; [discriminate|].
    intros (c & E & _); discriminate.
  - rewrite andb_true_iff, IH1, IH2, Lang_Cat_inv. split.
    + intros [H1 H2]; exists [], []; auto.
    + intros (s1 & s2 & E & H1 & H2). symmetry in E.
      apply app_eq_nil in E. destruct E; subst; auto.
  - rewrite orb_true_iff, IH1, IH2, Lang_Alt_inv; tauto.
  - split; [constructor | reflexivity].
Qed.

Lemma deriv_Lang (r : regex) (c : N) (s : jstring) :
  Lang (deriv c r) s <-> Lang r (c :: s).
Proof.
  revert s; induction r as [| |p|r1 IH1 r2 IH2|r1 IH1 r2 IH2|r IH];
    intros s; simpl.
  - rewrite !Lang_Void_inv; tauto.
  - rewrite Lang_Void_inv, Lang_Eps_inv; split; [tauto | discriminate].
  - rewrite Lang_Class_inv. destruct (p c) eqn:E.
    + rewrite Lang_Eps_inv. split.
      * intros ->; eauto.
      * intros (x & Ex & _); inversion Ex; reflexivity.
    + rewrite Lang_Void_inv. split; [tauto|].
      intros (x & Ex & Hx); inversion Ex; subst; congruence.
  - assert (Hcat : Lang (Cat (deriv c r1) r2) s \/
                   (Lang r1 [] /\ Lang r2 (c :: s)) <->
                   Lang (Cat r1 r2) (c :: s)).
    { rewrite !Lang_Cat_inv. split.
      - intros [(s1 & s2 & -> & H1 & H2) | [H1 H2]].
        + exists (c :: s1), s2; rewrite <- IH1; auto.
        + exists [], (c :: s); auto.
      - intros (s1 & s2 & E & H1 & H2). destruct s1 as [|x s1].
        + simpl in E; subst; auto.
        + inversion E; subst. left; exists s1, s2; rewrite IH1; auto. }
    destruct (nullable r1) eqn:En.
    + rewrite Lang_Alt_inv, IH2, <- Hcat, <- nullable_Lang, En; tauto.
    + rewrite <- Hcat, <- nullable_Lang, En. intuition congruence.
  - rewrite !Lang_Alt_inv, IH1, IH2; tauto.
  - rewrite Lang_Cat_inv. split.
    + intros (s1 & s2 & -> & H1 & H2). apply IH in H1.
      change (c :: s1 ++ s2) with ((c :: s1) ++ s2). constructor; assumption.
    + intros H. apply Lang_Star_cons in H.
      destruct H as (s1 & s2 & -> & H1 & H2).
      exists s1, s2; rewrite IH; auto.
Qed.


Lemma match_here_Lang (r : regex) (s : jstring) :
  match_here r s = true <-> exists p q, s = p ++ q /\ Lang r p.
Proof.
  revert r; induction s as [|c s IH]; intros r; simpl.
  - rewrite orb_false_r, nullable_Lang. split.
    + intros H; exists [], []; auto.
    + intros (p & q & E & H). symmetry in E; apply app_eq_nil in E.
      destruct E; subst; assumption.
  - rewrite orb_true_iff, nullable_Lang, IH. split.
    + intros [H | (p & q & -> & H)].
      * exists [], (c :: s); auto.
      * exists (c :: p), q; rewrite <- deriv_Lang; auto.
    + intros (p & q & E & H). destruct p as [|x p].
      * left; assumption.
      * inversion E; subst. right; exists p, q; rewrite deriv_Lang; auto.
Qed.

Lemma test_anywhere_Lang (r : regex) (s : jstring) :
  test_anywhere r s = true <-> exists a m b, s = a ++ m ++ b /\ Lang r m.
Proof.
  induction s as [|c s IH]; cbn [test_anywhere].
  - rewrite orb_false_r, match_here_Lang. split.
    + intros (p & q & E & H); exists [], p, q; auto.
    + intros (a & m & b & E & H). destruct a; [|discriminate].
      exists m, b; auto.
  - rewrite orb_true_iff, match_here_Lang, IH. split.
    + intros [(p & q & E & H) | (a & m & b & -> & H)].
      * exists [], p, q; auto.
      * exists (c :: a), m, b; auto.
    + intros (a & m & b & E & H). destruct a as [|x a].
      * left; exists m, b; auto.
      * inversion E; subst. right; exists a, m, b; auto.
Qed.

Lemma search_bol_Lang (r : regex) (bol : bool) (s : jstring) :
  search_bol r bol s = true <->
  (bol = true /\ match_here r s = true) \/
  (exists pre c rest, s = pre ++ c :: rest /\ is_line_terminator c = true /\
                      match_here r rest = true).
Proof.
  revert bol; induction s as [|c s IH]; intros bol; cbn [search_bol].
  - rewrite orb_false_r, andb_true_iff. split; [tauto|].
    intros [H | (pre & x & rest & E & _)]; [assumption|].
    destruct pre; discriminate.
  - rewrite orb_true_iff, andb_true_iff, IH. split.
    + intros [H | [[H1 H2] | (pre & x & rest & -> & H1 & H2)]].
      * left; assumption.
      * right; exists [], c, s; auto.
      * right; exists (c :: pre), x, rest; auto.
    + intros [H | (pre & x & rest & E & H1 & H2)]; [left; assumption|].
      right. destruct pre as [|y pre]; inversion E; subst.
      * left; auto.
      * right; exists pre, x, rest; auto.
Qed.

(** ** Classifier *)

Lemma Lang_Star_Class (p : N -> bool) (s : jstring) :
  Lang (Star (Class p)) s <-> forallb p s = true.
Proof.
  split.
  - intros H. remember (Star (Class p)) as r eqn:Er.
    induction H as [| | | | | |r0 s1 s2 H1 _ H2 IH2]; try discriminate.
    + reflexivity.
    + inversion Er; subst r0. apply Lang_Class_inv in H1.
      destruct H1 as (c & -> & Hc). simpl. rewrite Hc. auto.
  - induction s as [|c s IH]; simpl; [constructor|].
    rewrite andb_true_iff. intros [Hc Hs].
    change (c :: s) with ([c] ++ s). constructor; [constructor|]; auto.
Qed.

Lemma Lang_Plus_Class (p : N -> bool) (s : jstring) :
  Lang (Plus (Class p)) s <-> s <> [] /\ forallb p s = true.
Proof.
  unfold Plus. rewrite Lang_Cat_inv. split.
  - intros (s1 & s2 & -> & H1 & H2). apply Lang_Class_inv in H1.
    destruct H1 as (c & -> & Hc). apply Lang_Star_Class in H2.
    simpl. rewrite Hc, H2. split; [discriminate | reflexivity].
  - intros [Hne Hs]. destruct s as [|c s]; [congruence|].
    simpl in Hs. apply andb_true_iff in Hs. destruct Hs as [Hc Hs].
    exists [c], s. rewrite Lang_Class_inv, Lang_Star_Class. eauto.
Qed.

Lemma Lang_ci_word (w s : jstring) : Lang (ci_word w) s <-> ci_eqb w s = true.
Proof.
  revert s; induction w as [|c w IH]; intros s; simpl.
  - rewrite Lang_Eps_inv. destruct s; split; congruence.
  - unfold ci_chr. rewrite Lang_Cat_inv. split.
    + intros (s1 & s2 & -> & H1 & H2). apply Lang_Class_inv in H1.
      destruct H1 as (x & -> & Hx). simpl. rewrite Hx. apply IH; assumption.
    + destruct s as [|x s]; [discriminate|]. rewrite andb_true_iff.
      intros [Hx Hs]. exists [x], s. rewrite Lang_Class_inv, IH. eauto.
Qed.

Lemma Lang_chr (c : N) (s : jstring) : Lang (chr c) s <-> s = [c].
Proof.
  unfold chr. rewrite Lang_Class_inv. split.
  - intros (x & -> & Hx). apply N.eqb_eq in Hx. subst; reflexivity.
  - intros ->. exists c. rewrite N.eqb_refl. auto.
Qed.

Lemma Lang_merged_token (s : jstring) :
  Lang (Cat (ci_word (lit "Merged")) (Plus space)) s <-> merged_token s.
Proof.
  unfold merged_token, all_space, space. rewrite Lang_Cat_inv.
  split; intros (m & sp & E & H1 & H2); exists m, sp.
  - rewrite Lang_ci_word in H1. rewrite Lang_Plus_Class in H2. tauto.
  - rewrite Lang_ci_word, Lang_Plus_Class. tauto.
Qed.

Lemma Lang_pr_number_colon (s : jstring) :
  Lang (Cat (ci_word (lit "PR"))
          (Cat (Plus space) (Cat (Plus digit) (chr 58)))) s
  <-> pr_number_colon s.
Proof.
  unfold pr_number_colon, all_space, all_digits, space, digit.
  rewrite Lang_Cat_inv. split.
  - intros (pr & t & -> & H1 & H2). apply Lang_Cat_inv in H2.
    destruct H2 as (sp & t' & -> & H2 & H3). apply Lang_Cat_inv in H3.
    destruct H3 as (ds & col & -> & H3 & H4).
    apply Lang_chr in H4. subst col.
    apply Lang_ci_word in H1. apply Lang_Plus_Class in H2.
    apply Lang_Plus_Class in H3. exists pr, sp, ds. tauto.
  - intros (pr & sp & ds & -> & H1 & H2 & H3 & H4 & H5).
    exists pr, (sp ++ ds ++ [58]). split; [reflexivity|].
    split; [apply Lang_ci_word; assumption|].
    constructor; [apply Lang_Plus_Class; auto|].
    constructor; [apply Lang_Plus_Class; auto | apply Lang_chr; reflexivity].
Qed.

Lemma Lang_re_PR (p : jstring) : Lang re_PR p <-> pr_head p.
Proof.
  unfold re_PR, pr_head, Opt. rewrite Lang_Cat_inv. split.
  - intros (ws & t & -> & H1 & H2). apply Lang_Cat_inv in H2.
    destruct H2 as (merged & tail & -> & H2 & H3).
    exists ws, merged, tail. split; [reflexivity|].
    split; [apply Lang_Star_Class; exact H1|].
    split; [|apply Lang_pr_number_colon; exact H3].
    apply Lang_Alt_inv in H2. destruct H2 as [H2|H2].
    + right; apply Lang_merged_token; exact H2.
    + left; apply Lang_Eps_inv; exact H2.
  - intros (ws & merged & tail & -> & H1 & H2 & H3).
    exists ws, (merged ++ tail). split; [reflexivity|].
    split; [apply Lang_Star_Class; exact H1|].
    constructor; [|apply Lang_pr_number_colon; exact H3].
    apply Lang_Alt_inv. destruct H2 as [->|H2].
    + right; constructor.
    + left; apply Lang_merged_token; exact H2.
Qed.

Lemma match_here_re_PR (s : jstring) :
  match_here re_PR s = true <-> begins_with_pr s.
Proof.
  rewrite match_here_Lang. unfold begins_with_pr.
  split; intros (p & q & E & H); exists p, q; split; auto; apply Lang_re_PR; auto.
Qed.

Lemma isPR_lines (s : jstring) : isPR s = true <-> some_line_begins_with_pr s.
Proof.
  unfold isPR, test_bol_multiline, some_line_begins_with_pr, line_start.
  rewrite search_bol_Lang. split.
  - intros [[_ H] | (pre & c & rest & -> & Hc & H)].
    + exists [], s. rewrite <- match_here_re_PR. auto.
    + exists (pre ++ [c]), rest. rewrite <- app_assoc. simpl.
      rewrite <- match_here_re_PR. split; [reflexivity|]. split; [|assumption].
      right; exists pre, c; auto.
  - intros (pre & rest & -> & [-> | (pre' & c & -> & Hc)] & H);
      apply match_here_re_PR in H.
    + left; auto.
    + right; exists pre', c, rest. rewrite <- app_assoc. auto.
Qed.

Lemma ci_eqb_Merge (m : jstring) :
  ci_eqb (lit "Merge") m = ci_eqb (lit "merge") m.
Proof. destruct m; reflexivity. Qed.

Lemma isMerge_contains (s : jstring) :
  isMerge s = true <-> isPR s = false /\ contains_merge s.
Proof.
  unfold isMerge, contains_merge, re_Merge.
  rewrite andb_true_iff, negb_true_iff, test_anywhere_Lang.
  split; intros [H (a & m & b & E & Hm)]; (split; [assumption|]);
    exists a, m, b; split; auto.
  - rewrite <- ci_eqb_Merge. apply Lang_ci_word; assumption.
  - apply Lang_ci_word. rewrite ci_eqb_Merge; assumption.
Qed.

(** On a subject without line terminator only index 0 starts a line. *)
Lemma search_bol_one_line (r : regex) (s : jstring) :
  forallb (fun c => negb (is_line_terminator c)) s = true ->
  search_bol r false s = false.
Proof.
  induction s as [|c s IH]; simpl; [reflexivity|].
  rewrite andb_true_iff, negb_true_iff. intros [Hc Hs].
  rewrite Hc. apply IH; assumption.
Qed.

Lemma isPR_one_line (s : jstring) :
  forallb (fun c => negb (is_line_terminator c)) s = true ->
  (isPR s = true <-> begins_with_pr s).
Proof.
  intros H. rewrite <- match_here_re_PR.
  unfold isPR, test_bol_multiline.
  destruct s as [|c s]; cbn [search_bol]; [rewrite orb_false_r; tauto|].
  simpl in H. apply andb_true_iff in H. destruct H as [Hc Hs].
  apply negb_true_iff in Hc. rewrite Hc.
  rewrite (search_bol_one_line _ _ Hs), orb_false_r. tauto.
Qed.

(** C3, as stated, fails: flag [m] lets the anchor hold after a line
    terminator.  A subject in which a bare carriage return is followed by a
    pull-request head is flagged, although the subject does not begin with
    one. *)
Lemma isPR_second_line_counterexample :
  isPR (lit "x" ++ CR :: lit "PR 1: y") = true /\
  ~ begins_with_pr (lit "x" ++ CR :: lit "PR 1: y").
Proof.
  split; [reflexivity|].
  rewrite <- match_here_re_PR. discriminate.
Qed.

(** C3, amended.  isPR holds exactly when some line of the subject (the
    subject itself, or what follows a line terminator) begins, after
    optional white space, with an optional case-insensitive "Merged " token
    followed by "PR <number>:"; on a subject without line terminator that is
    exactly when the subject begins so.  isMerge holds exactly when isPR
    does not and the subject contains "merge" in any case.  The two flags
    are never both set, and the four example subjects classify as listed. *)
Theorem classifier_flags :
  (forall s, isPR s = true <-> some_line_begins_with_pr s) /\
  (forall s, forallb (fun c => negb (is_line_terminator c)) s = true ->
             (isPR s = true <-> begins_with_pr s)) /\
  (forall s, isMerge s = true <-> isPR s = false /\ contains_merge s) /\
  (forall s, ~ (isPR s = true /\ isMerge s = true)) /\
  (isPR (lit "PR 42: fix bug") = true /\
   isMerge (lit "PR 42: fix bug") = false) /\
  (isPR (lit "Merged PR 7: cleanup") = true /\
   isMerge (lit "Merged PR 7: cleanup") = false) /\
  (isPR (lit "Merge branch 'dev'") = false /\
   isMerge (lit "Merge branch 'dev'") = true) /\
  (isPR (lit "Add feature X") = false /\
   isMerge (lit "Add feature X") = false).
Proof.
  split; [exact isPR_lines|].
  split; [exact isPR_one_line|].
  split; [exact isMerge_contains|].
  split.
  - intros s [H1 H2]. apply isMerge_contains in H2. destruct H2; congruence.
  - repeat split; reflexivity.
Qed.

(** ** Diff statistics *)

Lemma number_of_small (n : N) : n <= 2 ^ 53 -> number_of n = Finite n.
Proof.
  intros H. apply N.lt_eq_cases in H. destruct H as [H | ->]; [|reflexivity].
  assert (E : N.log2 n - 52 = 0).
  { destruct (N.eq_dec n 0) as [->|Hn]; [reflexivity|].
    assert (N.log2 n < 53) by (apply N.log2_lt_pow2; lia). lia. }
  unfold number_of. rewrite E. cbn [N.ltb N.compare andb].
  rewrite N.shiftr_0_r, N.shiftl_0_r.
  destruct (2 ^ 1024 <=? n) eqn:L; [|reflexivity].
  apply N.leb_le in L.
  assert (2 ^ 53 < 2 ^ 1024) by (apply N.pow_lt_mono_r; lia). lia.
Qed.










Lemma fold_left_js_add (f : file_stat -> option js_number)
  (file : list file_stat) (a : js_number) :
  fold_left (fun i e => js_add i (or_zero (f e))) file a
  = fold_left js_add (map (fun e => or_zero (f e)) file) a.
Proof.
  revert a; induction file as [|e file IH]; intros a; simpl; auto.
Qed.

(** While the exact sum stays within [2^53], every partial sum is exact. *)
Lemma fold_left_exact (f : file_stat -> option js_number)
  (file : list file_stat) (a S : N) :
  exact_total f file = Some S -> a + S <= 2 ^ 53 ->
  fold_left (fun i e => js_add i (or_zero (f e))) file (Finite a)
  = Finite (a + S).
Proof.
  revert a S; induction file as [|e file IH]; intros a S E B.
  - simpl in E. inversion E; subst. simpl. f_equal. lia.
  - cbn [exact_total] in E. cbn [fold_left].
    destruct (or_zero (f e)) as [n|]; [|discriminate].
    destruct (exact_total f file) as [t|] eqn:Et; [|discriminate].
    inversion E; subst S. cbn [js_add].
    rewrite number_of_small by lia.
    rewrite (IH (a + n) t) by (auto; lia). f_equal. lia.
Qed.

Lemma sum_totals_exact (file : list file_stat) :
  (forall S, exact_total insertions file = Some S -> S <= 2 ^ 53 ->
             total_insertions (sum_totals file) = Finite S) /\
  (forall S, exact_total deletions file = Some S -> S <= 2 ^ 53 ->
             total_deletions (sum_totals file) = Finite S).
Proof.
  unfold sum_totals; cbn [total_insertions total_deletions].
  split; intros S E B; rewrite (fold_left_exact _ _ 0 E) by lia; reflexivity.
Qed.

Lemma exact_total_app (f : file_stat -> option js_number)
  (f1 f2 : list file_stat) (S : N) :
  exact_total f (f1 ++ f2) = Some S <->
  exists S1 S2, exact_total f f1 = Some S1 /\ exact_total f f2 = Some S2 /\
                S = S1 + S2.
Proof.
  revert S; induction f1 as [|e f1 IH]; intros S.
  - simpl. split.
    + intros H. exists 0, S. auto.
    + intros (S1 & S2 & E1 & E2 & ->). inversion E1; subst. rewrite E2.
      reflexivity.
  - cbn [app exact_total]. destruct (or_zero (f e)) as [n|].
    + destruct (exact_total f (f1 ++ f2)) as [t|] eqn:Et.
      * destruct (proj1 (IH t) eq_refl) as (S1 & S2 & E1 & E2 & ->).
        rewrite E1. split.
        -- intros H; inversion H; subst. exists (n + S1), S2.
           split; [reflexivity|]. split; [assumption | lia].
        -- intros (T1 & T2 & H1 & H2 & ->). inversion H1; subst.
           assert (T2 = S2) by congruence. subst. f_equal. lia.
      * split; [discriminate|]. intros (T1 & T2 & H1 & H2 & ->).
        destruct (exact_total f f1) as [t1|] eqn:E1; [|discriminate].
        assert (X : None = Some (t1 + T2)) by (apply IH; eauto).
        discriminate X.
    + split; [discriminate|]. intros (T1 & T2 & H1 & _). discriminate.
Qed.




(** ** History Walker *)

Lemma map_has_get (k : jstring) (m : commit_map) :
  map_has k m = match map_get k m with Some _ => true | None => false end.
Proof.
  induction m as [|[k' v] m IH]; simpl; [reflexivity|].
  destruct (JsString.eqb k k'); simpl; auto.
Qed.

Lemma map_get_set_new (k h : jstring) (v : commit_record) (m : commit_map) :
  map_get k m = None ->
  map_get h (map_set k v m) = if JsString.eqb h k then Some v else map_get h m.
Proof.
  induction m as [|[k' v'] m IH]; simpl; [reflexivity|].
  destruct (JsString.eqb k k') eqn:E; [discriminate|]. intros Hk. simpl.
  destruct (JsString.eqb h k') eqn:E'; [|apply IH; assumption].
  destruct (JsString.eqb h k) eqn:E''; [|reflexivity].
  apply eqb_eq in E', E''. subst. rewrite eqb_refl in E. discriminate.
Qed.

Lemma map_get_push (k h b : jstring) (m : commit_map) :
  map_get h (map_push_branch k b m)
  = if JsString.eqb h k
    then option_map (fun v => {| repo := repo v; remote := remote v;
                                 hash := hash v; branches := branches v ++ [b] |})
           (map_get k m)
    else map_get h m.
Proof.
  induction m as [|[k' v] m IH]; simpl; [destruct (JsString.eqb h k); reflexivity|].
  destruct (JsString.eqb k k') eqn:E; simpl.
  - apply eqb_eq in E. subst k'. destruct (JsString.eqb h k); reflexivity.
  - destruct (JsString.eqb h k') eqn:E'; [|apply IH].
    destruct (JsString.eqb h k) eqn:E''; [|reflexivity].
    apply eqb_eq in E', E''. subst. rewrite eqb_refl in E. discriminate.
Qed.

Lemma map_keys_push (k b : jstring) (m : commit_map) :
  map fst (map_push_branch k b m) = map fst m.
Proof.
  induction m as [|[k' v] m IH]; simpl; [reflexivity|].
  destruct (JsString.eqb k k'); simpl; congruence.
Qed.

Lemma map_keys_set_new (k : jstring) (v : commit_record) (m : commit_map) :
  map_get k m = None -> map fst (map_set k v m) = map fst m ++ [k].
Proof.
  induction m as [|[k' v'] m IH]; simpl; [reflexivity|].
  destruct (JsString.eqb k k'); [discriminate|]. intros H. simpl.
  rewrite IH; auto.
Qed.

Lemma map_get_In (k : jstring) (v : commit_record) (m : commit_map) :
  map_get k m = Some v -> In (k, v) m.
Proof.
  induction m as [|[k' v'] m IH]; simpl; [discriminate|].
  destruct (JsString.eqb k k') eqn:E.
  - apply eqb_eq in E. intros H; inversion H; subst. left; reflexivity.
  - intros H; right; auto.
Qed.

Lemma map_get_None (k : jstring) (m : commit_map) :
  map_get k m = None -> ~ In k (map fst m).
Proof.
  induction m as [|[k' v'] m IH]; simpl; [tauto|].
  destruct (JsString.eqb k k') eqn:E; [discriminate|].
  apply eqb_neq in E. intros H [H'|H']; [congruence | apply IH; assumption].
Qed.

Lemma In_map_get (k : jstring) (v : commit_record) (m : commit_map) :
  NoDup (map fst m) -> In (k, v) m -> map_get k m = Some v.
Proof.
  induction m as [|[k' v'] m IH]; simpl; [tauto|].
  intros ND [H|H].
  - inversion H; subst. rewrite eqb_refl. reflexivity.
  - inversion ND; subst. destruct (JsString.eqb k k') eqn:E; [|auto].
    apply eqb_eq in E. subst k'. exfalso. apply H2.
    change k with (fst (k, v)). apply in_map; assumption.
Qed.

(** With distinct keys, a key that is found heads the only entry for it. *)
Lemma map_get_only_entry (k : jstring) (v : commit_record) (m : commit_map) :
  NoDup (map fst m) -> map_get k m = Some v ->
  filter (fun e => JsString.eqb (fst e) k) m = [(k, v)].
Proof.
  induction m as [|[k' v'] m IH]; simpl; [discriminate|].
  intros ND H. inversion ND; subst. rewrite (eqb_sym k' k).
  destruct (JsString.eqb k k') eqn:E.
  - apply eqb_eq in E. subst k'. inversion H; subst. f_equal.
    clear - H2. induction m as [|[k2 v2] m IH]; simpl; [reflexivity|].
    simpl in H2. destruct (JsString.eqb k2 k) eqn:E.
    + apply eqb_eq in E. subst. tauto.
    + apply IH. tauto.
  - apply IH; assumption.
Qed.

Lemma occurrences_cons (h c : jstring) (l : list jstring) :
  occurrences h (c :: l)
  = ((if JsString.eqb h c then 1 else 0) + occurrences h l)%nat.
Proof.
  unfold occurrences. simpl. destruct (JsString.eqb h c); reflexivity.
Qed.

Lemma occurrences_pos (h : jstring) (l : list jstring) :
  (0 < occurrences h l)%nat <-> In h l.
Proof.
  induction l as [|c l IH]; [simpl; split; [unfold occurrences; simpl; lia | tauto]|].
  rewrite occurrences_cons. simpl. destruct (JsString.eqb h c) eqn:E.
  - apply eqb_eq in E. subst. split; [auto | lia].
  - apply eqb_neq in E. rewrite <- IH. split; [intros; right; lia|].
    intros [H|H]; [congruence | lia].
Qed.

Lemma occurrences_NoDup (h : jstring) (l : list jstring) :
  NoDup l -> (occurrences h l <= 1)%nat.
Proof.
  induction 1 as [|c l Hc ND IH]; [unfold occurrences; simpl; lia|].
  rewrite occurrences_cons. destruct (JsString.eqb h c) eqn:E; [|lia].
  apply eqb_eq in E. subst c.
  destruct (occurrences h l) eqn:Eo; [lia|].
  exfalso. apply Hc. apply occurrences_pos. lia.
Qed.

Section WalkProofs.

Variables repoName remoteName : jstring.

Lemma visit_represents (B : jstring -> list jstring) (m : commit_map)
  (b c : jstring) :
  represents repoName remoteName B m ->
  represents repoName remoteName
    (fun h => B h ++ repeat b (if JsString.eqb h c then 1 else 0)%nat)
    (visit repoName remoteName b m c).
Proof.
  intros R h. unfold visit. rewrite map_has_get.
  destruct (map_get c m) as [v|] eqn:Ec.
  - rewrite map_get_push. destruct (JsString.eqb h c) eqn:E.
    + apply eqb_eq in E. subst h. rewrite Ec. rewrite R in Ec.
      destruct (B c) as [|x bs]; [discriminate|]. simpl in Ec.
      inversion Ec; subst. reflexivity.
    + simpl. rewrite app_nil_r. apply R.
  - rewrite (map_get_set_new _ h _ _ Ec). destruct (JsString.eqb h c) eqn:E.
    + apply eqb_eq in E. subst h. rewrite R in Ec.
      destruct (B c) as [|x bs]; [reflexivity | discriminate].
    + simpl. rewrite app_nil_r. apply R.
Qed.

Lemma represents_ext (B B' : jstring -> list jstring) (m : commit_map) :
  (forall h, B h = B' h) ->
  represents repoName remoteName B m -> represents repoName remoteName B' m.
Proof. intros E R h. rewrite <- E. apply R. Qed.

Lemma visits_represent (b : jstring) (hashes : list jstring) :
  forall (B : jstring -> list jstring) (m : commit_map),
  represents repoName remoteName B m ->
  represents repoName remoteName (fun h => B h ++ repeat b (occurrences h hashes))
    (fold_left (visit repoName remoteName b) hashes m).
Proof.
  induction hashes as [|c hashes IH]; intros B m R.
  - simpl. eapply represents_ext; [|exact R]. intros h.
    unfold occurrences; simpl. rewrite app_nil_r. reflexivity.
  - simpl. eapply represents_ext; [|apply IH, visit_represents, R].
    intros h. simpl. rewrite occurrences_cons, repeat_app, app_assoc.
    reflexivity.
Qed.

Lemma walk_from_represents (runs : list (jstring * jstring)) :
  forall (B : jstring -> list jstring) (m : commit_map),
  represents repoName remoteName B m ->
  represents repoName remoteName (fun h => B h ++ branches_of h runs)
    (fold_left (fun m run => walk_branch repoName remoteName m (fst run) (snd run))
       runs m).
Proof.
  induction runs as [|[b out] runs IH]; intros B m R.
  - simpl. eapply represents_ext; [|exact R]. intros h.
    rewrite app_nil_r. reflexivity.
  - simpl. eapply represents_ext; [|apply IH, visits_represent, R].
    intros h. simpl. rewrite app_assoc. reflexivity.
Qed.

(** What the walk holds for a hash: nothing when no output lists it, else
    the record of the branches appended for it, in order. *)
Lemma walk_get (runs : list (jstring * jstring)) (h : jstring) :
  map_get h (walk repoName remoteName runs)
  = record_for repoName remoteName h (branches_of h runs).
Proof.
  unfold walk.
  apply (@walk_from_represents runs (fun _ => []) []). intros h'; reflexivity.
Qed.

Lemma visit_keys_NoDup (b c : jstring) (m : commit_map) :
  NoDup (map fst m) -> NoDup (map fst (visit repoName remoteName b m c)).
Proof.
  intros ND. unfold visit. rewrite map_has_get.
  destruct (map_get c m) eqn:E.
  - rewrite map_keys_push. assumption.
  - rewrite map_keys_set_new by exact E. apply NoDup_app; [assumption| |].
    + repeat constructor; simpl; tauto.
    + intros x Hx [<-|[]]. eapply map_get_None; eauto.
Qed.

Lemma walk_keys_NoDup (runs : list (jstring * jstring)) :
  NoDup (map fst (walk repoName remoteName runs)).
Proof.
  unfold walk.
  assert (G : forall m, NoDup (map fst m) ->
    NoDup (map fst (fold_left
      (fun m run => walk_branch repoName remoteName m (fst run) (snd run))
      runs m))).
  { induction runs as [|[b out] runs IH]; intros m ND; simpl; [assumption|].
    apply IH. unfold walk_branch. generalize (rev_hashes out) as hs.
    intros hs; revert m ND; induction hs as [|c hs IHh]; intros m ND; simpl;
      [assumption|]. apply IHh, visit_keys_NoDup, ND. }
  apply G. constructor.
Qed.

(** The entries of the walk, one by one. *)
Lemma walk_In (runs : list (jstring * jstring)) (k : jstring)
  (r : commit_record) :
  In (k, r) (walk repoName remoteName runs) <->
  branches_of k runs <> [] /\
  r = {| repo := repoName; remote := remoteName; hash := k;
         branches := branches_of k runs |}.
Proof.
  split.
  - intros H. apply In_map_get in H; [|apply walk_keys_NoDup].
    rewrite walk_get in H. destruct (branches_of k runs) as [|x bs] eqn:E;
      [discriminate|]. simpl in H. inversion H. split; [discriminate | reflexivity].
  - intros [Hne ->]. apply map_get_In. rewrite walk_get.
    destruct (branches_of k runs); [congruence | reflexivity].
Qed.

End WalkProofs.

Lemma In_repeat (b x : jstring) (n : nat) :
  In x (repeat b n) <-> x = b /\ (0 < n)%nat.
Proof.
  induction n as [|n IH]; simpl; [split; [tauto | lia]|].
  rewrite IH. split; [intros [->|[-> _]]; split; auto; lia | intros [-> _]; auto].
Qed.

Lemma branches_of_In (h b : jstring) (runs : list (jstring * jstring)) :
  In b (branches_of h runs) <->
  exists out, In (b, out) runs /\ In h (rev_hashes out).
Proof.
  unfold branches_of. rewrite in_flat_map. split.
  - intros ([b' out] & I & H). simpl in H. apply In_repeat in H.
    destruct H as [-> H]. apply occurrences_pos in H. eauto.
  - intros (out & I & H). exists (b, out). split; [assumption|].
    simpl. apply In_repeat. split; [reflexivity | apply occurrences_pos; assumption].
Qed.

Lemma branches_of_perm (h : jstring) (runs runs' : list (jstring * jstring)) :
  Permutation runs runs' ->
  Permutation (branches_of h runs) (branches_of h runs').
Proof. intros P. unfold branches_of. apply Permutation_flat_map, P. Qed.

(** The one entry of a hash that some output lists. *)
Lemma walk_only_entry (repoName remoteName : jstring)
  (runs : list (jstring * jstring)) (h : jstring) :
  branches_of h runs <> [] ->
  filter (fun e => JsString.eqb (fst e) h) (walk repoName remoteName runs)
  = [(h, {| repo := repoName; remote := remoteName; hash := h;
            branches := branches_of h runs |})].
Proof.
  intros H. apply map_get_only_entry; [apply walk_keys_NoDup|].
  rewrite walk_get. destruct (branches_of h runs); [congruence | reflexivity].
Qed.

Example walk_two_branches :
  walk (lit "repo.git") (lit "origin")
    [(lit "dev", lit "c0ffee" ++ LF :: lit "beef"); (lit "main", lit "c0ffee")]
  = [(lit "c0ffee",
      {| repo := lit "repo.git"; remote := lit "origin"; hash := lit "c0ffee";
         branches := [lit "dev"; lit "main"] |});
     (lit "beef",
      {| repo := lit "repo.git"; remote := lit "origin"; hash := lit "beef";
         branches := [lit "dev"] |})].
Proof. reflexivity. Qed.

(** C1.  When the outputs for branches B1 and B2 both list commit C, the
    commit map after the walk has exactly one entry for C, its branch list
    contains B1 and B2, and walking the branches in any other order gives
    one entry for C with the same branches, up to their order. *)
Theorem shared_commit_one_record
  (repoName remoteName : jstring) (runs : list (jstring * jstring))
  (B1 out1 B2 out2 C : jstring) :
  In (B1, out1) runs -> In (B2, out2) runs ->
  In C (rev_hashes out1) -> In C (rev_hashes out2) ->
  exists r,
    filter (fun e => JsString.eqb (fst e) C) (walk repoName remoteName runs)
      = [(C, r)] /\
    In B1 (branches r) /\ In B2 (branches r) /\
    forall runs', Permutation runs runs' ->
      exists r',
        filter (fun e => JsString.eqb (fst e) C)
          (walk repoName remoteName runs') = [(C, r')] /\
        (forall b, In b (branches r) <-> In b (branches r')) /\
        Permutation (branches r) (branches r').
Proof.
  intros I1 I2 H1 H2.
  assert (M1 : In B1 (branches_of C runs)) by (apply branches_of_In; eauto).
  assert (M2 : In B2 (branches_of C runs)) by (apply branches_of_In; eauto).
  assert (Hne : branches_of C runs <> []) by (intros E; rewrite E in M1; exact M1).
  eexists. split; [apply walk_only_entry, Hne|]. simpl.
  split; [exact M1|]. split; [exact M2|].
  intros runs' P. pose proof (branches_of_perm C P) as PB.
  assert (Hne' : branches_of C runs' <> []).
  { intros E. rewrite E in PB. symmetry in PB.
    apply Permutation_nil in PB. congruence. }
  eexists. split; [apply walk_only_entry, Hne'|]. simpl. split; [|exact PB].
  intros b. split; apply Permutation_in; [|symmetry]; exact PB.
Qed.

Lemma shared_commit_one_record_witness :
  exists r,
    filter (fun e => JsString.eqb (fst e) (lit "c0ffee"))
      (walk (lit "repo.git") (lit "origin")
         [(lit "dev", lit "c0ffee" ++ LF :: lit "beef");
          (lit "main", lit "c0ffee")])
      = [(lit "c0ffee", r)] /\
    In (lit "dev") (branches r) /\ In (lit "main") (branches r) /\
    forall runs',
      Permutation [(lit "dev", lit "c0ffee" ++ LF :: lit "beef");
                   (lit "main", lit "c0ffee")] runs' ->
      exists r',
        filter (fun e => JsString.eqb (fst e) (lit "c0ffee"))
          (walk (lit "repo.git") (lit "origin") runs') = [(lit "c0ffee", r')] /\
        (forall b, In b (branches r) <-> In b (branches r')) /\
        Permutation (branches r) (branches r').
Proof.
  apply (@shared_commit_one_record (lit "repo.git") (lit "origin")
           [(lit "dev", lit "c0ffee" ++ LF :: lit "beef");
            (lit "main", lit "c0ffee")]
           (lit "dev") (lit "c0ffee" ++ LF :: lit "beef")
           (lit "main") (lit "c0ffee") (lit "c0ffee")).
  - simpl; auto.
  - simpl; auto.
  - simpl; auto.
  - simpl; auto.
Defined.


Lemma repeat_app_sorted (b : jstring) (n : nat) (l : list jstring) :
  StronglySorted lex_le l -> Forall (lex_le b) l ->
  StronglySorted lex_le (repeat b n ++ l).
Proof.
  intros S F. induction n as [|n IH]; simpl; [exact S|].
  constructor; [exact IH|]. apply Forall_app. split; [|exact F].
  apply Forall_forall. intros x Hx. apply repeat_spec in Hx. subst x.
  apply lex_le_refl.
Qed.

Lemma branches_of_walked (h : jstring) (runs : list (jstring * jstring))
  (x : jstring) :
  In x (branches_of h runs) -> In x (map fst runs).
Proof.
  intros Hx. apply branches_of_In in Hx. destruct Hx as (o & I & _).
  change x with (fst (x, o)). apply in_map; exact I.
Qed.

(** The branch list of a hash follows the order of the walk, repeated
    names included. *)
Lemma branches_of_sorted (h : jstring) (runs : list (jstring * jstring)) :
  StronglySorted lex_le (map fst runs) ->
  StronglySorted lex_le (branches_of h runs).
Proof.
  induction runs as [|[b out] runs IH]; intros S; [constructor|].
  simpl in S. inversion S as [|? ? S' Fb]; subst.
  unfold branches_of; simpl; fold (branches_of h runs).
  apply repeat_app_sorted; [exact (IH S')|].
  rewrite Forall_forall in Fb |- *.
  intros x Hx. apply Fb. eapply branches_of_walked; eauto.
Qed.

Lemma branches_of_runs_listing (h : jstring)
  (runs : list (jstring * jstring)) (x : jstring) :
  In x (branches_of h runs) <-> In x (map fst (runs_listing h runs)).
Proof.
  rewrite branches_of_In, in_map_iff. unfold runs_listing. split.
  - intros (out & I & Hh). exists (x, out). split; [reflexivity|].
    apply filter_In. split; [exact I|]. apply Nat.ltb_lt, occurrences_pos.
    exact Hh.
  - intros ([b out] & E & I). simpl in E; subst b. apply filter_In in I.
    destruct I as [I Hh]. exists out. split; [exact I|].
    apply occurrences_pos, Nat.ltb_lt. exact Hh.
Qed.

(** A branch list is free of duplicates exactly when no output lists the
    hash twice and the runs that list it bear different names. *)
Lemma branches_of_NoDup (h : jstring) (runs : list (jstring * jstring)) :
  NoDup (branches_of h runs) <->
  Forall (fun run => (occurrences h (rev_hashes (snd run)) <= 1)%nat) runs /\
  NoDup (map fst (runs_listing h runs)).
Proof.
  induction runs as [|[b out] runs IH].
  - simpl. split; [intros _; split; constructor | intros _; constructor].
  - unfold branches_of, runs_listing; cbn [flat_map filter fst snd].
    fold (branches_of h runs). fold (runs_listing h runs).
    destruct (occurrences h (rev_hashes out)) as [|[|n]] eqn:Eo.
    + cbn [repeat app Nat.ltb Nat.leb]. rewrite IH. split.
      * intros [F N]. split; [constructor; [simpl; rewrite Eo; lia | exact F]
                             | exact N].
      * intros [F N]. inversion F; subst. split; assumption.
    + cbn [repeat app Nat.ltb Nat.leb map fst]. split.
      * intros N. inversion N as [|? ? Nb N']; subst.
        apply IH in N'. destruct N' as [F N']. split.
        -- constructor; [simpl; rewrite Eo; lia | exact F].
        -- constructor; [|exact N']. intros I. apply Nb.
           apply branches_of_runs_listing. exact I.
      * intros [F N]. inversion F; subst. inversion N as [|? ? Nb N']; subst.
        constructor; [|apply IH; split; assumption].
        intros I. apply Nb. apply branches_of_runs_listing. exact I.
    + split.
      * intros N. cbn [repeat app] in N. inversion N as [|? ? Nb _]; subst.
        exfalso. apply Nb. left. reflexivity.
      * intros [F _]. inversion F as [|? ? Hle _]; subst. simpl in Hle.
        rewrite Eo in Hle. lia.
Qed.

Lemma NoDup_runs_listing (h : jstring) (runs : list (jstring * jstring)) :
  NoDup (map fst runs) -> NoDup (map fst (runs_listing h runs)).
Proof.
  unfold runs_listing.
  induction runs as [|[b out] runs IH]; intros N; [constructor|].
  simpl in N. inversion N as [|? ? Nb N']; subst. cbn [filter snd].
  destruct (0 <? occurrences h (rev_hashes out))%nat; [|exact (IH N')].
  cbn [map fst]. constructor; [|exact (IH N')].
  intros I. apply Nb. apply in_map_iff in I. destruct I as (run & E & I).
  apply filter_In in I. destruct I as [I _]. apply in_map_iff. eauto.
Qed.

(** C10, amended.  When the branches walked are the Branch Lister's
    list, the branch list of every record of the commit map after the walk
    is in lexicographic order, repeated names next to each other.  It has no
    duplicate exactly when no walked output lists the record's hash more
    than once and the walked branches whose output lists it have different
    names; so it has none when the list of branches names none twice and no
    output lists a hash twice. *)
Theorem walked_branches_sorted_distinct
  (repoName remoteName refs : jstring) (runs : list (jstring * jstring))
  (k : jstring) (r : commit_record) :
  map fst runs = list_branches remoteName refs ->
  In (k, r) (walk repoName remoteName runs) ->
  StronglySorted lex_le (branches r) /\
  (NoDup (branches r) <->
   Forall (fun run => (occurrences k (rev_hashes (snd run)) <= 1)%nat) runs /\
   NoDup (map fst (runs_listing k runs))) /\
  (NoDup (map fst runs) ->
   Forall (fun run => NoDup (rev_hashes (snd run))) runs ->
   NoDup (branches r)).
Proof.
  intros E H. apply walk_In in H. destruct H as [_ ->]. simpl.
  split; [|split].
  - apply branches_of_sorted. rewrite E. unfold list_branches.
    apply sort_sorted.
  - apply branches_of_NoDup.
  - intros ND F. apply branches_of_NoDup. split.
    + rewrite Forall_forall in F |- *. intros run I.
      apply occurrences_NoDup, F, I.
    + apply NoDup_runs_listing, ND.
Qed.

Lemma walked_branches_sorted_distinct_witness :
  StronglySorted lex_le [lit "dev"; lit "main"] /\
  (NoDup [lit "dev"; lit "main"] <->
   Forall (fun run => (occurrences (lit "c0ffee") (rev_hashes (snd run)) <= 1)%nat)
     [(lit "dev", lit "c0ffee" ++ LF :: lit "beef");
      (lit "main", lit "c0ffee")] /\
   NoDup (map fst (runs_listing (lit "c0ffee")
     [(lit "dev", lit "c0ffee" ++ LF :: lit "beef");
      (lit "main", lit "c0ffee")]))) /\
  (NoDup (map fst [(lit "dev", lit "c0ffee" ++ LF :: lit "beef");
                   (lit "main", lit "c0ffee")]) ->
   Forall (fun run => NoDup (rev_hashes (snd run)))
     [(lit "dev", lit "c0ffee" ++ LF :: lit "beef");
      (lit "main", lit "c0ffee")] ->
   NoDup [lit "dev"; lit "main"]).
Proof.
  apply (@walked_branches_sorted_distinct (lit "repo.git") (lit "origin")
           (lit "refs/remotes/origin/main" ++ LF :: lit "refs/remotes/origin/dev")
           [(lit "dev", lit "c0ffee" ++ LF :: lit "beef");
            (lit "main", lit "c0ffee")]
           (lit "c0ffee")
           {| repo := lit "repo.git"; remote := lit "origin";
              hash := lit "c0ffee"; branches := [lit "dev"; lit "main"] |}).
  - reflexivity.
  - simpl. left. reflexivity.
Defined.

(** C10, as stated, fails.  The Branch Lister keeps a ref listed
    twice as two branches of one name; both are walked, in sorted order and
    with outputs that list the hash once each, and the record holds the name
    twice.  An output that lists a hash twice appends its branch twice. *)
Lemma walked_branches_repeated_counterexample :
  list_branches (lit "origin") refs_twice = [lit "b"; lit "b"] /\
  map fst runs_same_name = list_branches (lit "origin") refs_twice /\
  StronglySorted lex_le (map fst runs_same_name) /\
  Forall (fun run => NoDup (rev_hashes (snd run))) runs_same_name /\
  walk (lit "repo.git") (lit "origin") runs_same_name
    = [(lit "c0ffee",
        {| repo := lit "repo.git"; remote := lit "origin";
           hash := lit "c0ffee"; branches := [lit "b"; lit "b"] |})] /\
  ~ NoDup [lit "b"; lit "b"] /\
  map fst runs_hash_twice
    = list_branches (lit "origin") (lit "refs/remotes/origin/dev") /\
  walk (lit "repo.git") (lit "origin") runs_hash_twice
    = [(lit "c0ffee",
        {| repo := lit "repo.git"; remote := lit "origin";
           hash := lit "c0ffee"; branches := [lit "dev"; lit "dev"] |})] /\
  ~ NoDup [lit "dev"; lit "dev"].
Proof.
  assert (D : forall x : jstring, ~ NoDup [x; x]).
  { intros x N. inversion N as [|? ? Nx _]; subst. apply Nx. left.
    reflexivity. }
  split; [reflexivity|]. split; [reflexivity|].
  split.
  { replace (map fst runs_same_name)
      with (list_branches (lit "origin") refs_twice) by reflexivity.
    unfold list_branches. apply sort_sorted. }
  split.
  { repeat constructor; simpl; tauto. }
  split; [reflexivity|]. split; [apply D|].
  split; [reflexivity|]. split; [reflexivity | apply D].
Qed.

(** ** Identifier *)

(** C9.  The _id joins repository name, remote name and hash with single
    hyphens, and the join is not injective: repository a-b with remote c and
    repository a with remote b-c give every hash the same _id, so that in one
    collection the document of the second replaces the document of the
    first. *)
Theorem id_not_injective :
  (forall r, make_id r = repo r ++ lit "-" ++ remote r ++ lit "-" ++ hash r) /\
  (forall h bs1 bs2 o1 o2,
      let r1 := {| repo := lit "a-b"; remote := lit "c"; hash := h;
                   branches := bs1 |} in
      let r2 := {| repo := lit "a"; remote := lit "b-c"; hash := h;
                   branches := bs2 |} in
      (repo r1 <> repo r2 /\ remote r1 <> remote r2) /\
      make_id r1 = make_id r2 /\
      upsert (details_of r2 o2) (upsert (details_of r1 o1) [])
        = [details_of r2 o2]).
Proof.
  split; [reflexivity|]. intros h bs1 bs2 o1 o2 r1 r2.
  split; [split; discriminate|]. split; [reflexivity|].
  simpl. rewrite eqb_refl. reflexivity.
Qed.

(** ** The script as a whole: two runs of the sample world *)

Example run_sample_ok :
  run_process (sample_env None) None None None None
  = [ EvConnect (lit "mongodb://localhost:27017");
      EvGit (lit "config --get remote.origin.url") (lit ".");
      EvLog (lit "Repo: repo.git");
      EvGit (lit "fetch --all --prune") (lit ".");
      EvGit (lit "branch -r --format='%(refname)'") (lit ".");
      EvLog (lit "1 branches:" ++ LF :: lit "- main");
      EvGit (lit "rev-list --full-history origin/main") (lit ".");
      EvLog (lit "1 commits:" ++ LF :: lit "- c0ffee");
      EvProgressBar 1;
      EvGit (lit "show -s --format='%ae' c0ffee") (lit ".");
      EvGit (lit "show -s --format='%an' c0ffee") (lit ".");
      EvGit (lit "show -s --format='%ai' c0ffee") (lit ".");
      EvGit (lit "show -s --format='%ce' c0ffee") (lit ".");
      EvGit (lit "show -s --format='%cn' c0ffee") (lit ".");
      EvGit (lit "show -s --format='%ci' c0ffee") (lit ".");
      EvGit (lit "show -s --format='%s' c0ffee") (lit ".");
      EvGit (lit "show -s --format='%b' c0ffee") (lit ".");
      EvGit (lit "show --format='' --numstat c0ffee") (lit ".");
      EvUpdateOne (lit "gitalyze-20261102T102030123Z") sample_doc;
      EvTick;
      EvClose;
      EvLog (lit "Done!");
      EvExit 0 ].
Proof. vm_compute. reflexivity. Qed.

Example run_sample_fetch_fails :
  run_process (sample_env (Some 3%nat)) (Some (lit "/srv/repo")) None None
    (Some (lit "stats"))
  = [ EvConnect (lit "mongodb://localhost:27017");
      EvGit (lit "config --get remote.origin.url") (lit "/srv/repo");
      EvLog (lit "Repo: repo.git");
      EvGit (lit "fetch --all --prune") (lit "/srv/repo");
      EvLogError boom;
      EvExit 1 ].
Proof. vm_compute. reflexivity. Qed.

(** ** Exceptions reach the top *)

Section PropagationProofs.

Variable env : environment.

Lemma propagates_ret (A : Type) (a : A) : propagates env (ret a).
Proof.
  intros tr0 r tr H. inversion H; subst. exists []. rewrite app_nil_r.
  split; [reflexivity|]. split.
  - intros pre ev post e E. destruct pre; discriminate.
  - intros e E; discriminate.
Qed.

Lemma propagates_emit (ev : event) :
  (forall tr, failure_of env tr ev = None) -> propagates env (emit ev).
Proof.
  intros Hev tr0 r tr H. inversion H; subst. exists [ev].
  split; [reflexivity|]. split.
  - intros pre ev' post e E F. destruct pre as [|x [|y pre]]; inversion E; subst.
    rewrite Hev in F. discriminate.
  - intros e E; discriminate.
Qed.

Lemma propagates_call (A : Type) (ev : event) (reply : list event -> result A) :
  (forall tr, failure_of env tr ev
              = match reply tr with Throw e => Some e | Ok _ => None end) ->
  propagates env (call ev reply).
Proof.
  intros Hev tr0 r tr H. inversion H; subst. exists [ev].
  split; [reflexivity|]. split.
  - intros pre ev' post e E F. destruct pre as [|x [|y pre]]; inversion E; subst.
    rewrite app_nil_r, Hev in F. split; [reflexivity|].
    destruct (reply tr0); congruence.
  - intros e E. exists [], ev. split; [reflexivity|].
    rewrite app_nil_r, Hev, E. reflexivity.
Qed.

Lemma propagates_bind (A B : Type) (m : M A) (k : A -> M B) :
  propagates env m -> (forall a, propagates env (k a)) ->
  propagates env (bind m k).
Proof.
  intros Hm Hk tr0 r tr H. unfold bind in H.
  destruct (m tr0) as [r1 tr1] eqn:Em.
  destruct (Hm _ _ _ Em) as (ext1 & -> & P1 & Q1).
  destruct r1 as [a|e1].
  - destruct (Hk a _ _ _ H) as (ext2 & -> & P2 & Q2).
    exists (ext1 ++ ext2). split; [symmetry; apply app_assoc|].
    split.
    + intros pre ev post e E F. apply app_eq_app in E.
      destruct E as (l & [[E1 E2] | [E1 E2]]).
      * destruct l as [|x l].
        -- simpl in E2. rewrite app_nil_r in E1. subst pre.
           apply (P2 [] ev post e); [symmetry; exact E2|].
           rewrite app_nil_r. exact F.
        -- inversion E2; subst x.
           destruct (P1 pre ev l e E1 F) as [_ C]. discriminate.
      * subst pre. apply (P2 l ev post e E2).
        rewrite <- app_assoc. exact F.
    + intros e E. destruct (Q2 e E) as (pre & ev & -> & F).
      exists (ext1 ++ pre), ev. rewrite <- !app_assoc. split; [reflexivity|].
      rewrite <- app_assoc in F. exact F.
  - inversion H; subst. exists ext1. split; [reflexivity|]. split.
    + intros pre ev post e E F. destruct (P1 pre ev post e E F) as [-> C].
      inversion C; auto.
    + intros e E. inversion E; subst. apply Q1. reflexivity.
Qed.

Lemma propagates_for_each (A : Type) (l : list A) (body : A -> M unit) :
  (forall x, propagates env (body x)) -> propagates env (for_each l body).
Proof.
  intros Hb. induction l as [|x l IH]; simpl.
  - apply propagates_ret.
  - apply propagates_bind; [apply Hb | intros _; exact IH].
Qed.

Lemma propagates_fold_M (A S : Type) (body : S -> A -> M S) (l : list A) :
  (forall s x, propagates env (body s x)) ->
  forall s, propagates env (fold_M body l s).
Proof.
  intros Hb. induction l as [|x l IH]; intros s; simpl.
  - apply propagates_ret.
  - apply propagates_bind; [apply Hb | intros s'; apply IH].
Qed.

Lemma propagates_git (args cwd : jstring) : propagates env (git env args cwd).
Proof.
  unfold git. apply propagates_bind.
  - apply propagates_call. intros tr. reflexivity.
  - intros out. apply propagates_ret.
Qed.

Lemma propagates_console_log (line : jstring) :
  propagates env (console_log line).
Proof. apply propagates_emit. reflexivity. Qed.

Lemma propagates_fetch_show (commitHash cwd : jstring) :
  propagates env (fetch_show env commitHash cwd).
Proof.
  unfold fetch_show, show.
  repeat (apply propagates_bind; [apply propagates_git | intros ?]).
  apply propagates_ret.
Qed.

Lemma propagates_store_commit (cfg : config) (entry : jstring * commit_record) :
  propagates env (store_commit env cfg entry).
Proof.
  unfold store_commit.
  apply propagates_bind; [apply propagates_fetch_show | intros o].
  apply propagates_bind; [|intros _; apply propagates_emit; reflexivity].
  apply propagates_call. intros tr. reflexivity.
Qed.

Lemma propagates_walk_loop (cfg : config) (repoName : jstring)
  (branches : list jstring) :
  propagates env (walk_loop env cfg repoName branches).
Proof.
  unfold walk_loop. apply propagates_fold_M. intros commits branch.
  unfold walk_step.
  apply propagates_bind; [apply propagates_git | intros out].
  apply propagates_ret.
Qed.

Lemma propagates_connect (cfg : config) : propagates env (connect env cfg).
Proof. apply propagates_call. intros tr. reflexivity. Qed.

Lemma propagates_analyze (cfg : config) : propagates env (analyze env cfg).
Proof.
  unfold analyze.
  apply propagates_bind; [apply propagates_git | intros repoUrl].
  apply propagates_bind; [apply propagates_console_log | intros _].
  apply propagates_bind; [apply propagates_git | intros _].
  apply propagates_bind; [apply propagates_git | intros out].
  apply propagates_bind; [apply propagates_console_log | intros _].
  apply propagates_bind; [apply propagates_walk_loop | intros commits].
  apply propagates_bind; [apply propagates_console_log | intros _].
  apply propagates_bind; [apply propagates_emit; reflexivity | intros _].
  apply propagates_bind;
    [apply propagates_for_each; intros x; apply propagates_store_commit
    | intros _].
  apply propagates_bind; [apply propagates_emit; reflexivity | intros _].
  apply propagates_console_log.
Qed.

Lemma propagates_pipeline (cfg : config) : propagates env (pipeline env cfg).
Proof.
  unfold pipeline.
  apply propagates_bind; [apply propagates_connect | intros _].
  apply propagates_analyze.
Qed.

Lemma propagates_main (repo remote mongo db : option jstring) :
  propagates env (main env repo remote mongo db).
Proof.
  intros tr0 r tr H. unfold main in H.
  exact (propagates_pipeline _ _ H).
Qed.

End PropagationProofs.

Lemma app_eq_app_cons (A : Type) (ext suf pre post : list A) (ev : A) :
  ext ++ suf = pre ++ ev :: post ->
  (exists post', ext = pre ++ ev :: post' /\ post = post' ++ suf) \/
  (exists pre', pre = ext ++ pre' /\ suf = pre' ++ ev :: post).
Proof.
  revert pre; induction ext as [|x ext IH]; intros pre E.
  - right. exists pre. auto.
  - destruct pre as [|y pre]; simpl in E; inversion E; subst.
    + left. exists ext. auto.
    + destruct (IH pre H1) as [(post' & -> & ->) | (pre' & -> & ->)].
      * left. exists post'. auto.
      * right. exists pre'. auto.
Qed.

(** C7.  The process exits with code 0 when the pipeline returns and with
    code 1, after printing the error, when it throws.  Nothing in the
    pipeline handles an exception: a call that the world fails is the last
    thing the pipeline does, whichever call it is, and what follows is the
    printing of that very error and the exit with code 1; a run in which no
    call fails exits with code 0. *)
Theorem exit_codes (env : environment) (repo remote mongo db : option jstring) :
  (forall u tr, main env repo remote mongo db [] = (Ok u, tr) ->
     run_process env repo remote mongo db = tr ++ [EvExit 0]) /\
  (forall e tr, main env repo remote mongo db [] = (Throw e, tr) ->
     run_process env repo remote mongo db = tr ++ [EvLogError e; EvExit 1]) /\
  (forall pre ev post e,
     run_process env repo remote mongo db = pre ++ ev :: post ->
     failure_of env pre ev = Some e ->
     post = [EvLogError e; EvExit 1]) /\
  ((forall pre ev post,
      run_process env repo remote mongo db = pre ++ ev :: post ->
      failure_of env pre ev = None) ->
   exists tr, run_process env repo remote mongo db = tr ++ [EvExit 0]) /\
  (forall tr e,
     run_process env repo remote mongo db = tr ++ [EvLogError e; EvExit 1] ->
     exists pre ev, tr = pre ++ [ev] /\ failure_of env pre ev = Some e).
Proof.
  unfold run_process.
  destruct (main env repo remote mongo db []) as [r tr] eqn:Em.
  destruct (propagates_main env repo remote mongo db [] Em)
    as (ext & E & P & Q). simpl in E, P, Q. subst tr.
  split; [intros u tr H; inversion H; subst; reflexivity|].
  split; [intros e tr H; inversion H; subst; reflexivity|].
  split; [|split].
  - intros pre ev post e E F. destruct r as [u|e'];
      apply app_eq_app_cons in E;
      destruct E as [(post' & E1 & E2) | (pre' & E1 & E2)].
    + destruct (P pre ev post' e E1 F); discriminate.
    + destruct pre' as [|x [|y pre']]; inversion E2; subst. discriminate.
    + destruct (P pre ev post' e E1 F) as [-> C]. inversion C; subst.
      reflexivity.
    + destruct pre' as [|x [|y [|z pre']]]; inversion E2; subst; discriminate.
  - intros H. destruct r as [u|e]; [eauto|].
    destruct (Q e eq_refl) as (pre & ev & E & F). subst ext.
    rewrite (H pre ev [EvLogError e; EvExit 1]) in F; [discriminate|].
    rewrite <- app_assoc. reflexivity.
  - intros tr e E. destruct r as [u|e'].
    + apply (f_equal (@rev event)) in E. rewrite !rev_app_distr in E.
      simpl in E. inversion E.
    + apply (f_equal (@rev event)) in E. rewrite !rev_app_distr in E.
      simpl in E. inversion E as [[He Hr]]. apply (f_equal (@rev event)) in Hr.
      rewrite !rev_involutive in Hr. subst. apply Q. reflexivity.
Qed.

(** ** Defaults *)

Lemma or_default_falsy (v : option jstring) (d : jstring) :
  falsy v = true -> or_default v d = d.
Proof. unfold or_default. intros ->. reflexivity. Qed.

Lemma or_default_given (v : option jstring) (d : jstring) :
  falsy v = false -> v = Some (or_default v d) /\ or_default v d <> [].
Proof.
  unfold or_default. intros H. rewrite H.
  destruct v as [[|c s]|]; try discriminate. split; [reflexivity | discriminate].
Qed.

Lemma strip_punctuation_In (now : jstring) (c : N) :
  In c (strip_punctuation now) <-> In c now /\ c <> 45 /\ c <> 58 /\ c <> 46.
Proof.
  unfold strip_punctuation. rewrite filter_In, negb_true_iff, !orb_false_iff.
  rewrite !N.eqb_neq. tauto.
Qed.

Lemma pipeline_connects_first (env : environment) (cfg : config)
  (tr : list event) :
  exists r ext, pipeline env cfg tr = (r, tr ++ EvConnect (mongoUri cfg) :: ext).
Proof.
  unfold pipeline, bind, connect, call.
  destruct (connect_reply env tr (mongoUri cfg)) as [u|e].
  - destruct (analyze env cfg (tr ++ [EvConnect (mongoUri cfg)])) as [r tr'] eqn:E.
    destruct (propagates_analyze env cfg _ E) as (ext & -> & _).
    exists r, ext. rewrite <- app_assoc. reflexivity.
  - exists (Throw e), []. reflexivity.
Qed.

(** C8.  A parameter that is absent (null or the empty string) takes its
    default, and one that is given is kept: the repository path defaults
    to ".", the remote name to "origin", the connection URI to
    "mongodb://localhost:27017", and the database name to "gitalyze-"
    followed by the ISO timestamp of the clock without its "-", ":" and "."
    characters.  The pipeline runs on the values so completed, and the first
    thing it does is to connect to the URI among them. *)
Theorem defaults_applied :
  (forall now p r m d,
      (falsy p = true -> repoPath (defaults now p r m d) = lit ".") /\
      (falsy r = true -> remoteName (defaults now p r m d) = lit "origin") /\
      (falsy m = true ->
         mongoUri (defaults now p r m d) = lit "mongodb://localhost:27017") /\
      (falsy d = true ->
         mongoDb (defaults now p r m d)
         = lit "gitalyze-" ++ strip_punctuation now) /\
      (falsy p = false -> p = Some (repoPath (defaults now p r m d))) /\
      (falsy r = false -> r = Some (remoteName (defaults now p r m d))) /\
      (falsy m = false -> m = Some (mongoUri (defaults now p r m d))) /\
      (falsy d = false -> d = Some (mongoDb (defaults now p r m d)))) /\
  (forall v, falsy v = true <-> v = None \/ v = Some []) /\
  (forall now c,
      In c (strip_punctuation now) <-> In c now /\ c <> 45 /\ c <> 58 /\ c <> 46) /\
  defaults (lit "2026-11-02T10:20:30.123Z") None None (Some []) None
    = {| repoPath := lit "."; remoteName := lit "origin";
         mongoUri := lit "mongodb://localhost:27017";
         mongoDb := lit "gitalyze-20261102T102030123Z" |} /\
  (forall env p r m d tr,
      main env p r m d tr = pipeline env (defaults (clock env tr) p r m d) tr) /\
  (forall env p r m d tr,
      exists res ext,
        main env p r m d tr
        = (res, tr ++ EvConnect (mongoUri (defaults (clock env tr) p r m d))
                   :: ext)).
Proof.
  split.
  { intros now p r m d. unfold defaults; simpl.
    repeat split; intros H;
      try (apply or_default_falsy; exact H);
      apply or_default_given; exact H. }
  split.
  { intros [[|c s]|]; simpl; split; intros H; auto; try discriminate;
      destruct H; discriminate. }
  split; [exact strip_punctuation_In|].
  split; [reflexivity|].
  split; [reflexivity|].
  intros env p r m d tr. unfold main. apply pipeline_connects_first.
Qed.

(** ** Reading a run from its trace *)

Section ReadingProofs.

Variable env : environment.

Lemma bind_inv (A B : Type) (m : M A) (k : A -> M B) (tr0 tr : list event)
  (r : result B) :
  bind m k tr0 = (r, tr) ->
  (exists a tr1, m tr0 = (Ok a, tr1) /\ k a tr1 = (r, tr)) \/
  (exists e, m tr0 = (Throw e, tr) /\ r = Throw e).
Proof.
  unfold bind. destruct (m tr0) as [[a|e] tr1]; intros H.
  - left; eauto.
  - right; inversion H; subst; eauto.
Qed.

Lemma updates_app (a b : list event) : updates (a ++ b) = updates a ++ updates b.
Proof. unfold updates. apply flat_map_app. Qed.

Lemma updates_In (db : jstring) (doc : Doc.t) (tr : list event) :
  In (EvUpdateOne db doc) tr <-> In (db, doc) (updates tr).
Proof.
  unfold updates. rewrite in_flat_map. split.
  - intros H. exists (EvUpdateOne db doc). simpl; auto.
  - intros (ev & I & H). destruct ev; simpl in H; try tauto.
    destruct H as [H|[]]. inversion H; subst. exact I.
Qed.

Lemma git_said_app (tr ext : list event) (args cwd out : jstring) :
  git_said env tr args cwd out -> git_said env (tr ++ ext) args cwd out.
Proof.
  intros (pre & post & raw & -> & H1 & H2).
  exists pre, (post ++ ext), raw. rewrite <- app_assoc. auto.
Qed.

Lemma git_inv (args cwd : jstring) (tr0 tr : list event) (r : result jstring) :
  git env args cwd tr0 = (r, tr) ->
  tr = tr0 ++ [EvGit args cwd] /\
  forall out, r = Ok out -> git_said env tr args cwd out.
Proof.
  unfold git, bind, call, ret.
  destruct (git_reply env tr0 args cwd) as [raw|e] eqn:E; intros H;
    inversion H; subst; (split; [reflexivity|]); intros out Ho;
    inversion Ho; subst.
  exists tr0, [], raw. auto.
Qed.

Lemma quiet_ret (A : Type) (a : A) : quiet (ret a).
Proof.
  intros tr0 r tr H. inversion H; subst. exists []. rewrite app_nil_r. auto.
Qed.

Lemma quiet_emit (ev : event) : updates [ev] = [] -> quiet (emit ev).
Proof. intros Hev tr0 r tr H. inversion H; subst. exists [ev]. auto. Qed.

Lemma quiet_bind (A B : Type) (m : M A) (k : A -> M B) :
  quiet m -> (forall a, quiet (k a)) -> quiet (bind m k).
Proof.
  intros Hm Hk tr0 r tr H. apply bind_inv in H.
  destruct H as [(a & tr1 & H1 & H2) | (e & H1 & _)].
  - destruct (Hm _ _ _ H1) as (ext1 & -> & U1).
    destruct (Hk a _ _ _ H2) as (ext2 & -> & U2).
    exists (ext1 ++ ext2). rewrite updates_app, U1, U2, app_assoc. auto.
  - exact (Hm _ _ _ H1).
Qed.

Lemma quiet_git (args cwd : jstring) : quiet (git env args cwd).
Proof.
  intros tr0 r tr H. apply git_inv in H. destruct H as [-> _].
  exists [EvGit args cwd]. auto.
Qed.

Lemma quiet_fetch_show (commitHash cwd : jstring) :
  quiet (fetch_show env commitHash cwd).
Proof.
  unfold fetch_show, show.
  repeat (apply quiet_bind; [apply quiet_git | intros ?]).
  apply quiet_ret.
Qed.

Lemma store_commit_inv (cfg : config) (entry : jstring * commit_record)
  (tr0 tr : list event) (r : result unit) :
  store_commit env cfg entry tr0 = (r, tr) ->
  exists ext, tr = tr0 ++ ext /\
    forall u, In u (updates ext) ->
      exists o, u = (mongoDb cfg, details_of (snd entry) o).
Proof.
  unfold store_commit. intros H. apply bind_inv in H.
  destruct H as [(o & tr1 & H1 & H2) | (e & H1 & _)];
    destruct (quiet_fetch_show _ _ _ H1) as (ext1 & -> & U1).
  - assert (exists ext2, tr = (tr0 ++ ext1) ++ ext2 /\
              forall u, In u (updates ext2) ->
                u = (mongoDb cfg, details_of (snd entry) o)) as (ext2 & -> & U2).
    { unfold bind, call, emit in H2.
      destruct (update_reply env (tr0 ++ ext1) (mongoDb cfg)
                  (details_of (snd entry) o)); inversion H2; subst.
      - eexists. split; [rewrite <- app_assoc; reflexivity|].
        simpl. intros u [<-|[]]. reflexivity.
      - eexists. split; [reflexivity|]. simpl. intros u [<-|[]]. reflexivity. }
    exists (ext1 ++ ext2). split; [symmetry; apply app_assoc|].
    intros u. rewrite updates_app, U1. simpl. intros I. eauto.
  - exists ext1. split; [reflexivity|]. rewrite U1. intros u [].
Qed.

Lemma store_loop_inv (cfg : config) (commits : commit_map) :
  forall (tr0 tr : list event) (r : result unit),
  for_each commits (store_commit env cfg) tr0 = (r, tr) ->
  exists ext, tr = tr0 ++ ext /\
    forall u, In u (updates ext) ->
      exists entry o, In entry commits /\
                      u = (mongoDb cfg, details_of (snd entry) o).
Proof.
  induction commits as [|entry commits IH]; intros tr0 tr r H; simpl in H.
  - inversion H; subst. exists []. rewrite app_nil_r. split; [reflexivity|].
    intros u [].
  - apply bind_inv in H.
    destruct H as [(a & tr1 & H1 & H2) | (e & H1 & _)];
      destruct (store_commit_inv _ _ _ H1) as (ext1 & -> & U1).
    + destruct (IH _ _ _ H2) as (ext2 & -> & U2).
      exists (ext1 ++ ext2). split; [symmetry; apply app_assoc|].
      intros u. rewrite updates_app, in_app_iff. intros [I|I].
      * destruct (U1 u I) as (o & ->). exists entry, o. simpl; auto.
      * destruct (U2 u I) as (en & o & I' & ->). exists en, o. simpl; auto.
    + exists ext1. split; [reflexivity|]. intros u I.
      destruct (U1 u I) as (o & ->). exists entry, o. simpl; auto.
Qed.

Lemma walk_loop_inv (cfg : config) (repoName : jstring)
  (branches : list jstring) :
  forall (m0 : commit_map) (tr0 tr : list event) (r : result commit_map),
  fold_M (walk_step env cfg repoName) branches m0 tr0 = (r, tr) ->
  exists ext, tr = tr0 ++ ext /\ updates ext = [] /\
    forall commits, r = Ok commits ->
      exists runs,
        map fst runs = branches /\
        commits = fold_left
          (fun m run => walk_branch repoName (remoteName cfg) m (fst run) (snd run))
          runs m0 /\
        Forall (fun run => git_said env tr (revlist_args cfg (fst run))
                             (repoPath cfg) (snd run)) runs.
Proof.
  induction branches as [|b bs IH]; intros m0 tr0 tr r H; simpl in H.
  - inversion H; subst. exists []. rewrite app_nil_r.
    split; [reflexivity|]. split; [reflexivity|].
    intros commits E. inversion E; subst. exists []. simpl. auto.
  - apply bind_inv in H. destruct H as [(a & tr1 & H1 & H2) | (e & H1 & ->)].
    + unfold walk_step in H1. apply bind_inv in H1.
      destruct H1 as [(out & tr1' & G & R) | (e & _ & C)]; [|discriminate].
      inversion R; subst a tr1'. apply git_inv in G. destruct G as [-> G].
      specialize (G out eq_refl).
      destruct (IH _ _ _ _ H2) as (ext & -> & U & K).
      exists ([EvGit (revlist_args cfg b) (repoPath cfg)] ++ ext).
      split; [symmetry; apply app_assoc|]. split; [rewrite updates_app, U; reflexivity|].
      intros commits E. destruct (K commits E) as (runs & Hm & Hc & Hf).
      exists ((b, out) :: runs). simpl. split; [congruence|]. split; [exact Hc|].
      constructor; [apply git_said_app; exact G | exact Hf].
    + unfold walk_step in H1. apply bind_inv in H1.
      destruct H1 as [(out & tr1' & G & R) | (e' & G & _)]; [inversion R|].
      apply git_inv in G. destruct G as [-> _].
      eexists. split; [reflexivity|]. split; [reflexivity|]. discriminate.
Qed.

End ReadingProofs.

Section AnalyzeProofs.

Variable env : environment.

Lemma git_said_later (tr tr' : list event) (args cwd out : jstring) :
  git_said env tr args cwd out -> (exists ext, tr' = tr ++ ext) ->
  git_said env tr' args cwd out.
Proof. intros H (ext & ->). apply git_said_app, H. Qed.

Lemma console_log_inv (line : jstring) (tr0 tr : list event) (r : result unit) :
  console_log line tr0 = (r, tr) -> r = Ok tt /\ tr = tr0 ++ [EvLog line].
Proof. intros H. inversion H. auto. Qed.

Lemma emit_inv (ev : event) (tr0 tr : list event) (r : result unit) :
  emit ev tr0 = (r, tr) -> r = Ok tt /\ tr = tr0 ++ [ev].
Proof. intros H. inversion H. auto. Qed.

Lemma analyze_inv (cfg : config) (tr0 tr : list event) (r : result unit) :
  analyze env cfg tr0 = (r, tr) ->
  exists ext, tr = tr0 ++ ext /\
    forall u, In u (updates ext) ->
      persisted_from_walk env tr cfg (fst u) (snd u).
Proof.
  unfold analyze. intros H.
  apply bind_inv in H. destruct H as [(url & tr1 & G1 & H) | (e & G1 & _)];
    apply git_inv in G1; destruct G1 as [-> S1].
  2: { eexists; split; [reflexivity | simpl; intros u []]. }
  specialize (S1 _ eq_refl).
  apply bind_inv in H. destruct H as [(? & tr2 & L1 & H) | (e & L1 & _)];
    apply console_log_inv in L1; destruct L1 as [L1 ->]; [|discriminate].
  apply bind_inv in H. destruct H as [(? & tr3 & G2 & H) | (e & G2 & _)];
    apply git_inv in G2; destruct G2 as [-> _].
  2: { eexists; split; [rewrite <- !app_assoc; reflexivity | simpl; intros u []]. }
  apply bind_inv in H. destruct H as [(refs & tr4 & G3 & H) | (e & G3 & _)];
    apply git_inv in G3; destruct G3 as [-> S3].
  2: { eexists; split; [rewrite <- !app_assoc; reflexivity | simpl; intros u []]. }
  specialize (S3 _ eq_refl).
  apply bind_inv in H. destruct H as [(? & tr5 & L2 & H) | (e & L2 & _)];
    apply console_log_inv in L2; destruct L2 as [L2 ->]; [|discriminate].
  apply bind_inv in H. destruct H as [(commits & tr6 & W & H) | (e & W & _)];
    apply walk_loop_inv in W; destruct W as (extw & -> & Uw & K).
  2: { eexists; split; [rewrite <- !app_assoc; reflexivity|].
       rewrite !updates_app, Uw. simpl. intros u []. }
  destruct (K commits eq_refl) as (runs & Hb & Hc & Hf).
  apply bind_inv in H. destruct H as [(? & tr7 & L3 & H) | (e & L3 & _)];
    apply console_log_inv in L3; destruct L3 as [L3 ->]; [|discriminate].
  apply bind_inv in H. destruct H as [(? & tr8 & L4 & H) | (e & L4 & _)];
    apply emit_inv in L4; destruct L4 as [L4 ->]; [|discriminate].
  match type of H with _ ?tr8 = _ =>
    assert (exists exts, tr = tr8 ++ exts /\
    forall u, In u (updates exts) ->
      exists entry o, In entry commits /\
                      u = (mongoDb cfg, details_of (snd entry) o))
      as (exts & -> & Us)
  end.
  { apply bind_inv in H. destruct H as [(? & tr9 & F & H) | (e & F & _)];
      apply store_loop_inv in F; destruct F as (exts & -> & Us).
    - apply bind_inv in H. destruct H as [(? & tr10 & L5 & H) | (e & L5 & _)];
        apply emit_inv in L5; destruct L5 as [L5 ->]; [|discriminate].
      apply console_log_inv in H. destruct H as [_ ->].
      exists (exts ++ [EvClose] ++ [EvLog (lit "Done!")]).
      split; [rewrite <- !app_assoc; reflexivity|].
      intros u. rewrite !updates_app. simpl. rewrite app_nil_r. apply Us.
    - exists exts. auto. }
  eexists. split; [rewrite <- !app_assoc; reflexivity|].
  intros u. rewrite !updates_app, Uw. simpl. intros I.
  destruct (Us u I) as ([k rec] & o & Ie & ->). simpl.
  split; [reflexivity|]. exists url, refs, runs, o.
  split; [eapply git_said_later; [exact S1|]; eexists; rewrite <- !app_assoc; reflexivity|].
  split; [eapply git_said_later; [exact S3|]; eexists; rewrite <- !app_assoc; reflexivity|].
  split; [exact Hb|].
  split.
  { eapply Forall_impl; [|exact Hf]. intros run Hr.
    eapply git_said_later; [exact Hr|]. eexists; rewrite <- !app_assoc; reflexivity. }
  split; [|reflexivity].
  subst commits. change (In (k, rec) (walk (repo_name url) (remoteName cfg) runs)) in Ie.
  pose proof Ie as Ie'. apply walk_In in Ie'. destruct Ie' as [_ E].
  rewrite E in Ie |- *. simpl. exact Ie.
Qed.

Lemma pipeline_inv (cfg : config) (tr0 tr : list event) (r : result unit) :
  pipeline env cfg tr0 = (r, tr) ->
  exists ext, tr = tr0 ++ ext /\
    forall u, In u (updates ext) ->
      persisted_from_walk env tr cfg (fst u) (snd u).
Proof.
  unfold pipeline. intros H. apply bind_inv in H.
  destruct H as [(? & tr1 & C & H) | (e & C & _)];
    unfold connect, call in C; inversion C; subst.
  - apply analyze_inv in H. destruct H as (ext & -> & U).
    exists ([EvConnect (mongoUri cfg)] ++ ext).
    split; [symmetry; apply app_assoc|]. intros u. rewrite updates_app. exact (U u).
  - eexists. split; [reflexivity|]. simpl. intros u [].
Qed.

Lemma persisted_from_walk_later (tr tr' : list event) (cfg : config)
  (db : jstring) (doc : Doc.t) :
  persisted_from_walk env tr cfg db doc -> (exists ext, tr' = tr ++ ext) ->
  persisted_from_walk env tr' cfg db doc.
Proof.
  intros (Hdb & url & refs & runs & o & H1 & H2 & H3 & H4 & H5) Hext.
  split; [exact Hdb|]. exists url, refs, runs, o.
  split; [exact (git_said_later H1 Hext)|].
  split; [exact (git_said_later H2 Hext)|].
  split; [exact H3|]. split; [|exact H5].
  eapply Forall_impl; [|exact H4]. intros run Hr.
  exact (git_said_later Hr Hext).
Qed.

(** Every upsert of a run sends the document of a record of its walk. *)
Lemma persisted_documents (p r m d : option jstring) (db : jstring)
  (doc : Doc.t) :
  In (EvUpdateOne db doc) (run_process env p r m d) ->
  persisted_from_walk env (run_process env p r m d)
    (defaults (clock env []) p r m d) db doc.
Proof.
  unfold run_process, main.
  destruct (pipeline env (defaults (clock env []) p r m d) []) as [res tr] eqn:E.
  apply pipeline_inv in E. destruct E as (ext & -> & U). simpl in U |- *.
  intros I. assert (I' : In (db, doc) (updates ext)).
  { apply updates_In. destruct res; apply in_app_or in I;
      destruct I as [I|I]; auto; simpl in I; intuition discriminate. }
  apply (persisted_from_walk_later (U _ I')).
  destruct res; eexists; reflexivity.
Qed.

End AnalyzeProofs.

(** ** Persisted records *)

(** C6.  Every record the history walk produces has a non-empty branch
    list, and each branch in it is one whose rev-list output, as read during
    the walk, listed the record's hash.  Hence the same holds of every
    document a run of the process sends to the store: each of its branches
    is one for which git, during that run, printed a history that lists the
    document's hash. *)
Theorem walked_branches_confirmed :
  (forall repoName remoteName runs k r,
      In (k, r) (walk repoName remoteName runs) ->
      hash r = k /\
      branches r <> [] /\
      forall b, In b (branches r) ->
        exists out, In (b, out) runs /\ In (hash r) (rev_hashes out)) /\
  (forall env p r m d db doc,
      In (EvUpdateOne db doc) (run_process env p r m d) ->
      branches (Doc.seed doc) <> [] /\
      forall b, In b (branches (Doc.seed doc)) ->
        exists out,
          git_said env (run_process env p r m d)
            (revlist_args (defaults (clock env []) p r m d) b)
            (repoPath (defaults (clock env []) p r m d)) out /\
          In (hash (Doc.seed doc)) (rev_hashes out)).
Proof.
  assert (W : forall repoName remoteName runs k r,
      In (k, r) (walk repoName remoteName runs) ->
      hash r = k /\
      branches r <> [] /\
      forall b, In b (branches r) ->
        exists out, In (b, out) runs /\ In (hash r) (rev_hashes out)).
  { intros repoName remoteName runs k r H. apply walk_In in H.
    destruct H as [Hne ->]. simpl. split; [reflexivity|]. split; [exact Hne|].
    intros b Hb. apply branches_of_In; exact Hb. }
  split; [exact W|].
  intros env p r m d db doc H. apply persisted_documents in H.
  destruct H as (_ & url & refs & runs & o & _ & _ & _ & Hf & Hw & _).
  destruct (W _ _ _ _ _ Hw) as (_ & Hne & Hb). split; [exact Hne|].
  intros b I. destruct (Hb b I) as (out & Ir & Ih). exists out.
  split; [|exact Ih]. rewrite Forall_forall in Hf. exact (Hf _ Ir).
Qed.

Lemma walked_branches_confirmed_witness :
  (hash {| repo := lit "repo.git"; remote := lit "origin"; hash := lit "beef";
           branches := [lit "dev"] |} = lit "beef" /\
   [lit "dev"] <> [] /\
   forall b, In b [lit "dev"] ->
     exists out, In (b, out) [(lit "dev", lit "c0ffee" ++ LF :: lit "beef");
                              (lit "main", lit "c0ffee")] /\
                 In (lit "beef") (rev_hashes out)) /\
  (branches (Doc.seed sample_doc) <> [] /\
   forall b, In b (branches (Doc.seed sample_doc)) ->
     exists out,
       git_said (sample_env None)
         (run_process (sample_env None) None None None None)
         (revlist_args
            (defaults (clock (sample_env None) []) None None None None) b)
         (repoPath (defaults (clock (sample_env None) []) None None None None))
         out /\
       In (hash (Doc.seed sample_doc)) (rev_hashes out)).
Proof.
  split.
  - apply (proj1 walked_branches_confirmed (lit "repo.git") (lit "origin")
             [(lit "dev", lit "c0ffee" ++ LF :: lit "beef");
              (lit "main", lit "c0ffee")]
             (lit "beef")
             {| repo := lit "repo.git"; remote := lit "origin";
                hash := lit "beef"; branches := [lit "dev"] |}).
    simpl. right. left. reflexivity.
  - apply (proj2 walked_branches_confirmed (sample_env None) None None None None
             (lit "gitalyze-20261102T102030123Z") sample_doc).
    vm_compute. do 18 right. left. reflexivity.
Defined.

(** C5.  The _id of the document of a walked record is the repository name,
    the remote name and the commit hash joined by hyphens, whatever else git
    printed about the commit, so two walks under the same repository name
    and remote name give a commit hash the same _id.  In a run of the
    process, the _id of every document sent to the store is made of the
    name read from the remote URL git printed, the remote name of the run
    and the document's hash. *)
Theorem id_deterministic :
  (forall repoName remoteName runs1 runs2 k r1 r2 o1 o2,
      In (k, r1) (walk repoName remoteName runs1) ->
      In (k, r2) (walk repoName remoteName runs2) ->
      Doc._id (details_of r1 o1)
        = repoName ++ lit "-" ++ remoteName ++ lit "-" ++ k /\
      Doc._id (details_of r1 o1) = Doc._id (details_of r2 o2)) /\
  (forall env p r m d db doc,
      In (EvUpdateOne db doc) (run_process env p r m d) ->
      exists url,
        git_said env (run_process env p r m d)
          (url_args (defaults (clock env []) p r m d))
          (repoPath (defaults (clock env []) p r m d)) url /\
        Doc._id doc
        = repo_name url ++ lit "-"
            ++ remoteName (defaults (clock env []) p r m d) ++ lit "-"
            ++ hash (Doc.seed doc)).
Proof.
  split.
  - intros repoName remoteName runs1 runs2 k r1 r2 o1 o2 H1 H2.
    apply walk_In in H1, H2. destruct H1 as [_ ->], H2 as [_ ->].
    split; reflexivity.
  - intros env p r m d db doc H. apply persisted_documents in H.
    destruct H as (_ & url & refs & runs & o & Hu & _ & _ & _ & Hw & Hd).
    exists url. split; [exact Hu|]. rewrite Hd. simpl.
    apply walk_In in Hw. destruct Hw as [_ Hw]. rewrite Hw. reflexivity.
Qed.

Lemma id_deterministic_witness :
  (Doc._id sample_doc = lit "repo.git-origin-c0ffee" /\
   Doc._id sample_doc
   = Doc._id (details_of
       {| repo := lit "repo.git"; remote := lit "origin"; hash := lit "c0ffee";
          branches := [lit "dev"; lit "main"] |}
       {| show_ae := []; show_an := []; show_ai := [];
          show_ce := []; show_cn := []; show_ci := [];
          show_s := lit "Add feature X"; show_b := []; show_numstat := [] |})) /\
  (exists url,
      git_said (sample_env None)
        (run_process (sample_env None) None None None None)
        (url_args (defaults (clock (sample_env None) []) None None None None))
        (repoPath (defaults (clock (sample_env None) []) None None None None))
        url /\
      Doc._id sample_doc
      = repo_name url ++ lit "-"
          ++ remoteName (defaults (clock (sample_env None) []) None None None None)
          ++ lit "-" ++ hash (Doc.seed sample_doc)).
Proof.
  split.
  - apply (proj1 id_deterministic (lit "repo.git") (lit "origin")
             [(lit "main", lit "c0ffee")]
             [(lit "dev", lit "c0ffee" ++ LF :: lit "beef");
              (lit "main", lit "c0ffee")]
             (lit "c0ffee")).
    + simpl. left. reflexivity.
    + simpl. left. reflexivity.
  - apply (proj2 id_deterministic (sample_env None) None None None None
             (lit "gitalyze-20261102T102030123Z") sample_doc).
    vm_compute. do 18 right. left. reflexivity.
Defined.

(** * Further properties of the code *)

(** ** Splitting, joining and trimming *)

Lemma split_nonempty (sep : N) (s : jstring) : split sep s <> [].
Proof.
  induction s as [|c s IH]; simpl; [discriminate|].
  destruct (c =? sep); [discriminate|].
  destruct (split sep s); discriminate.
Qed.

Lemma split_app_sep (sep : N) (a b : jstring) :
  split sep (a ++ sep :: b) = split sep a ++ split sep b.
Proof.
  induction a as [|c a IH]; simpl.
  - rewrite N.eqb_refl. reflexivity.
  - destruct (c =? sep); [rewrite IH; reflexivity|].
    rewrite IH. pose proof (split_nonempty sep a) as Hne.
    destruct (split sep a) as [|seg segs]; [congruence | reflexivity].
Qed.

Lemma join_split (sep : N) (s : jstring) : join [sep] (split sep s) = s.
Proof.
  induction s as [|c s IH]; simpl; [reflexivity|].
  pose proof (split_nonempty sep s) as Hne.
  destruct (c =? sep) eqn:E.
  - apply N.eqb_eq in E. subst c.
    destruct (split sep s) as [|x l]; [congruence|].
    change (join [sep] ([] :: x :: l)) with ([] ++ [sep] ++ join [sep] (x :: l)).
    rewrite IH. reflexivity.
  - destruct (split sep s) as [|seg segs]; [congruence|].
    destruct segs as [|seg' segs].
    + simpl in IH |- *. congruence.
    + change (join [sep] ((c :: seg) :: seg' :: segs))
        with (c :: (seg ++ [sep] ++ join [sep] (seg' :: segs))).
      change (join [sep] (seg :: seg' :: segs))
        with (seg ++ [sep] ++ join [sep] (seg' :: segs)) in IH.
      rewrite IH. reflexivity.
Qed.

Lemma split_no_sep (sep : N) (s : jstring) :
  Forall (fun seg => ~ In sep seg) (split sep s).
Proof.
  induction s as [|c s IH]; simpl; [repeat constructor; tauto|].
  destruct (c =? sep) eqn:E.
  - constructor; [simpl; tauto | exact IH].
  - apply N.eqb_neq in E. destruct (split sep s) as [|seg segs].
    + repeat constructor. simpl. intuition congruence.
    + inversion IH; subst. constructor; [|assumption].
      simpl. intuition congruence.
Qed.

Lemma split_without_sep (sep : N) (s : jstring) :
  ~ In sep s -> split sep s = [s].
Proof.
  induction s as [|c s IH]; simpl; [reflexivity|]. intros H.
  destruct (c =? sep) eqn:E; [apply N.eqb_eq in E; tauto|].
  rewrite IH by tauto. reflexivity.
Qed.

Lemma join_app (sep : jstring) (l1 l2 : list jstring) :
  l1 <> [] -> l2 <> [] ->
  join sep (l1 ++ l2) = join sep l1 ++ sep ++ join sep l2.
Proof.
  intros H1 H2. induction l1 as [|x l1 IH]; [congruence|].
  destruct l1 as [|y l1].
  - simpl. destruct l2; [congruence | reflexivity].
  - change (join sep ((x :: y :: l1) ++ l2))
      with (x ++ sep ++ join sep ((y :: l1) ++ l2)).
    rewrite IH by discriminate.
    change (join sep (x :: y :: l1)) with (x ++ sep ++ join sep (y :: l1)).
    rewrite <- !app_assoc. reflexivity.
Qed.

Lemma split_join (sep : N) (l : list jstring) :
  l <> [] -> Forall (fun seg => ~ In sep seg) l ->
  split sep (join [sep] l) = l.
Proof.
  intros Hne F. induction l as [|x l IH]; [congruence|].
  inversion F as [|? ? Hx Fl]; subst. destruct l as [|y l].
  - simpl. apply split_without_sep, Hx.
  - change (join [sep] (x :: y :: l)) with (x ++ sep :: join [sep] (y :: l)).
    rewrite split_app_sep, IH by (discriminate || assumption).
    rewrite split_without_sep by exact Hx. reflexivity.
Qed.

Lemma drop_while_split (p : N -> bool) (s : jstring) :
  exists pre, s = pre ++ drop_while p s /\ forallb p pre = true.
Proof.
  induction s as [|c s (pre & E & F)]; simpl.
  - exists []. auto.
  - destruct (p c) eqn:Ec.
    + exists (c :: pre). simpl. rewrite Ec, F. split; [congruence | reflexivity].
    + exists []. auto.
Qed.

Lemma drop_while_head (p : N -> bool) (s : jstring) (c : N) (t : jstring) :
  drop_while p s = c :: t -> p c = false.
Proof.
  induction s as [|x s IH]; simpl; [discriminate|].
  destruct (p x) eqn:E; [exact IH|]. intros H; inversion H; subst. exact E.
Qed.

Lemma drop_while_stable (p : N -> bool) (s : jstring) :
  (forall c t, s = c :: t -> p c = false) -> drop_while p s = s.
Proof.
  destruct s as [|c t]; simpl; [reflexivity|]. intros H.
  rewrite (H c t eq_refl). reflexivity.
Qed.

Lemma trim_clean_ends (s : jstring) : clean_ends (trim s).
Proof.
  unfold trim, clean_ends.
  destruct (drop_while_split is_space (rev (drop_while is_space s)))
    as (pre & E & F).
  set (t := drop_while is_space s) in *.
  set (u := drop_while is_space (rev t)) in *.
  split.
  - intros c s' H. destruct u as [|x u'] eqn:Eu.
    + simpl in H. discriminate.
    + assert (Et : t = rev u ++ rev pre).
      { rewrite <- (rev_involutive t), E, rev_app_distr, Eu. reflexivity. }
      rewrite <- Eu in H. rewrite H in Et. simpl in Et.
      unfold t in Et. apply drop_while_head in Et. exact Et.
  - intros s' c H. apply (f_equal (@rev N)) in H.
    rewrite rev_involutive, rev_app_distr in H. simpl in H.
    unfold u in H. apply drop_while_head in H. exact H.
Qed.

Lemma clean_ends_trim (s : jstring) : clean_ends s -> trim s = s.
Proof.
  intros [H1 H2]. unfold trim.
  rewrite (drop_while_stable is_space H1).
  rewrite drop_while_stable; [apply rev_involutive|].
  intros c t E. apply (H2 (rev t) c).
  rewrite <- (rev_involutive s), E. reflexivity.
Qed.

Lemma trim_idempotent (s : jstring) : trim (trim s) = trim s.
Proof. apply clean_ends_trim, trim_clean_ends. Qed.

(** ** The command runner (main.js, lines 7-9) *)

(** X1.  What [git] returns is the reply of the binary, trimmed: it never
    starts or ends with white space, so trimming it again changes nothing;
    the call leaves exactly one event; and a failure of the binary is thrown
    on unchanged. *)
Theorem git_returns_trimmed (env : environment) (args cwd : jstring)
  (tr0 tr : list event) (r : result jstring) :
  git env args cwd tr0 = (r, tr) ->
  tr = tr0 ++ [EvGit args cwd] /\
  (forall out, r = Ok out ->
     clean_ends out /\ trim out = out /\
     exists raw, git_reply env tr0 args cwd = Ok raw /\ out = trim raw) /\
  (forall e, r = Throw e -> git_reply env tr0 args cwd = Throw e).
Proof.
  unfold git, bind, call, ret.
  destruct (git_reply env tr0 args cwd) as [raw|e0]; intros H;
    inversion H; subst; (split; [reflexivity|]); split.
  - intros out E. inversion E; subst.
    split; [apply trim_clean_ends|]. split; [apply trim_idempotent|]. eauto.
  - intros e E. discriminate.
  - intros out E. discriminate.
  - intros e E. inversion E; subst. reflexivity.
Qed.

Lemma git_returns_trimmed_witness :
  [EvGit (lit "branch -r") (lit ".")] = [] ++ [EvGit (lit "branch -r") (lit ".")] /\
  (forall out,
     Ok (lit "refs/remotes/origin/HEAD" ++ LF :: lit "  refs/remotes/origin/main")
     = Ok out ->
     clean_ends out /\ trim out = out /\
     exists raw, git_reply (sample_env None) [] (lit "branch -r") (lit ".") = Ok raw /\
                 out = trim raw) /\
  (forall e,
     Ok (lit "refs/remotes/origin/HEAD" ++ LF :: lit "  refs/remotes/origin/main")
     = Throw e ->
     git_reply (sample_env None) [] (lit "branch -r") (lit ".") = Throw e).
Proof.
  apply (@git_returns_trimmed (sample_env None) (lit "branch -r") (lit ".") []).
  reflexivity.
Defined.

(** ** The repository name (main.js, line 35) *)

(** X2.  The repository name is what follows the last slash of the remote
    URL, or the whole URL when it has no slash: it holds no slash, the URL
    is a directory part (empty, or ending in a slash) followed by it, and it
    is the only string of which that is true.  Nothing else is removed: a
    ".git" ending stays in the name, and a URL that ends in a slash gives
    the empty name. *)
Theorem repo_name_is_last_segment :
  (forall url,
      ~ In SLASH (repo_name url) /\
      exists dir, url = dir ++ repo_name url /\
                  (dir = [] \/ exists d, dir = d ++ [SLASH])) /\
  (forall dir name,
      ~ In SLASH name -> (dir = [] \/ exists d, dir = d ++ [SLASH]) ->
      repo_name (dir ++ name) = name) /\
  repo_name (lit "https://example.org/team/repo.git") = lit "repo.git" /\
  repo_name (lit "git@example.org:team/repo") = lit "repo" /\
  repo_name (lit "https://example.org/team/repo/") = [].
Proof.
  split; [|split].
  - intros url. unfold repo_name.
    pose proof (split_nonempty SLASH url) as Hne.
    pose proof (split_no_sep SLASH url) as Hno.
    pose proof (join_split SLASH url) as Hj.
    destruct (exists_last Hne) as (init & x & E). rewrite E in *.
    rewrite last_last. split.
    + rewrite Forall_forall in Hno. apply Hno. apply in_or_app. right. left.
      reflexivity.
    + destruct init as [|y init].
      * exists []. simpl in Hj. split; [symmetry; exact Hj | left; reflexivity].
      * rewrite join_app in Hj by discriminate.
        exists (join [SLASH] (y :: init) ++ [SLASH]). split.
        -- rewrite <- Hj, <- app_assoc. reflexivity.
        -- right. eauto.
  - intros dir name Hn [->|(d & ->)]; unfold repo_name.
    + simpl. rewrite split_without_sep by exact Hn. reflexivity.
    + rewrite <- app_assoc. simpl. rewrite split_app_sep.
      rewrite (split_without_sep SLASH name Hn). apply last_last.
  - repeat split; reflexivity.
Qed.

(** ** The branch lister (main.js, lines 43-50) *)

(** X3.  On a ref line with at least four segments, the branch name is the
    text after the third slash, kept whole with the slashes it has: the
    line is its first three segments, a slash, and the branch name. *)
Theorem branch_name_follows_third_slash (l : jstring) :
  (4 <= length (split SLASH l))%nat ->
  l = join (lit "/") (firstn 3 (split SLASH l)) ++ lit "/" ++ branch_name l.
Proof.
  intros H. unfold branch_name, slice_from.
  pose proof (join_split SLASH l) as J.
  destruct (split SLASH l) as [|a [|b [|c [|d rest]]]]; simpl in H; try lia.
  rewrite <- join_app by discriminate. symmetry. exact J.
Qed.

Lemma branch_name_follows_third_slash_witness :
  lit "refs/remotes/origin/feature/x"
  = join (lit "/") (firstn 3 (split SLASH (lit "refs/remotes/origin/feature/x")))
      ++ lit "/" ++ branch_name (lit "refs/remotes/origin/feature/x").
Proof.
  apply (@branch_name_follows_third_slash (lit "refs/remotes/origin/feature/x")).
  simpl. lia.
Defined.

Lemma ref_of_split (remote b : jstring) :
  ~ In SLASH remote ->
  split SLASH (ref_of remote b)
  = lit "refs" :: lit "remotes" :: remote :: split SLASH b.
Proof.
  intros H. unfold ref_of.
  change (lit "refs/remotes/" ++ remote ++ lit "/" ++ b)
    with (lit "refs" ++ SLASH :: lit "remotes" ++ SLASH :: remote ++ SLASH :: b).
  rewrite !split_app_sep. rewrite (split_without_sep SLASH remote H).
  reflexivity.
Qed.

Lemma ref_of_one_line (remote b : jstring) :
  ~ In LF remote -> ~ In LF b -> ~ In LF (ref_of remote b).
Proof.
  intros Hr Hb. unfold ref_of. rewrite !in_app_iff. intros [H|[H|[H|H]]]; auto.
  - simpl in H. unfold LF in H. intuition discriminate.
  - simpl in H. unfold LF in H. intuition discriminate.
Qed.

Lemma ref_of_clean_ends (remote b : jstring) :
  clean_ends b -> clean_ends (ref_of remote b).
Proof.
  intros [_ Hb]. split.
  - intros c s' E. unfold ref_of in E. simpl in E. inversion E. reflexivity.
  - intros s' c E. destruct b as [|x b'].
    + unfold ref_of in E. rewrite app_nil_r, app_assoc in E.
      apply app_inj_tail in E. destruct E as [_ <-]. reflexivity.
    + assert (Hne : x :: b' <> []) by discriminate.
      destruct (exists_last Hne) as (b0 & c0 & E0). rewrite E0 in E, Hb.
      unfold ref_of in E. rewrite !app_assoc in E.
      apply app_inj_tail in E. destruct E as [_ <-]. apply (Hb b0 c0 eq_refl).
Qed.

Lemma ref_of_branch_name (remote b : jstring) :
  ~ In SLASH remote -> branch_name (ref_of remote b) = b.
Proof.
  intros H. unfold branch_name, slice_from. rewrite (ref_of_split remote b H).
  simpl. apply join_split.
Qed.

Lemma filter_keeps_all (A : Type) (f : A -> bool) (l : list A) :
  (forall x, In x l -> f x = true) -> filter f l = l.
Proof.
  intros H. apply forallb_filter_id, forallb_forall, H.
Qed.

(** X4.  Listing and reading back: from the listing git prints for the
    branches [bs] of the remote, one ref on each line, the Branch Lister
    returns exactly [bs], sorted, whatever slashes the branch names hold;
    from the empty listing it returns no branch.  The remote name must hold
    no slash (a slash in it would move the segment tested at index 2), and
    the names must be ones a line can carry; HEAD is not among them. *)
Theorem listing_round_trip (remote : jstring) (bs : list jstring) :
  ~ In SLASH remote -> ~ In LF remote -> Forall listable bs ->
  list_branches remote (listing_of remote bs) = sort bs.
Proof.
  intros Hs Hl F.
  assert (Hne : bs = [] \/ bs <> [])
    by (destruct bs; [left; reflexivity | right; discriminate]).
  destruct Hne as [->|Hne]; [reflexivity|].
  unfold list_branches, listing_of. f_equal.
  assert (Hlines : split LF (join [LF] (map (ref_of remote) bs))
                   = map (ref_of remote) bs).
  { apply split_join.
    - destruct bs; [congruence | discriminate].
    - rewrite Forall_map. eapply Forall_impl; [|exact F].
      intros b (Hb & _ & _). apply ref_of_one_line; assumption. }
  rewrite Hlines. rewrite map_trim_stable.
  2: { rewrite Forall_map. eapply Forall_impl; [|exact F].
       intros b (_ & Hb & _). apply clean_ends_trim, ref_of_clean_ends, Hb. }
  rewrite (filter_keeps_all (fun l => (4 <=? length (split SLASH l))%nat)).
  2: { intros l Hin. apply in_map_iff in Hin. destruct Hin as (b & <- & _).
       rewrite (ref_of_split remote b Hs). pose proof (split_nonempty SLASH b).
       destruct (split SLASH b); [congruence | reflexivity]. }
  rewrite (filter_keeps_all (fun l => index_is (split SLASH l) 2 remote)).
  2: { intros l Hin. apply in_map_iff in Hin. destruct Hin as (b & <- & _).
       cbv beta. rewrite (ref_of_split remote b Hs). unfold index_is. simpl.
       apply eqb_refl. }
  rewrite map_map. erewrite map_ext; [rewrite map_id|].
  2: { intros b. apply ref_of_branch_name, Hs. }
  apply filter_keeps_all. intros b Hin. rewrite Forall_forall in F.
  destruct (F b Hin) as (_ & _ & Hh). apply negb_true_iff, eqb_neq, Hh.
Qed.

Lemma listing_round_trip_witness :
  list_branches (lit "origin")
    (listing_of (lit "origin") [lit "main"; lit "feature/x"; lit "dev"])
  = sort [lit "main"; lit "feature/x"; lit "dev"].
Proof.
  apply (@listing_round_trip (lit "origin")
           [lit "main"; lit "feature/x"; lit "dev"]).
  - simpl. unfold SLASH. intuition discriminate.
  - simpl. unfold LF. intuition discriminate.
  - repeat constructor; simpl; try discriminate;
      try (unfold LF; intuition discriminate);
      try (intros c s' E; inversion E; reflexivity);
      intros s' c E;
      repeat (destruct s' as [|? s']; try discriminate;
              try (inversion E; subst; reflexivity)).
Defined.

Lemma filter_perm (A : Type) (f : A -> bool) (l1 l2 : list A) :
  Permutation l1 l2 -> Permutation (filter f l1) (filter f l2).
Proof.
  induction 1 as [|x l1 l2 _ IH|x y l|l1 l2 l3 _ IH1 _ IH2]; simpl.
  - constructor.
  - destruct (f x); [constructor|]; exact IH.
  - destruct (f x), (f y); try reflexivity. apply perm_swap.
  - etransitivity; eassumption.
Qed.

(** X5.  The branch list does not depend on the order in which git lists
    the refs: two listings with the same lines in any order give the same
    list. *)
Theorem list_branches_order_independent (remote out1 out2 : jstring) :
  Permutation (split LF out1) (split LF out2) ->
  list_branches remote out1 = list_branches remote out2.
Proof.
  intros P. unfold list_branches.
  apply sorted_perm_unique; try apply sort_sorted.
  rewrite <- !sort_perm.
  apply filter_perm, Permutation_map, filter_perm, filter_perm, Permutation_map, P.
Qed.

Lemma list_branches_order_independent_witness :
  list_branches (lit "origin")
    (lit "refs/remotes/origin/main" ++ LF :: lit "refs/remotes/origin/dev")
  = list_branches (lit "origin")
      (lit "refs/remotes/origin/dev" ++ LF :: lit "refs/remotes/origin/main").
Proof.
  apply (@list_branches_order_independent (lit "origin")
           (lit "refs/remotes/origin/main" ++ LF :: lit "refs/remotes/origin/dev")
           (lit "refs/remotes/origin/dev" ++ LF :: lit "refs/remotes/origin/main")).
  apply perm_swap.
Defined.

(** ** The history walker (main.js, lines 55-75) *)

Lemma branches_of_length (h : jstring) (runs : list (jstring * jstring)) :
  length (branches_of h runs) = occurrences h (all_hashes runs).
Proof.
  unfold branches_of, all_hashes, occurrences.
  induction runs as [|[b out] runs IH]; simpl; [reflexivity|].
  rewrite length_app, repeat_length, filter_app, length_app, IH. reflexivity.
Qed.

(** X6.  Looking a hash up after the walk: there is no record exactly when
    no output lists the hash; otherwise the record holds the repository
    name, the remote name, the hash itself and, in the order of the walk,
    each branch once for every time its output lists the hash.  Nothing is
    deduplicated: the branch list is as long as the number of times the
    hash was read. *)
Theorem walk_lookup (repoName remoteName : jstring)
  (runs : list (jstring * jstring)) (h : jstring) :
  (map_get h (walk repoName remoteName runs) = None <->
   forall b out, In (b, out) runs -> ~ In h (rev_hashes out)) /\
  (forall r, map_get h (walk repoName remoteName runs) = Some r ->
     r = {| repo := repoName; remote := remoteName; hash := h;
            branches := branches_of h runs |} /\
     length (branches r) = occurrences h (all_hashes runs)).
Proof.
  rewrite walk_get. split.
  - destruct (branches_of h runs) as [|x bs] eqn:E; simpl.
    + split; [|reflexivity]. intros _ b out I Hh.
      assert (Hb : In b (branches_of h runs)) by (apply branches_of_In; eauto).
      rewrite E in Hb. exact Hb.
    + split; [discriminate|]. intros H. exfalso.
      assert (Hx : In x (branches_of h runs)) by (rewrite E; left; reflexivity).
      apply branches_of_In in Hx. destruct Hx as (out & I & Hh).
      exact (H x out I Hh).
  - intros r H. pose proof (branches_of_length h runs) as L.
    destruct (branches_of h runs); [discriminate|].
    simpl in H. inversion H. split; [reflexivity | exact L].
Qed.

Lemma existsb_eqb_In (x : jstring) (l : list jstring) :
  existsb (JsString.eqb x) l = true <-> In x l.
Proof.
  rewrite existsb_exists. split.
  - intros (y & I & E). apply eqb_eq in E. subst. exact I.
  - intros I. exists x. split; [exact I | apply eqb_refl].
Qed.

Lemma map_has_keys (k : jstring) (m : commit_map) :
  map_has k m = existsb (JsString.eqb k) (map fst m).
Proof.
  induction m as [|[k' v] m IH]; simpl; [reflexivity|]. rewrite IH. reflexivity.
Qed.

Lemma map_keys_set_absent (k : jstring) (v : commit_record) (m : commit_map) :
  map_has k m = false -> map fst (map_set k v m) = map fst m ++ [k].
Proof.
  intros H. apply map_keys_set_new. rewrite map_has_get in H.
  destruct (map_get k m); [discriminate | reflexivity].
Qed.

Lemma visit_keys (repoName remoteName b c : jstring) (m : commit_map) :
  map fst (visit repoName remoteName b m c)
  = if existsb (JsString.eqb c) (map fst m) then map fst m
    else map fst m ++ [c].
Proof.
  unfold visit. rewrite <- map_has_keys. destruct (map_has c m) eqn:E.
  - apply map_keys_push.
  - apply map_keys_set_absent, E.
Qed.

Lemma filter_filter_and (A : Type) (f g : A -> bool) (l : list A) :
  filter f (filter g l) = filter (fun x => g x && f x) l.
Proof.
  induction l as [|x l IH]; simpl; [reflexivity|].
  destruct (g x); simpl; [destruct (f x)|]; rewrite IH; reflexivity.
Qed.

(** The walk is one pass over the stream of (branch, hash) pairs. *)
Lemma walk_as_stream (repoName remoteName : jstring)
  (runs : list (jstring * jstring)) (m : commit_map) :
  fold_left (fun m run => walk_branch repoName remoteName m (fst run) (snd run))
    runs m
  = fold_left (fun m bh => visit repoName remoteName (fst bh) m (snd bh))
      (hash_stream runs) m.
Proof.
  revert m; induction runs as [|[b out] runs IH]; intros m; simpl;
    [reflexivity|].
  unfold hash_stream in *. simpl. rewrite fold_left_app, <- IH. f_equal.
  unfold walk_branch. generalize (rev_hashes out) as hs. clear.
  intros hs; revert m; induction hs as [|c hs IH]; intros m; simpl;
    [reflexivity | apply IH].
Qed.

Lemma hash_stream_hashes (runs : list (jstring * jstring)) :
  map snd (hash_stream runs) = all_hashes runs.
Proof.
  unfold hash_stream, all_hashes.
  induction runs as [|[b out] runs IH]; simpl; [reflexivity|].
  rewrite map_app, IH, map_map. simpl. rewrite map_id. reflexivity.
Qed.

Lemma stream_keys (repoName remoteName : jstring)
  (stream : list (jstring * jstring)) :
  forall m : commit_map,
  map fst (fold_left (fun m bh => visit repoName remoteName (fst bh) m (snd bh))
             stream m)
  = map fst m
    ++ filter (fun x => negb (existsb (JsString.eqb x) (map fst m)))
         (first_occurrences (map snd stream)).
Proof.
  induction stream as [|[b c] stream IH]; intros m; simpl.
  - rewrite app_nil_r. reflexivity.
  - rewrite IH, visit_keys. destruct (existsb (JsString.eqb c) (map fst m)) eqn:E.
    + simpl. f_equal. rewrite filter_filter_and. apply filter_ext. intros x.
      destruct (JsString.eqb x c) eqn:Ex; [|reflexivity].
      apply eqb_eq in Ex. subst x. rewrite E. reflexivity.
    + simpl. rewrite <- app_assoc. simpl. f_equal. f_equal.
      rewrite filter_filter_and. apply filter_ext. intros x.
      rewrite existsb_app. simpl. rewrite orb_false_r, negb_orb.
      apply andb_comm.
Qed.

Lemma first_occurrences_In (l : list jstring) (x : jstring) :
  In x (first_occurrences l) <-> In x l.
Proof.
  induction l as [|h l IH]; simpl; [tauto|].
  rewrite filter_In, IH, negb_true_iff, eqb_neq.
  destruct (JsString.eqb x h) eqn:E.
  - apply eqb_eq in E. subst. tauto.
  - apply eqb_neq in E. split; [intros [H|[H _]]; auto | intros [H|H]; auto].
Qed.

Lemma first_occurrences_NoDup (l : list jstring) : NoDup (first_occurrences l).
Proof.
  induction l as [|h l IH]; simpl; constructor.
  - rewrite filter_In, negb_true_iff, eqb_neq. tauto.
  - apply NoDup_filter, IH.
Qed.

(** X7.  The order of the map, which is the order in which commits are
    fetched and stored: its keys are the hashes read during the walk, each
    once, in the order of their first occurrence.  So the size of the map,
    which the script prints and gives the progress bar as its total, is the
    number of distinct hashes read. *)
Theorem walk_keys_first_occurrences (repoName remoteName : jstring)
  (runs : list (jstring * jstring)) :
  map fst (walk repoName remoteName runs) = first_occurrences (all_hashes runs) /\
  length (walk repoName remoteName runs)
    = length (first_occurrences (all_hashes runs)) /\
  NoDup (first_occurrences (all_hashes runs)) /\
  (forall h, In h (first_occurrences (all_hashes runs)) <->
             exists b out, In (b, out) runs /\ In h (rev_hashes out)).
Proof.
  assert (K : map fst (walk repoName remoteName runs)
              = first_occurrences (all_hashes runs)).
  { unfold walk. rewrite walk_as_stream, stream_keys, hash_stream_hashes.
    simpl. apply filter_keeps_all. reflexivity. }
  split; [exact K|]. split; [rewrite <- K; symmetry; apply length_map|].
  split; [apply first_occurrences_NoDup|].
  intros h. rewrite first_occurrences_In. unfold all_hashes.
  rewrite in_flat_map. split.
  - intros ([b out] & I & H). eauto.
  - intros (b & out & I & H). exists (b, out). auto.
Qed.

Example walk_key_order :
  map fst (walk (lit "repo.git") (lit "origin")
             [(lit "dev", lit "b2" ++ LF :: lit "a1");
              (lit "main", lit "c3" ++ LF :: lit "a1" ++ LF :: lit "b2")])
  = [lit "b2"; lit "a1"; lit "c3"].
Proof. reflexivity. Qed.

Lemma visit_keeps_record (repoName remoteName b c h : jstring)
  (m : commit_map) (r : commit_record) :
  map_get h m = Some r ->
  map_get h (visit repoName remoteName b m c)
  = Some {| repo := repo r; remote := remote r; hash := hash r;
            branches := branches r
                        ++ repeat b (if JsString.eqb h c then 1 else 0)%nat |}.
Proof.
  intros H. unfold visit. rewrite map_has_get.
  destruct (map_get c m) as [v|] eqn:Ec.
  - rewrite map_get_push. destruct (JsString.eqb h c) eqn:E.
    + apply eqb_eq in E. subst c. rewrite Ec. rewrite H in Ec.
      inversion Ec; subst. reflexivity.
    + rewrite H. simpl. rewrite app_nil_r. destruct r; reflexivity.
  - rewrite (map_get_set_new _ h _ _ Ec). destruct (JsString.eqb h c) eqn:E.
    + apply eqb_eq in E. subst c. congruence.
    + rewrite H. simpl. rewrite app_nil_r. destruct r; reflexivity.
Qed.

(** X8.  One turn of the walk only adds: from any map, the keys already
    there keep their places and new keys come after them; a record already
    there keeps its repository name, remote name and hash, and its branch
    list is extended at the end by the branch, once for every time the
    output lists its hash.  No record is removed or replaced. *)
Theorem walk_branch_only_appends (repoName remoteName : jstring)
  (m : commit_map) (b out : jstring) :
  (exists new,
      map fst (walk_branch repoName remoteName m b out) = map fst m ++ new) /\
  (forall h r, map_get h m = Some r ->
     map_get h (walk_branch repoName remoteName m b out)
     = Some {| repo := repo r; remote := remote r; hash := hash r;
               branches := branches r
                           ++ repeat b (occurrences h (rev_hashes out)) |}).
Proof.
  unfold walk_branch. generalize (rev_hashes out) as hs. intros hs.
  revert m. induction hs as [|c hs IH]; intros m; simpl.
  - split; [exists []; rewrite app_nil_r; reflexivity|].
    intros h r H. rewrite H. unfold occurrences. simpl. rewrite app_nil_r.
    destruct r; reflexivity.
  - destruct (IH (visit repoName remoteName b m c)) as [(new & K) G]. split.
    + rewrite K, visit_keys.
      destruct (existsb (JsString.eqb c) (map fst m)); [eauto|].
      rewrite <- app_assoc. eauto.
    + intros h r H.
      rewrite (G _ _ (@visit_keeps_record repoName remoteName b c h m r H)).
      simpl. rewrite occurrences_cons, repeat_app, app_assoc. reflexivity.
Qed.

(** ** Identifiers within one run (main.js, lines 67-71 and 102) *)

Lemma NoDup_map_injective (A B : Type) (f : A -> B) (l : list A) :
  (forall x y, f x = f y -> x = y) -> NoDup l -> NoDup (map f l).
Proof.
  intros Hf. induction 1 as [|x l Hx _ IH]; simpl; constructor; [|exact IH].
  rewrite in_map_iff. intros (y & E & I). apply Hf in E. subst. tauto.
Qed.

Lemma walk_ids (repoName remoteName : jstring)
  (runs : list (jstring * jstring)) :
  map (fun entry => make_id (snd entry)) (walk repoName remoteName runs)
  = map (fun k => repoName ++ lit "-" ++ remoteName ++ lit "-" ++ k)
      (map fst (walk repoName remoteName runs)).
Proof.
  rewrite map_map. apply map_ext_in. intros [k r] I. apply walk_In in I.
  destruct I as [_ ->]. reflexivity.
Qed.

Lemma upsert_fresh (doc : Doc.t) (coll : list Doc.t) :
  ~ In (Doc._id doc) (map Doc._id coll) -> upsert doc coll = coll ++ [doc].
Proof.
  induction coll as [|d coll IH]; simpl; [reflexivity|]. intros H.
  destruct (JsString.eqb (Doc._id d) (Doc._id doc)) eqn:E.
  - apply eqb_eq in E. tauto.
  - rewrite IH by tauto. reflexivity.
Qed.

Lemma upsert_all_fresh (docs : list Doc.t) :
  forall coll : list Doc.t,
  NoDup (map Doc._id coll ++ map Doc._id docs) ->
  fold_left (fun c d => upsert d c) docs coll = coll ++ docs.
Proof.
  induction docs as [|d docs IH]; intros coll ND; simpl.
  - rewrite app_nil_r. reflexivity.
  - simpl in ND. rewrite upsert_fresh.
    + rewrite IH; [rewrite <- app_assoc; reflexivity|].
      rewrite map_app. simpl. rewrite <- app_assoc. exact ND.
    + apply NoDup_remove_2 in ND. intros I. apply ND, in_or_app. auto.
Qed.

(** X9.  Within one run the _id tells the commits apart: the records of a
    walk have pairwise distinct _ids (the repository and remote names are
    the same for all, and the hashes differ).  So when the documents of a
    run are upserted into an empty collection, none replaces another: the
    collection ends up holding every one of them, in the order of the
    map. *)
Theorem run_ids_distinct (repoName remoteName : jstring)
  (runs : list (jstring * jstring)) :
  NoDup (map (fun entry => make_id (snd entry)) (walk repoName remoteName runs)) /\
  (forall o : jstring -> show_output,
     fold_left (fun c d => upsert d c)
       (documents_of (walk repoName remoteName runs) o) []
     = documents_of (walk repoName remoteName runs) o).
Proof.
  assert (ND : NoDup (map (fun entry => make_id (snd entry))
                        (walk repoName remoteName runs))).
  { rewrite walk_ids. apply NoDup_map_injective; [|apply walk_keys_NoDup].
    intros x y E. rewrite !app_assoc in E. apply app_inv_head in E. exact E. }
  split; [exact ND|]. intros o. rewrite upsert_all_fresh; [reflexivity|].
  simpl. unfold documents_of. rewrite map_map. simpl. exact ND.
Qed.

(** ** Diff statistics (main.js, lines 105-120) *)

Lemma drop_while_all (p : N -> bool) (s : jstring) :
  forallb p s = true -> drop_while p s = [].
Proof.
  induction s as [|c s IH]; simpl; [reflexivity|].
  rewrite andb_true_iff. intros [Hc Hs]. rewrite Hc. exact (IH Hs).
Qed.

Lemma trim_blank (s : jstring) : forallb is_space s = true -> trim s = [].
Proof. intros H. unfold trim. rewrite (drop_while_all _ _ H). reflexivity. Qed.

Lemma split_segment_chars (sep : N) (s seg : jstring) (c : N) :
  In seg (split sep s) -> In c seg -> In c s.
Proof.
  revert seg; induction s as [|x s IH]; intros seg; simpl.
  - intros [<-|[]] [].
  - destruct (x =? sep).
    + intros [<-|H] Hc; [destruct Hc | right; eapply IH; eauto].
    + pose proof (split_nonempty sep s) as Hne.
      destruct (split sep s) as [|seg0 segs]; [congruence|].
      intros [<-|H] Hc.
      * destruct Hc as [->|Hc]; [left; reflexivity|].
        right. apply (IH seg0); [left; reflexivity | exact Hc].
      * right. apply (IH seg); [right; exact H | exact Hc].
Qed.

Lemma filter_drops_all (A : Type) (f : A -> bool) (l : list A) :
  (forall x, In x l -> f x = false) -> filter f l = [].
Proof.
  induction l as [|x l IH]; simpl; [reflexivity|]. intros H.
  rewrite (H x (or_introl eq_refl)). apply IH. intros y I. apply H. auto.
Qed.

Lemma stat_lines_app (a b : jstring) :
  stat_lines (a ++ LF :: b) = stat_lines a ++ stat_lines b.
Proof.
  unfold stat_lines. rewrite split_app_sep, map_app, filter_app. reflexivity.
Qed.

(** X10.  The statistics of an output are those of its lines, one after the
    other: parsing two outputs joined by a line feed gives the records of
    the first followed by the records of the second, and the totals of
    records put together continue the sums of the first with the counts of
    the second.  They are the sums of the two totals whenever the exact sum
    is at most [2^53]; beyond, they need not be: 2^53 followed by 1 and 1
    stays 2^53, while 2^53 and the total 2 add to 2^53 + 2.  An output with
    nothing but white space, such as the empty output of a commit that
    changes no file, gives no record and the totals 0 and 0. *)
Theorem numstat_concatenation :
  (forall a b, parse_numstat (a ++ LF :: b) = parse_numstat a ++ parse_numstat b) /\
  (forall f1 f2,
      total_insertions (sum_totals (f1 ++ f2))
        = fold_left js_add (map (fun e => or_zero (insertions e)) f2)
            (total_insertions (sum_totals f1)) /\
      total_deletions (sum_totals (f1 ++ f2))
        = fold_left js_add (map (fun e => or_zero (deletions e)) f2)
            (total_deletions (sum_totals f1))) /\
  (forall f1 f2,
      (forall S, exact_total insertions (f1 ++ f2) = Some S -> S <= 2 ^ 53 ->
         total_insertions (sum_totals (f1 ++ f2))
         = js_add (total_insertions (sum_totals f1))
                  (total_insertions (sum_totals f2))) /\
      (forall S, exact_total deletions (f1 ++ f2) = Some S -> S <= 2 ^ 53 ->
         total_deletions (sum_totals (f1 ++ f2))
         = js_add (total_deletions (sum_totals f1))
                  (total_deletions (sum_totals f2)))) /\
  (let big := {| path := None; insertions := Some (Finite (2 ^ 53));
                 deletions := None |} in
   let one := {| path := None; insertions := Some (Finite 1);
                 deletions := None |} in
   total_insertions (sum_totals ([big] ++ [one; one])) = Finite (2 ^ 53) /\
   js_add (total_insertions (sum_totals [big]))
          (total_insertions (sum_totals [one; one])) = Finite (2 ^ 53 + 2)) /\
  (forall s, forallb is_space s = true ->
      parse_numstat s = [] /\
      sum_totals (parse_numstat s)
        = {| total_insertions := Finite 0; total_deletions := Finite 0 |}).
Proof.
  split; [|split; [|split; [|split]]].
  - intros a b. unfold parse_numstat. rewrite stat_lines_app, !map_app.
    reflexivity.
  - intros f1 f2. unfold sum_totals; cbn [total_insertions total_deletions].
    rewrite !fold_left_app, !fold_left_js_add. split; reflexivity.
  - intros f1 f2.
    destruct (sum_totals_exact (f1 ++ f2)) as [Hi Hd].
    destruct (sum_totals_exact f1) as [Hi1 Hd1].
    destruct (sum_totals_exact f2) as [Hi2 Hd2].
    split; intros S E B; pose proof E as E';
      apply exact_total_app in E'; destruct E' as (S1 & S2 & E1 & E2 & ->).
    + rewrite (Hi _ E B), (Hi1 _ E1), (Hi2 _ E2) by lia.
      cbn [js_add]. symmetry. apply number_of_small, B.
    + rewrite (Hd _ E B), (Hd1 _ E1), (Hd2 _ E2) by lia.
      cbn [js_add]. symmetry. apply number_of_small, B.
  - split; vm_compute; reflexivity.
  - intros s H.
    assert (E : stat_lines s = []).
    { unfold stat_lines. apply filter_drops_all. intros l I.
      apply in_map_iff in I. destruct I as (raw & <- & I).
      rewrite trim_blank; [reflexivity|].
      apply forallb_forall. intros c Hc. rewrite forallb_forall in H.
      apply H. eapply split_segment_chars; eauto. }
    unfold parse_numstat. rewrite E. split; reflexivity.
Qed.

(** ** Defaults (main.js, lines 13-27) *)

Lemma or_default_nonempty (v : option jstring) (d : jstring) :
  d <> [] -> or_default v d <> [].
Proof.
  intros Hd. unfold or_default. destruct v as [[|c s]|]; simpl;
    try exact Hd. discriminate.
Qed.

Lemma or_default_stable (v : option jstring) (d d' : jstring) :
  d <> [] -> or_default (Some (or_default v d)) d' = or_default v d.
Proof.
  intros Hd. pose proof (or_default_nonempty v Hd) as H.
  destruct (or_default v d) as [|c s]; [congruence | reflexivity].
Qed.

(** X11.  After the defaults no parameter is missing or empty: repository
    path, remote name, connection URI and database name are all non-empty
    strings.  The completion is stable: given its own results as
    parameters, at any later time, it returns them unchanged.  A database
    name made by default holds no dot. *)
Theorem defaults_complete_and_stable
  (now : jstring) (p r m d : option jstring) :
  (repoPath (defaults now p r m d) <> [] /\
   remoteName (defaults now p r m d) <> [] /\
   mongoUri (defaults now p r m d) <> [] /\
   mongoDb (defaults now p r m d) <> []) /\
  (forall now',
     defaults now' (Some (repoPath (defaults now p r m d)))
       (Some (remoteName (defaults now p r m d)))
       (Some (mongoUri (defaults now p r m d)))
       (Some (mongoDb (defaults now p r m d)))
     = defaults now p r m d) /\
  (falsy d = true -> ~ In 46 (mongoDb (defaults now p r m d))).
Proof.
  split; [|split].
  - unfold defaults; simpl.
    repeat split; apply or_default_nonempty; discriminate.
  - intros now'. unfold defaults; simpl.
    rewrite !or_default_stable by discriminate. reflexivity.
  - intros H. unfold defaults; cbn [mongoDb]. rewrite (or_default_falsy _ _ H).
    rewrite in_app_iff. intros [I|I].
    + simpl in I. intuition discriminate.
    + apply strip_punctuation_In in I. destruct I as (_ & _ & _ & I). congruence.
Qed.

(** ** The shape of a run (main.js, lines 29-139 and 174-179) *)

Section ShapeProofs.

Variable env : environment.

Lemma acknowledged_app (a b pre : list event) :
  acknowledged env pre (a ++ b)
  = acknowledged env pre a ++ acknowledged env (pre ++ a) b.
Proof.
  revert pre; induction a as [|ev a IH]; intros pre; simpl.
  - rewrite app_nil_r. reflexivity.
  - rewrite IH, <- !app_assoc. reflexivity.
Qed.

Lemma count_events_app (p : event -> bool) (a b : list event) :
  count_events p (a ++ b) = (count_events p a + count_events p b)%nat.
Proof. unfold count_events. rewrite filter_app, length_app. reflexivity. Qed.

Lemma show_gits_facts (cfg : config) (gits pre : list event) :
  forallb (show_git cfg) gits = true ->
  acknowledged env pre gits = [] /\
  updates gits = [] /\
  count_events is_tick gits = 0%nat /\
  count_events is_git gits = length gits /\
  forallb (store_event cfg) gits = true.
Proof.
  revert pre; induction gits as [|ev gits IH]; intros pre H; simpl in *.
  - repeat split; reflexivity.
  - apply andb_true_iff in H. destruct H as [Hev H].
    destruct (IH (pre ++ [ev]) H) as (A & U & T & G & S).
    destruct ev; simpl in Hev; try discriminate.
    unfold count_events in *. simpl. rewrite A, U, T, G, S, Hev.
    repeat split; reflexivity.
Qed.

Lemma shows_ret (cfg : config) (A : Type) (a : A) : shows cfg 0 (ret a).
Proof.
  intros tr0 r tr H. inversion H; subst. exists []. rewrite app_nil_r.
  repeat split; auto.
Qed.

Lemma shows_git (cfg : config) (args : jstring) :
  starts_with (lit "show") args = true ->
  shows cfg 1 (git env args (repoPath cfg)).
Proof.
  intros Hs tr0 r tr H. apply git_inv in H. destruct H as [-> _].
  exists [EvGit args (repoPath cfg)]. split; [reflexivity|]. split.
  - cbn [forallb show_git]. rewrite eqb_refl, Hs. reflexivity.
  - split; [simpl; lia | reflexivity].
Qed.

Lemma shows_bind (cfg : config) (n1 n2 : nat) (A B : Type) (m : M A)
  (k : A -> M B) :
  shows cfg n1 m -> (forall a, shows cfg n2 (k a)) ->
  shows cfg (n1 + n2) (bind m k).
Proof.
  intros Hm Hk tr0 r tr H. apply bind_inv in H.
  destruct H as [(a & tr1 & H1 & H2) | (e & H1 & ->)].
  - destruct (Hm _ _ _ H1) as (g1 & -> & F1 & L1 & E1).
    destruct (Hk a _ _ _ H2) as (g2 & -> & F2 & L2 & E2).
    exists (g1 ++ g2). rewrite forallb_app, F1, F2, length_app, <- app_assoc.
    specialize (E1 a eq_refl). repeat split; auto; try lia.
    intros b Eb. rewrite (E2 b Eb). lia.
  - destruct (Hm _ _ _ H1) as (g1 & -> & F1 & L1 & E1).
    exists g1. repeat split; auto; try lia. intros b Eb. discriminate.
Qed.

Lemma shows_fetch_show (cfg : config) (commitHash : jstring) :
  shows cfg 9 (fetch_show env commitHash (repoPath cfg)).
Proof.
  unfold fetch_show, show.
  change 9%nat with (1 + (1 + (1 + (1 + (1 + (1 + (1 + (1 + (1 + 0)))))))))%nat.
  repeat (apply shows_bind; [apply shows_git; reflexivity | intros ?]).
  apply shows_ret.
Qed.

(** One commit: its nine queries, then the upsert, then the tick; the run
    of the commit stops at the first call that fails. *)
Lemma store_commit_shape (cfg : config) (entry : jstring * commit_record)
  (tr1 tr : list event) (r : result unit) :
  store_commit env cfg entry tr1 = (r, tr) ->
  exists gits,
    forallb (show_git cfg) gits = true /\ (length gits <= 9)%nat /\
    ((exists e, r = Throw e /\ tr = tr1 ++ gits) \/
     (exists o, length gits = 9%nat /\
        ((r = Ok tt /\
          update_reply env (tr1 ++ gits) (mongoDb cfg)
            (details_of (snd entry) o) = Ok tt /\
          tr = tr1 ++ gits
                 ++ [EvUpdateOne (mongoDb cfg) (details_of (snd entry) o);
                     EvTick]) \/
         (exists e, r = Throw e /\
          update_reply env (tr1 ++ gits) (mongoDb cfg)
            (details_of (snd entry) o) = Throw e /\
          tr = tr1 ++ gits
                 ++ [EvUpdateOne (mongoDb cfg) (details_of (snd entry) o)])))).
Proof.
  unfold store_commit. intros H. apply bind_inv in H.
  destruct H as [(o & tr2 & H1 & H2) | (e & H1 & ->)];
    destruct (shows_fetch_show cfg (fst entry) _ H1) as (gits & -> & F & L & E);
    exists gits; (split; [exact F|]); (split; [exact L|]).
  - right. exists o. split; [exact (E o eq_refl)|].
    unfold bind, call, emit in H2.
    destruct (update_reply env (tr1 ++ gits) (mongoDb cfg)
                (details_of (snd entry) o)) as [[]|e] eqn:Er;
      inversion H2; subst.
    + left. rewrite <- !app_assoc. auto.
    + right. exists e. rewrite <- !app_assoc. auto.
  - left. eauto.
Qed.

(** The second loop: the commits are stored in the order of the map; each
    stored commit has its upsert acknowledged and one tick; the loop stops
    at the first failure, with the commits before it stored. *)
Lemma store_loop_shape (cfg : config) (commits : commit_map) :
  forall (tr1 tr : list event) (r : result unit),
  for_each commits (store_commit env cfg) tr1 = (r, tr) ->
  exists st done rest os,
    tr = tr1 ++ st /\
    forallb (store_event cfg) st = true /\
    commits = done ++ rest /\ length os = length done /\
    acknowledged env tr1 st = map document_of (combine done os) /\
    count_events is_tick st = length done /\
    (length (updates st) <= length done + 1)%nat /\
    (r = Ok tt ->
       rest = [] /\ length (updates st) = length commits /\
       count_events is_git st = (9 * length commits)%nat) /\
    (forall e, r = Throw e -> rest <> []).
Proof.
  induction commits as [|entry commits IH]; intros tr1 tr r H; simpl in H.
  - inversion H; subst. exists [], [], [], []. rewrite app_nil_r.
    do 6 (split; [reflexivity|]). split; [simpl; lia|].
    split; [intros _; repeat split; reflexivity | intros e E; discriminate].
  - apply bind_inv in H. destruct H as [([] & tr2 & H1 & H2) | (e & H1 & ->)];
      apply store_commit_shape in H1;
      destruct H1 as (gits & F & L & [(e1 & E1 & ->) |
        (o & L9 & [(Eok & R & ->) | (e1 & E1 & R & ->)])]);
      try discriminate;
      destruct (show_gits_facts cfg gits tr1 F) as (A & U & T & G & S).
    + destruct (IH _ _ _ H2) as (st & done & rest & os & -> & Fs & -> & Lo & Ak
                                 & Tk & Up & Hok & Hth).
      exists (gits ++ [EvUpdateOne (mongoDb cfg) (details_of (snd entry) o);
                       EvTick] ++ st),
             (entry :: done), rest, (o :: os).
      split; [rewrite <- !app_assoc; reflexivity|].
      split; [rewrite !forallb_app, S, Fs; simpl; rewrite eqb_refl; reflexivity|].
      split; [reflexivity|]. split; [simpl; congruence|].
      split.
      { rewrite !acknowledged_app, A. simpl. rewrite R. simpl.
        rewrite <- app_assoc, Ak. reflexivity. }
      split; [rewrite !count_events_app, T, Tk; reflexivity|].
      split; [rewrite !updates_app, U; simpl; lia|].
      split.
      { intros E. destruct (Hok E) as (-> & Hu & Hg).
        split; [reflexivity|]. rewrite !updates_app, U, !count_events_app, G.
        rewrite app_nil_r in *. simpl. rewrite Hu, Hg, L9.
        unfold count_events. simpl. split; lia. }
      exact Hth.
    + exists gits, [], (entry :: commits), []. rewrite U, A, T.
      do 2 (split; [auto|]). do 4 (split; [reflexivity|]).
      split; [simpl; lia|]. split; discriminate.
    + inversion E1; subst e1.
      exists (gits ++ [EvUpdateOne (mongoDb cfg) (details_of (snd entry) o)]),
             [], (entry :: commits), [].
      split; [reflexivity|].
      split; [rewrite forallb_app, S; simpl; rewrite eqb_refl; reflexivity|].
      split; [reflexivity|]. split; [reflexivity|].
      split; [rewrite acknowledged_app, A; simpl; rewrite R; reflexivity|].
      split; [rewrite count_events_app, T; reflexivity|].
      split; [rewrite updates_app, U; simpl; lia|].
      split; [discriminate | discriminate].
Qed.

(** The first loop asks git once per branch, in order, and stops at the
    first failure. *)
Lemma walk_loop_calls (cfg : config) (repoName : jstring)
  (branches : list jstring) :
  forall (m0 : commit_map) (tr0 tr : list event) (r : result commit_map),
  fold_M (walk_step env cfg repoName) branches m0 tr0 = (r, tr) ->
  exists called rest,
    branches = called ++ rest /\
    tr = tr0 ++ map (revlist_event cfg) called /\
    (forall commits, r = Ok commits -> rest = []).
Proof.
  induction branches as [|b bs IH]; intros m0 tr0 tr r H; simpl in H.
  - inversion H; subst. exists [], []. simpl. rewrite app_nil_r. auto.
  - apply bind_inv in H. destruct H as [(a & tr1 & H1 & H2) | (e & H1 & ->)];
      unfold walk_step in H1; apply bind_inv in H1;
      destruct H1 as [(out & tr1' & G & R) | (e' & G & C)];
      try discriminate; apply git_inv in G; destruct G as [-> _].
    + inversion R; subst.
      destruct (IH _ _ _ _ H2) as (called & rest & -> & -> & K).
      exists (b :: called), rest. rewrite <- app_assoc. auto.
    + exists [b], bs. repeat split; auto. intros commits E; discriminate.
Qed.

Lemma revlist_events_facts (cfg : config) (called : list jstring) :
  forallb (walk_event cfg) (map (revlist_event cfg) called) = true /\
  count_events is_git (map (revlist_event cfg) called) = length called.
Proof.
  induction called as [|b called [IH1 IH2]]; [split; reflexivity|].
  split.
  - cbn [map forallb]. rewrite IH1. unfold revlist_event at 1.
    cbn [walk_event]. rewrite eqb_refl. reflexivity.
  - unfold count_events in *. simpl. rewrite IH2. reflexivity.
Qed.

Lemma walk_event_git (cfg : config) (args : jstring) :
  starts_with (lit "show") args = false ->
  walk_event cfg (EvGit args (repoPath cfg)) = true.
Proof. intros H. cbn [walk_event]. rewrite eqb_refl, H. reflexivity. Qed.

Lemma analyze_shape (cfg : config) (tr0 tr : list event) (r : result unit) :
  analyze env cfg tr0 = (r, tr) ->
  (exists e pre, r = Throw e /\ tr = tr0 ++ pre /\
                 forallb (walk_event cfg) pre = true) \/
  (exists url refs runs pre st done rest os,
     git_said env tr (url_args cfg) (repoPath cfg) url /\
     git_said env tr branch_args (repoPath cfg) refs /\
     map fst runs = list_branches (remoteName cfg) refs /\
     Forall (fun run => git_said env tr (revlist_args cfg (fst run))
                          (repoPath cfg) (snd run)) runs /\
     forallb (walk_event cfg) pre = true /\
     count_events is_git pre = (3 + length runs)%nat /\
     forallb (store_event cfg) st = true /\
     walk (repo_name url) (remoteName cfg) runs = done ++ rest /\
     length os = length done /\
     acknowledged env (tr0 ++ pre ++ [EvProgressBar (length (done ++ rest))]) st
       = map document_of (combine done os) /\
     count_events is_tick st = length done /\
     (length (updates st) <= length done + 1)%nat /\
     ((r = Ok tt /\ rest = [] /\ length (updates st) = length done /\
       count_events is_git st = (9 * length done)%nat /\
       tr = tr0 ++ pre ++ [EvProgressBar (length (done ++ rest))] ++ st
              ++ [EvClose; EvLog (lit "Done!")]) \/
      (exists e, r = Throw e /\ rest <> [] /\
       tr = tr0 ++ pre ++ [EvProgressBar (length (done ++ rest))] ++ st))).
Proof.
  unfold analyze. intros H.
  apply bind_inv in H. destruct H as [(url & tr1 & G1 & H) | (e & G1 & ->)];
    apply git_inv in G1; destruct G1 as [-> S1].
  2: { left. exists e, [EvGit (url_args cfg) (repoPath cfg)].
       split; [reflexivity|]. split; [reflexivity|].
       cbn [forallb]. rewrite walk_event_git; reflexivity. }
  specialize (S1 _ eq_refl).
  apply bind_inv in H. destruct H as [(u1 & tr2 & L1 & H) | (e & L1 & _)];
    apply console_log_inv in L1; destruct L1 as [L1 ->]; [|discriminate].
  apply bind_inv in H. destruct H as [(u2 & tr3 & G2 & H) | (e & G2 & ->)];
    apply git_inv in G2; destruct G2 as [-> _].
  2: { left. exists e. eexists. split; [reflexivity|].
       split; [rewrite <- !app_assoc; reflexivity|].
       cbn [forallb app]. rewrite !walk_event_git; reflexivity. }
  apply bind_inv in H. destruct H as [(refs & tr4 & G3 & H) | (e & G3 & ->)];
    apply git_inv in G3; destruct G3 as [-> S3].
  2: { left. exists e. eexists. split; [reflexivity|].
       split; [rewrite <- !app_assoc; reflexivity|].
       cbn [forallb app]. rewrite !walk_event_git; reflexivity. }
  specialize (S3 _ eq_refl).
  apply bind_inv in H. destruct H as [(u3 & tr5 & L2 & H) | (e & L2 & _)];
    apply console_log_inv in L2; destruct L2 as [L2 ->]; [|discriminate].
  apply bind_inv in H. destruct H as [(commits & tr6 & W & H) | (e & W & ->)];
    pose proof W as W'; apply walk_loop_inv in W;
    destruct W as (extw & -> & Uw & K);
    apply walk_loop_calls in W';
    destruct W' as (called & rest0 & Eb & Ew & Kc);
    apply app_inv_head in Ew; subst extw;
    destruct (revlist_events_facts cfg called) as [Fw Cw].
  2: { left. exists e. eexists. split; [reflexivity|].
       split; [rewrite <- !app_assoc; reflexivity|].
       cbn [app]. cbn [forallb]. rewrite Fw, !walk_event_git; reflexivity. }
  destruct (K commits eq_refl) as (runs & Hb & Hc & Hf).
  specialize (Kc commits eq_refl). subst rest0. rewrite app_nil_r in Eb.
  apply bind_inv in H. destruct H as [(u4 & tr7 & L3 & H) | (e & L3 & _)];
    apply console_log_inv in L3; destruct L3 as [L3 ->]; [|discriminate].
  apply bind_inv in H. destruct H as [(u5 & tr8 & L4 & H) | (e & L4 & _)];
    apply emit_inv in L4; destruct L4 as [L4 ->]; [|discriminate].
  right.
  set (pre := [EvGit (url_args cfg) (repoPath cfg);
               EvLog (lit "Repo: " ++ repo_name url);
               EvGit (lit "fetch --all --prune") (repoPath cfg);
               EvGit branch_args (repoPath cfg);
               EvLog (of_nat (length (list_branches (remoteName cfg) refs))
                        ++ lit " branches:" ++ bullet
                        ++ join bullet (list_branches (remoteName cfg) refs))]
              ++ map (revlist_event cfg) called
              ++ [EvLog (of_nat (length commits) ++ lit " commits:" ++ bullet
                           ++ join bullet (sort (map fst commits)))]).
  assert (Fpre : forallb (walk_event cfg) pre = true).
  { unfold pre. rewrite !forallb_app, Fw. cbn [forallb].
    rewrite !walk_event_git; reflexivity. }
  assert (Cpre : count_events is_git pre = (3 + length runs)%nat).
  { unfold pre. rewrite !count_events_app, Cw.
    rewrite <- (length_map fst runs), Hb, <- Eb.
    unfold count_events. simpl. lia. }
  assert (Hwalk : commits = walk (repo_name url) (remoteName cfg) runs)
    by exact Hc.
  match type of H with
  | bind _ _ ?t = _ =>
      assert (Ek : t = tr0 ++ pre ++ [EvProgressBar (length commits)])
        by (unfold pre; rewrite <- !app_assoc; reflexivity);
      rewrite Ek in H; clear Ek
  end.
  assert (Later : forall x args out,
            (exists tr', git_said env tr' args (repoPath cfg) out /\
                         exists y, tr0 ++ pre = tr' ++ y) ->
            git_said env (tr0 ++ pre ++ x) args (repoPath cfg) out).
  { intros x args out (tr' & Hs & y & Ey). eapply git_said_later; [exact Hs|].
    exists (y ++ x). rewrite app_assoc, app_assoc, Ey. reflexivity. }
  assert (Surl : forall x, git_said env (tr0 ++ pre ++ x) (url_args cfg)
                             (repoPath cfg) url).
  { intros x. apply Later. eexists. split; [exact S1|].
    eexists. unfold pre. rewrite <- !app_assoc. reflexivity. }
  assert (Srefs : forall x, git_said env (tr0 ++ pre ++ x) branch_args
                              (repoPath cfg) refs).
  { intros x. apply Later. eexists. split; [exact S3|].
    eexists. unfold pre. rewrite <- !app_assoc. reflexivity. }
  assert (Sruns : forall x,
            Forall (fun run => git_said env (tr0 ++ pre ++ x)
                                 (revlist_args cfg (fst run)) (repoPath cfg)
                                 (snd run)) runs).
  { intros x. eapply Forall_impl; [|exact Hf]. intros run Hr. apply Later.
    eexists. split; [exact Hr|].
    eexists. unfold pre. rewrite <- !app_assoc. reflexivity. }
  clear Later S1 S3 Hf.
  apply bind_inv in H. destruct H as [(u6 & tr9 & F & H) | (e & F & ->)];
    apply store_loop_shape in F;
    destruct F as (st & done & rest & os & -> & Fs & Ed & Lo & Ak & Tk & Up
                   & Hok & Hth);
    assert (Hw : walk (repo_name url) (remoteName cfg) runs = done ++ rest)
      by (rewrite <- Ed; symmetry; exact Hwalk);
    clear Hwalk Hc; subst commits.
  - apply bind_inv in H. destruct H as [(u7 & tr10 & L5 & H) | (e & L5 & _)];
      apply emit_inv in L5; destruct L5 as [L5 ->]; [|discriminate].
    apply console_log_inv in H. destruct H as [-> ->].
    destruct u6. destruct (Hok eq_refl) as (Er & Hu & Hg).
    exists url, refs, runs, pre, st, done, rest, os.
    rewrite <- !app_assoc.
    split; [apply Surl|]. split; [apply Srefs|]. split; [exact Hb|].
    split; [apply Sruns|]. split; [exact Fpre|]. split; [exact Cpre|].
    split; [exact Fs|]. split; [exact Hw|]. split; [exact Lo|].
    split; [exact Ak|].
    split; [exact Tk|]. split; [exact Up|].
    left. subst rest. rewrite app_nil_r in *. auto.
  - exists url, refs, runs, pre, st, done, rest, os.
    rewrite <- !app_assoc.
    split; [apply Surl|]. split; [apply Srefs|]. split; [exact Hb|].
    split; [apply Sruns|]. split; [exact Fpre|]. split; [exact Cpre|].
    split; [exact Fs|]. split; [exact Hw|]. split; [exact Lo|].
    split; [exact Ak|].
    split; [exact Tk|]. split; [exact Up|].
    right. exists e. split; [reflexivity|]. split; [exact (Hth e eq_refl)|].
    reflexivity.
Qed.

Lemma events_without_updates (pre tr : list event) :
  updates tr = [] -> acknowledged env pre tr = [].
Proof.
  revert pre; induction tr as [|ev tr IH]; intros pre H; simpl; [reflexivity|].
  destruct ev; simpl in H; try discriminate; simpl; apply IH; exact H.
Qed.

Lemma walk_events_facts (cfg : config) (pre : list event) :
  forallb (walk_event cfg) pre = true ->
  updates pre = [] /\ count_events is_tick pre = 0%nat /\
  (forall n, ~ In (EvProgressBar n) pre) /\
  (forall c, ~ In (EvExit c) pre) /\ ~ In EvClose pre.
Proof.
  induction pre as [|ev pre IH]; simpl; intros H.
  - repeat split; auto.
  - apply andb_true_iff in H. destruct H as [Hev H].
    destruct (IH H) as (U & T & P & X & C).
    destruct ev; simpl in Hev; try discriminate; unfold count_events in *;
      simpl; (split; [exact U|]); (split; [exact T|]);
      (split; [intros n [E|I]; [discriminate | exact (P n I)]|]);
      (split; [intros c [E|I]; [discriminate | exact (X c I)]|]);
      intros [E|I]; [discriminate | exact (C I) | discriminate | exact (C I)].
Qed.

Lemma store_events_facts (cfg : config) (st : list event) :
  forallb (store_event cfg) st = true ->
  (forall n, ~ In (EvProgressBar n) st) /\
  (forall c, ~ In (EvExit c) st) /\ ~ In EvClose st.
Proof.
  induction st as [|ev st IH]; simpl; intros H.
  - repeat split; auto.
  - apply andb_true_iff in H. destruct H as [Hev H].
    destruct (IH H) as (P & X & C).
    destruct ev; simpl in Hev; try discriminate;
      (split; [intros n [E|I]; [discriminate | exact (P n I)]|]);
      (split; [intros c [E|I]; [discriminate | exact (X c I)]|]);
      intros [E|I]; try discriminate; exact (C I).
Qed.

(** Every run, cut in its parts. *)
Lemma run_shape (p r m d : option jstring) :
  (exists e pre,
      run_process env p r m d
      = EvConnect (mongoUri (defaults (clock env []) p r m d))
          :: pre ++ ends_badly e /\
      forallb (walk_event (defaults (clock env []) p r m d)) pre = true) \/
  (exists url refs runs pre st done rest os tail,
      run_process env p r m d
      = EvConnect (mongoUri (defaults (clock env []) p r m d))
          :: pre ++ EvProgressBar (length (done ++ rest)) :: st ++ tail /\
      history_read env (defaults (clock env []) p r m d)
        (run_process env p r m d) url refs runs /\
      forallb (walk_event (defaults (clock env []) p r m d)) pre = true /\
      count_events is_git pre = (3 + length runs)%nat /\
      forallb (store_event (defaults (clock env []) p r m d)) st = true /\
      walk (repo_name url) (remoteName (defaults (clock env []) p r m d)) runs
        = done ++ rest /\
      length os = length done /\
      acknowledged env [] (run_process env p r m d)
        = map document_of (combine done os) /\
      count_events is_tick st = length done /\
      (length (updates st) <= length done + 1)%nat /\
      ((tail = ends_well /\ rest = [] /\ length (updates st) = length done /\
        count_events is_git st = (9 * length done)%nat) \/
       (exists e, tail = ends_badly e /\ rest <> []))).
Proof.
  set (cfg := defaults (clock env []) p r m d).
  unfold run_process, main. fold cfg. unfold pipeline.
  destruct (bind (connect env cfg) (fun _ => analyze env cfg) [])
    as [res tr] eqn:E.
  apply bind_inv in E. destruct E as [(u & tr1 & C & A) | (e & C & ->)];
    unfold connect, call in C; inversion C; subst; clear C.
  2: { left. exists e, []. split; reflexivity. }
  apply analyze_shape in A.
  destruct A as [(e & pre & -> & -> & F) |
    (url & refs & runs & pre & st & done & rest & os & S1 & S2 & Hb & Sr & Fp
     & Cp & Fs & Hw & Lo & Ak & Tk & Up & Hend)].
  - left. exists e, pre. split; [reflexivity | exact F].
  - right. destruct (walk_events_facts cfg pre Fp) as (Upre & _).
    assert (Apre : forall x,
              acknowledged env []
                ([EvConnect (mongoUri cfg)] ++ pre
                 ++ [EvProgressBar (length (done ++ rest))] ++ st ++ x)
              = map document_of (combine done os)
                  ++ acknowledged env
                       ([EvConnect (mongoUri cfg)] ++ pre
                        ++ [EvProgressBar (length (done ++ rest))] ++ st) x).
    { intros x. rewrite !app_assoc. rewrite acknowledged_app.
      rewrite <- !app_assoc. f_equal.
      rewrite (app_assoc [EvConnect (mongoUri cfg)]), (app_assoc _ _ st).
      rewrite acknowledged_app. rewrite <- !app_assoc.
      rewrite events_without_updates; [exact Ak|].
      rewrite !updates_app, Upre. reflexivity. }
    destruct Hend as [(-> & -> & Hu & Hg & ->) | (e & -> & Hr & ->)].
    + exists url, refs, runs, pre, st, done, [], os, ends_well.
      split; [rewrite <- !app_assoc; reflexivity|].
      split.
      { repeat split; try assumption.
        - eapply git_said_later; [exact S1 | eexists; reflexivity].
        - eapply git_said_later; [exact S2 | eexists; reflexivity].
        - eapply Forall_impl; [|exact Sr]. intros run Hr.
          eapply git_said_later; [exact Hr | eexists; reflexivity]. }
      split; [exact Fp|]. split; [exact Cp|]. split; [exact Fs|].
      split; [exact Hw|]. split; [exact Lo|].
      split.
      { match goal with
        | |- acknowledged env [] ?t = _ =>
            replace t with ([EvConnect (mongoUri cfg)] ++ pre
                            ++ [EvProgressBar (length (done ++ []))] ++ st
                            ++ ends_well)
              by (unfold ends_well; rewrite <- !app_assoc; reflexivity)
        end.
        rewrite Apre, events_without_updates by reflexivity.
        apply app_nil_r. }
      split; [exact Tk|]. split; [exact Up|]. left. auto.
    + exists url, refs, runs, pre, st, done, rest, os, (ends_badly e).
      split; [rewrite <- !app_assoc; reflexivity|].
      split.
      { repeat split; try assumption.
        - eapply git_said_later; [exact S1 | eexists; reflexivity].
        - eapply git_said_later; [exact S2 | eexists; reflexivity].
        - eapply Forall_impl; [|exact Sr]. intros run Hr'.
          eapply git_said_later; [exact Hr' | eexists; reflexivity]. }
      split; [exact Fp|]. split; [exact Cp|]. split; [exact Fs|].
      split; [exact Hw|]. split; [exact Lo|].
      split.
      { match goal with
        | |- acknowledged env [] ?t = _ =>
            replace t with ([EvConnect (mongoUri cfg)] ++ pre
                            ++ [EvProgressBar (length (done ++ rest))] ++ st
                            ++ ends_badly e)
              by (unfold ends_badly; rewrite <- !app_assoc; reflexivity)
        end.
        rewrite Apre, events_without_updates by reflexivity.
        apply app_nil_r. }
      split; [exact Tk|]. split; [exact Up|]. right. eauto.
Qed.

End ShapeProofs.

Lemma In_ends_well (ev : event) :
  In ev ends_well <-> ev = EvClose \/ ev = EvLog (lit "Done!") \/ ev = EvExit 0.
Proof. unfold ends_well. simpl. intuition congruence. Qed.

Lemma In_ends_badly (e : error) (ev : event) :
  In ev (ends_badly e) <-> ev = EvLogError e \/ ev = EvExit 1.
Proof. unfold ends_badly. simpl. intuition congruence. Qed.

(** X12.  The course of every run.  It connects first; then it reads the
    history, with queries other than [show], all run in the repository path,
    and lines printed; then, if it gets that far, it announces the total and
    stores the commits, with [show] queries run in the repository path,
    upserts into the database of the run and ticks of the progress bar; and
    it ends either by closing the connection, printing "Done!" and exiting
    with 0, which happens only after the store part, or by printing the
    error and exiting with 1.  Reading and storing do not interleave, and
    nothing follows the exit. *)
Theorem run_trace_grammar (env : environment) (p r m d : option jstring) :
  exists pre mid tail,
    run_process env p r m d
    = EvConnect (mongoUri (defaults (clock env []) p r m d))
        :: pre ++ mid ++ tail /\
    forallb (walk_event (defaults (clock env []) p r m d)) pre = true /\
    (mid = [] \/
     exists n st,
       mid = EvProgressBar n :: st /\
       forallb (store_event (defaults (clock env []) p r m d)) st = true) /\
    ((tail = ends_well /\ mid <> []) \/ exists e, tail = ends_badly e).
Proof.
  destruct (run_shape env p r m d) as [(e & pre & E & F) |
    (url & refs & runs & pre & st & done & rest & os & tail & E & _ & Fp & _
     & Fs & _ & _ & _ & _ & _ & Hend)].
  - exists pre, [], (ends_badly e). split; [rewrite E; reflexivity|].
    split; [exact F|]. split; [left; reflexivity | right; eauto].
  - exists pre, (EvProgressBar (length (done ++ rest)) :: st), tail.
    split; [rewrite E; reflexivity|].
    split; [exact Fp|]. split; [right; eauto|].
    destruct Hend as [(-> & _) | (e & -> & _)]; [left | right; eauto].
    split; [reflexivity | discriminate].
Qed.

(** X13.  The connection is closed exactly in the runs that exit with 0: a
    run that fails never closes it. *)
Theorem connection_closed_only_on_success (env : environment)
  (p r m d : option jstring) :
  (In EvClose (run_process env p r m d) <->
   In (EvExit 0) (run_process env p r m d)) /\
  (In (EvExit 1) (run_process env p r m d) ->
   ~ In EvClose (run_process env p r m d)).
Proof.
  destruct (run_shape env p r m d) as [(e & pre & E & F) |
    (url & refs & runs & pre & st & done & rest & os & tail & E & _ & Fp & _
     & Fs & _ & _ & _ & _ & _ & Hend)]; rewrite E; clear E.
  - destruct (walk_events_facts _ pre F) as (_ & _ & _ & X & C).
    assert (N1 : ~ In EvClose (EvConnect
                (mongoUri (defaults (clock env []) p r m d))
                :: pre ++ ends_badly e)).
    { simpl. rewrite in_app_iff, In_ends_badly.
      intros [H|[H|[H|H]]]; try discriminate. exact (C H). }
    assert (N2 : ~ In (EvExit 0) (EvConnect
                (mongoUri (defaults (clock env []) p r m d))
                :: pre ++ ends_badly e)).
    { simpl. rewrite in_app_iff, In_ends_badly.
      intros [H|[H|[H|H]]]; try discriminate. exact (X 0 H). }
    tauto.
  - destruct (walk_events_facts _ pre Fp) as (_ & _ & _ & X & C).
    destruct (store_events_facts _ st Fs) as (_ & Xs & Cs).
    destruct Hend as [(-> & _) | (e & -> & _)].
    + assert (Y1 : In EvClose (EvConnect
                (mongoUri (defaults (clock env []) p r m d))
                :: pre ++ EvProgressBar (length (done ++ rest)) :: st
                     ++ ends_well)).
      { right. apply in_or_app. right. right. apply in_or_app. right.
        apply In_ends_well. auto. }
      assert (Y2 : In (EvExit 0) (EvConnect
                (mongoUri (defaults (clock env []) p r m d))
                :: pre ++ EvProgressBar (length (done ++ rest)) :: st
                     ++ ends_well)).
      { right. apply in_or_app. right. right. apply in_or_app. right.
        apply In_ends_well. auto. }
      split; [tauto|]. intros H. exfalso. simpl in H.
      rewrite in_app_iff in H. simpl in H. rewrite in_app_iff, In_ends_well in H.
      destruct H as [H|[H|[H|[H|[H|[H|H]]]]]]; try discriminate.
      * exact (X 1 H).
      * exact (Xs 1 H).
    + assert (N1 : ~ In EvClose (EvConnect
                (mongoUri (defaults (clock env []) p r m d))
                :: pre ++ EvProgressBar (length (done ++ rest)) :: st
                     ++ ends_badly e)).
      { simpl. rewrite in_app_iff. simpl. rewrite in_app_iff, In_ends_badly.
        intros [H|[H|[H|[H|[H|H]]]]]; try discriminate;
          [exact (C H) | exact (Cs H)]. }
      assert (N2 : ~ In (EvExit 0) (EvConnect
                (mongoUri (defaults (clock env []) p r m d))
                :: pre ++ EvProgressBar (length (done ++ rest)) :: st
                     ++ ends_badly e)).
      { simpl. rewrite in_app_iff. simpl. rewrite in_app_iff, In_ends_badly.
        intros [H|[H|[H|[H|[H|H]]]]]; try discriminate;
          [exact (X 0 H) | exact (Xs 0 H)]. }
      tauto.
Qed.

(** A run either fails while the history is read, or gets to the store
    part; what its counts are in each case. *)
Lemma run_cases (env : environment) (p r m d : option jstring) :
  (updates (run_process env p r m d) = [] /\
   acknowledged env [] (run_process env p r m d) = [] /\
   count_events is_tick (run_process env p r m d) = 0%nat /\
   (forall n, ~ In (EvProgressBar n) (run_process env p r m d)) /\
   ~ In (EvExit 0) (run_process env p r m d)) \/
  (exists url refs runs done rest os,
     history_read env (defaults (clock env []) p r m d)
       (run_process env p r m d) url refs runs /\
     walk (repo_name url) (remoteName (defaults (clock env []) p r m d)) runs
       = done ++ rest /\
     length os = length done /\
     acknowledged env [] (run_process env p r m d)
       = map document_of (combine done os) /\
     count_events is_tick (run_process env p r m d) = length done /\
     (length (updates (run_process env p r m d)) <= length done + 1)%nat /\
     (forall n, In (EvProgressBar n) (run_process env p r m d) <->
                n = length (done ++ rest)) /\
     (In (EvExit 0) (run_process env p r m d) <-> rest = []) /\
     (rest = [] ->
        length (updates (run_process env p r m d)) = length done /\
        count_events is_git (run_process env p r m d)
          = (3 + length runs + 9 * length done)%nat)).
Proof.
  destruct (run_shape env p r m d) as [(e & pre & E & F) |
    (url & refs & runs & pre & st & done & rest & os & tail & E & Hh & Fp & Cp
     & Fs & Hw & Lo & Ak & Tk & Up & Hend)].
  - left. rewrite E.
    destruct (walk_events_facts _ pre F) as (U & T & P & X & C).
    assert (Eu : updates (EvConnect
                   (mongoUri (defaults (clock env []) p r m d))
                   :: pre ++ ends_badly e) = []).
    { change (EvConnect ?u :: ?l) with ([EvConnect u] ++ l).
      rewrite !updates_app, U. reflexivity. }
    split; [exact Eu|].
    split; [apply events_without_updates, Eu|].
    split.
    { change (EvConnect ?u :: ?l) with ([EvConnect u] ++ l).
      rewrite !count_events_app, T. reflexivity. }
    split.
    + intros n. simpl. rewrite in_app_iff, In_ends_badly.
      intros [H|[H|[H|H]]]; try discriminate. exact (P n H).
    + simpl. rewrite in_app_iff, In_ends_badly.
      intros [H|[H|[H|H]]]; try discriminate. exact (X 0 H).
  - right. exists url, refs, runs, done, rest, os.
    destruct (walk_events_facts _ pre Fp) as (U & T & P & X & C).
    destruct (store_events_facts _ st Fs) as (Ps & Xs & Cs).
    assert (Ut : updates tail = [] /\ count_events is_tick tail = 0%nat /\
                 count_events is_git tail = 0%nat /\
                 (forall n, ~ In (EvProgressBar n) tail) /\
                 (In (EvExit 0) tail <-> rest = [])).
    { destruct Hend as [(-> & -> & _) | (e & -> & Hr)].
      - repeat split; auto; try (intros n; rewrite In_ends_well;
          intros [H|[H|H]]; discriminate).
        intros _. apply In_ends_well. auto.
      - repeat split; auto; try (intros n; rewrite In_ends_badly;
          intros [H|H]; discriminate);
          try (rewrite In_ends_badly; intros [H|H]; discriminate).
        intros H. congruence. }
    destruct Ut as (Ut & Tt & Gt & Pt & Xt).
    assert (Erun : run_process env p r m d
                   = [EvConnect (mongoUri (defaults (clock env []) p r m d))]
                       ++ pre ++ [EvProgressBar (length (done ++ rest))]
                       ++ st ++ tail) by exact E.
    split; [exact Hh|]. split; [exact Hw|]. split; [exact Lo|].
    split; [exact Ak|].
    split; [rewrite Erun, !count_events_app, T, Tk, Tt;
            unfold count_events; simpl; lia|].
    split; [rewrite Erun, !updates_app, U, Ut; simpl; rewrite app_nil_r;
            exact Up|].
    split.
    { intros n. rewrite E. simpl. rewrite in_app_iff. simpl.
      rewrite in_app_iff. split.
      - intros [H|[H|[H|[H|H]]]]; try discriminate.
        + elim (P n H).
        + inversion H. reflexivity.
        + elim (Ps n H).
        + elim (Pt n H).
      - intros ->. auto. }
    split.
    { rewrite <- Xt. rewrite E. simpl. rewrite in_app_iff. simpl.
      rewrite in_app_iff. split.
      - intros [H|[H|[H|[H|H]]]]; try discriminate.
        + elim (X 0 H).
        + elim (Xs 0 H).
        + exact H.
      - auto. }
    intros Hr. destruct Hend as [(_ & _ & Hu & Hg) | (e & _ & Hn)];
      [|congruence].
    split.
    + rewrite Erun, !updates_app, U, Ut. simpl. rewrite app_nil_r. exact Hu.
    + rewrite Erun, !count_events_app, Cp, Hg, Gt.
      unfold count_events. simpl. lia.
Qed.

(** X14.  The progress bar counts what the store acknowledged: in every
    run the ticks are as many as the acknowledged upserts, and at most one
    upsert was requested beyond them (the one that failed).  The ticks
    never pass the total announced, and in a run that exits with 0 they
    reach it exactly, with one upsert per commit. *)
Theorem progress_counts_acknowledged (env : environment)
  (p r m d : option jstring) :
  count_events is_tick (run_process env p r m d)
    = length (acknowledged env [] (run_process env p r m d)) /\
  (length (updates (run_process env p r m d))
   <= count_events is_tick (run_process env p r m d) + 1)%nat /\
  (forall n, In (EvProgressBar n) (run_process env p r m d) ->
     (count_events is_tick (run_process env p r m d) <= n)%nat /\
     (In (EvExit 0) (run_process env p r m d) ->
        count_events is_tick (run_process env p r m d) = n /\
        length (updates (run_process env p r m d)) = n)).
Proof.
  destruct (run_cases env p r m d) as [(U & A & T & P & X) |
    (url & refs & runs & done & rest & os & _ & _ & Lo & A & T & U & P & X & K)].
  - rewrite U, A, T. split; [reflexivity|]. split; [simpl; lia|].
    intros n H. elim (P n H).
  - rewrite A, T, length_map, length_combine, Lo, Nat.min_id.
    split; [reflexivity|]. split; [exact U|].
    intros n H. apply P in H. subst n. rewrite length_app.
    split; [lia|]. intros H0. apply X in H0. subst rest.
    destruct (K eq_refl) as [Hu _]. rewrite Hu. simpl. lia.
Qed.

(** X15.  What a failed run leaves in the store: in a run that got to the
    progress bar, the commits whose upsert was acknowledged are the first
    commits of the map, in its order, each with the document made from its
    record; the total announced is the size of the map; and every commit
    was stored exactly when the run exits with 0. *)
Theorem stored_commits_are_a_prefix (env : environment)
  (p r m d : option jstring) (n : nat) :
  In (EvProgressBar n) (run_process env p r m d) ->
  exists url refs runs done rest os,
    history_read env (defaults (clock env []) p r m d)
      (run_process env p r m d) url refs runs /\
    walk (repo_name url) (remoteName (defaults (clock env []) p r m d)) runs
      = done ++ rest /\
    n = length (done ++ rest) /\
    length os = length done /\
    acknowledged env [] (run_process env p r m d)
      = map document_of (combine done os) /\
    (In (EvExit 0) (run_process env p r m d) <-> rest = []).
Proof.
  intros H.
  destruct (run_cases env p r m d) as [(_ & _ & _ & P & _) |
    (url & refs & runs & done & rest & os & Hh & Hw & Lo & A & _ & _ & P & X & _)].
  - elim (P n H).
  - exists url, refs, runs, done, rest, os. apply P in H. auto 8.
Qed.

Lemma stored_commits_are_a_prefix_witness :
  exists url refs runs done rest os,
    history_read (sample_env (Some 18%nat))
      (defaults (clock (sample_env (Some 18%nat)) []) None None None None)
      (run_process (sample_env (Some 18%nat)) None None None None)
      url refs runs /\
    walk (repo_name url)
      (remoteName
         (defaults (clock (sample_env (Some 18%nat)) []) None None None None))
      runs = done ++ rest /\
    1%nat = length (done ++ rest) /\
    length os = length done /\
    acknowledged (sample_env (Some 18%nat)) []
      (run_process (sample_env (Some 18%nat)) None None None None)
      = map document_of (combine done os) /\
    (In (EvExit 0) (run_process (sample_env (Some 18%nat)) None None None None)
     <-> rest = []).
Proof.
  apply (@stored_commits_are_a_prefix (sample_env (Some 18%nat))
           None None None None 1%nat).
  vm_compute. do 8 right. left. reflexivity.
Defined.

Example run_sample_write_fails :
  run_process (sample_env (Some 18%nat)) None None None None
  = firstn 18 (run_process (sample_env None) None None None None)
    ++ [EvUpdateOne (lit "gitalyze-20261102T102030123Z") sample_doc;
        EvLogError boom; EvExit 1] /\
  acknowledged (sample_env (Some 18%nat)) []
    (run_process (sample_env (Some 18%nat)) None None None None) = [] /\
  acknowledged (sample_env None) []
    (run_process (sample_env None) None None None None) = [sample_doc].
Proof. vm_compute. repeat split; reflexivity. Qed.

(** X16.  The cost of a run in git commands: a run that exits with 0 has
    run git three times (remote URL, fetch, branch listing), then once for
    each listed branch, then nine times for each distinct commit. *)
Theorem git_call_count (env : environment) (p r m d : option jstring) :
  In (EvExit 0) (run_process env p r m d) ->
  exists url refs runs,
    history_read env (defaults (clock env []) p r m d)
      (run_process env p r m d) url refs runs /\
    count_events is_git (run_process env p r m d)
    = (3 + length (list_branches
                     (remoteName (defaults (clock env []) p r m d)) refs)
       + 9 * length (walk (repo_name url)
                       (remoteName (defaults (clock env []) p r m d)) runs))%nat.
Proof.
  intros H.
  destruct (run_cases env p r m d) as [(_ & _ & _ & _ & X) |
    (url & refs & runs & done & rest & os & Hh & Hw & _ & _ & _ & _ & _ & X & K)].
  - elim (X H).
  - exists url, refs, runs. split; [exact Hh|].
    apply X in H. subst rest. destruct (K eq_refl) as [_ Hg].
    rewrite Hg, Hw, app_nil_r. destruct Hh as (_ & _ & Hb & _).
    rewrite <- Hb, length_map. reflexivity.
Qed.

Lemma git_call_count_witness :
  exists url refs runs,
    history_read (sample_env None)
      (defaults (clock (sample_env None) []) None None None None)
      (run_process (sample_env None) None None None None) url refs runs /\
    count_events is_git (run_process (sample_env None) None None None None)
    = (3 + length (list_branches
                     (remoteName
                        (defaults (clock (sample_env None) []) None None None None))
                     refs)
       + 9 * length (walk (repo_name url)
                       (remoteName
                          (defaults (clock (sample_env None) []) None None None None))
                       runs))%nat.
Proof.
  apply (@git_call_count (sample_env None) None None None None).
  vm_compute. do 22 right. left. reflexivity.
Defined.

(** ** A remote name with a slash (main.js, lines 46-47) *)

(** X17.  When the remote name holds a slash, no ref line passes the test
    on the segment at index 2, since a segment holds no slash: the Branch
    Lister returns no branch, whatever git lists. *)
Theorem slash_in_remote_lists_nothing (remote out : jstring) :
  In SLASH remote -> list_branches remote out = [].
Proof.
  intros H. unfold list_branches.
  rewrite (filter_drops_all (fun l => index_is (split SLASH l) 2 remote));
    [reflexivity|].
  intros l _. unfold index_is.
  destruct (nth_error (split SLASH l) 2) as [x|] eqn:E; [|reflexivity].
  apply eqb_neq. intros ->. apply nth_error_In in E.
  pose proof (split_no_sep SLASH l) as F. rewrite Forall_forall in F.
  exact (F remote E H).
Qed.

Lemma slash_in_remote_lists_nothing_witness :
  list_branches (lit "team/origin") (lit "refs/remotes/team/origin/main") = [].
Proof.
  apply (@slash_in_remote_lists_nothing (lit "team/origin")
           (lit "refs/remotes/team/origin/main")).
  simpl. unfold SLASH. auto 10.
Defined.
